(** * select/cons_res: consumable-resource node selection

    A shallow embedding of the occupancy engine of [select_cons_res.c]:
    bit strings, the core map, job resource records, partition rows, the
    row packer, the job life cycle entry points, the node-info rollup and
    the reservation planner, followed by the properties established about
    them. *)

From Stdlib Require Import ZArith Lia Bool List Sorted Permutation.
From stdpp Require Import base option list gmap.

Local Open Scope Z_scope.

(** ** Bit strings ([bitstr_t])

    A bit string is a fixed-size array of bits.  Positions are C [int]s and
    therefore integers here; a position outside the array reads as clear and
    a write outside the array is dropped (the C library asserts instead). *)

Abbreviation bitstr := (list bool) (only parsing).

Definition bit_size (b : bitstr) : Z := Z.of_nat (length b).

Definition bit_alloc (nbits : Z) : bitstr := replicate (Z.to_nat nbits) false.

Definition bit_copy (b : bitstr) : bitstr := b.

Definition bit_test (b : bitstr) (i : Z) : bool :=
  if i <? 0 then false else default false (b !! Z.to_nat i).

Definition bit_assign (v : bool) (b : bitstr) (i : Z) : bitstr :=
  if i <? 0 then b else <[Z.to_nat i := v]> b.

Definition bit_set : bitstr -> Z -> bitstr := bit_assign true.
Definition bit_clear : bitstr -> Z -> bitstr := bit_assign false.

(** [bit_nclear b start stop] clears the bits [start .. stop], both included. *)
Definition bit_nclear (b : bitstr) (start stop : Z) : bitstr :=
  imap (fun i x =>
          if (start <=? Z.of_nat i) && (Z.of_nat i <=? stop) then false else x) b.

Fixpoint ffs_from (k : Z) (b : bitstr) : Z :=
  match b with
  | [] => -1
  | x :: b' => if x then k else ffs_from (k + 1) b'
  end.

(** First set bit, [-1] when there is none. *)
Definition bit_ffs (b : bitstr) : Z := ffs_from 0 b.

Fixpoint fls_from (k : Z) (b : bitstr) : Z :=
  match b with
  | [] => -1
  | x :: b' =>
      let r := fls_from (k + 1) b' in
      if 0 <=? r then r else if x then k else -1
  end.

(** Last set bit, [-1] when there is none. *)
Definition bit_fls (b : bitstr) : Z := fls_from 0 b.

Fixpoint popcount (b : bitstr) : nat :=
  match b with
  | [] => 0%nat
  | x :: b' => ((if x then 1 else 0) + popcount b')%nat
  end.

Definition bit_set_count (b : bitstr) : Z := Z.of_nat (popcount b).

(** Set bits in the positions [start .. stop - 1]. *)
Definition bit_set_count_range (b : bitstr) (start stop : Z) : Z :=
  Z.of_nat (popcount (take (Z.to_nat (stop - start)) (drop (Z.to_nat start) b))).

(** The binary operations keep the size of their first (in/out) operand. *)
Definition bit_map2 (f : bool -> bool -> bool) (b1 b2 : bitstr) : bitstr :=
  imap (fun i x => f x (default false (b2 !! i))) b1.

Definition bit_or : bitstr -> bitstr -> bitstr := bit_map2 orb.
Definition bit_and : bitstr -> bitstr -> bitstr := bit_map2 andb.
Definition bit_and_not : bitstr -> bitstr -> bitstr :=
  bit_map2 (fun x y => x && negb y).
Definition bit_not (b : bitstr) : bitstr := map negb b.

(** [bit_super_set b1 b2]: every bit of [b1] is also set in [b2]. *)
Definition bit_super_set (b1 b2 : bitstr) : bool :=
  forallb (fun x => x) (bit_map2 (fun x y => implb x y) b1 b2).

(** Integer ranges [lo, lo + 1, ..., lo + n - 1], for the C [for] loops. *)
Definition seqZ' (lo : Z) (n : nat) : list Z :=
  map (fun k => lo + Z.of_nat k) (seq 0 n).

(** The indices of [for (i = first; i <= last; i++)]. *)
Definition range_incl (first last : Z) : list Z :=
  seqZ' first (Z.to_nat (last - first + 1)).

(** ** Return codes and node sharing states *)

Definition SLURM_SUCCESS : Z := 0.
Definition SLURM_ERROR : Z := -1.
Definition SLURM_NO_CHANGE_IN_DATA : Z := 1900.

Definition NODE_CR_AVAILABLE : Z := 0.

(** ** Job resources ([struct job_resources]) *)

Record job_resources := mk_job_resources {
  core_bitmap : option bitstr;
  core_bitmap_used : option bitstr;
  cpus : option (list Z);
  cpus_used : list Z;
  memory_allocated : list Z;
  memory_used : list Z;
  ncpus : Z;
  nhosts : Z;
  node_bitmap : option bitstr;
  node_req : Z;
  whole_node : Z
}.

(** Rows and jobs refer to job resources by address; [ptr] is an address in
    the resource store. *)
Abbreviation ptr := nat (only parsing).

(** What a null or dangling reference reads as. *)
Definition no_job_resources : job_resources :=
  mk_job_resources None None None [] [] [] 0 0 None 0 0.

#[global] Instance job_resources_inhabited : Inhabited job_resources :=
  populate no_job_resources.

Definition deref (store : gmap ptr job_resources) (p : option ptr) : job_resources :=
  match p with
  | Some a => default no_job_resources (store !! a)
  | None => no_job_resources
  end.

(** The test [p == NULL]. *)
Definition is_null {A : Type} (p : option A) : bool :=
  match p with
  | None => true
  | Some _ => false
  end.

(** Bit strings the C code dereferences are taken as empty when null. *)
Definition the_bits (b : option bitstr) : bitstr := default [] b.

(** ** Partition rows ([struct part_row_data], [struct part_res_record]) *)

Record part_row_data := mk_part_row_data {
  first_row_bitmap : option bitstr;
  num_jobs : nat;
  job_list : list (option ptr)
}.

(** The [row] array carries [num_rows] entries; [num_rows] is read off it. *)
Record part_res_record := mk_part_res_record {
  part_ptr : nat;
  row : option (list part_row_data)
}.


Record sort_support := mk_sort_support {
  jstart : Z;
  tmpjobs : option ptr
}.

Section CoreMap.

(** [cr_node_num_cores]: the number of cores of every node. *)
Variable cr_node_num_cores : list nat.

Definition node_record_count : Z := Z.of_nat (length cr_node_num_cores).

Definition node_cores (n : Z) : Z :=
  if n <? 0 then 0
  else Z.of_nat (default 0%nat (cr_node_num_cores !! Z.to_nat n)).

(** Modelled from the spec: [cr_get_coremap_offset] reads the table
    [cr_node_cores_offset], built outside this file; section 3 gives it as
    the prefix sum offset[n] = cores[0] + ... + cores[n-1], offset[0] = 0. *)
Definition cr_get_coremap_offset (n : Z) : Z :=
  Z.of_nat (sum_list (take (Z.to_nat n) cr_node_num_cores)).

(** *** Projection of a job on the core map

    Modelled from the spec: [add_job_to_cores], [remove_job_from_cores]
    and [job_fits_into_cores] live in job_resources.c.  Section 4.2: the
    cores of a job on one of its nodes are a contiguous slice of its
    packed core_bitmap and are projected to the global position
    offset(n) + local_k; a whole-node job takes every core of each of its
    nodes. *)
Fixpoint job_core_positions (whole : bool) (cb : bitstr)
    (nb : bitstr) (cores : list nat) (full_bit_inx job_bit_inx : Z) : list Z :=
  match nb, cores with
  | sel :: nb', c :: cores' =>
      if sel then
        map (fun i => full_bit_inx + i)
            (filter (fun i => whole || bit_test cb (job_bit_inx + i) = true)
                    (seqZ' 0 c))
        ++ job_core_positions whole cb nb' cores'
             (full_bit_inx + Z.of_nat c) (job_bit_inx + Z.of_nat c)
      else
        job_core_positions whole cb nb' cores'
          (full_bit_inx + Z.of_nat c) job_bit_inx
  | _, _ => []
  end.

Definition job_positions (job : job_resources) : list Z :=
  job_core_positions (whole_node job =? 1) (the_bits (core_bitmap job))
    (the_bits (node_bitmap job)) cr_node_num_cores 0 0.

(** Modelled from the spec: section 3, a row bitmap is the OR of the
    projected core bitmaps of its jobs; a null full bitmap is allocated
    with one bit per core of the cluster. *)
Definition add_job_to_cores (job : job_resources)
    (full_core_bitmap : option bitstr) : option bitstr :=
  match core_bitmap job with
  | None => full_core_bitmap
  | Some _ =>
      let full := match full_core_bitmap with
                  | Some b => b
                  | None => bit_alloc (cr_get_coremap_offset node_record_count)
                  end in
      Some (foldl bit_set full (job_positions job))
  end.

(** Modelled from the spec: the inverse of [add_job_to_cores], the
    projected cores of the job are cleared. *)
Definition remove_job_from_cores (job : job_resources)
    (full_core_bitmap : option bitstr) : option bitstr :=
  match core_bitmap job, full_core_bitmap with
  | Some _, Some b => Some (foldl bit_clear b (job_positions job))
  | _, _ => full_core_bitmap
  end.

(** Modelled from the spec: section 4.2, the job fits when no bit is set
    both in its projection and in the row bitmap. *)
Definition job_fits_into_cores (job : job_resources) (full_bitmap : bitstr) : Z :=
  if forallb (fun p => negb (bit_test full_bitmap p)) (job_positions job)
  then 1 else 0.

(** *** [_add_job_to_cores] and [_can_job_fit_in_row] *)

Definition _add_job_to_cores (job : job_resources) (r : part_row_data)
    : part_row_data :=
  mk_part_row_data (add_job_to_cores job (first_row_bitmap r))
    (num_jobs r) (job_list r).

Definition _can_job_fit_in_row (job : job_resources) (r : part_row_data) : Z :=
  if (num_jobs r =? 0)%nat then 1
  else match first_row_bitmap r with
       | None => 1
       | Some b => job_fits_into_cores job b
       end.

(** *** Helpers of the row packer *)

(** [a[i] = x] on an array that is grown when [i] is past its end. *)
Definition array_put {A} (dflt : A) (l : list A) (i : nat) (x : A) : list A :=
  if (i <? length l)%nat then <[i := x]> l
  else l ++ replicate (i - length l) dflt ++ [x].

(** Modelled from the spec: [common_add_job_to_row] is part of the shared
    common module.  Section 4.5: the job is added to the row and the row
    bitmap is updated by OR; section 3: num_jobs counts the job list. *)
Definition common_add_job_to_row (store : gmap ptr job_resources)
    (job : ptr) (r : part_row_data) : part_row_data :=
  let r1 := _add_job_to_cores (deref store (Some job)) r in
  mk_part_row_data (first_row_bitmap r1) (S (num_jobs r1))
    (array_put None (job_list r1) (num_jobs r1) (Some job)).

Definition row_set_count (r : part_row_data) : nat :=
  match first_row_bitmap r with
  | Some b => popcount b
  | None => 0%nat
  end.

Fixpoint insert_row (r : part_row_data) (rs : list part_row_data)
    : list part_row_data :=
  match rs with
  | [] => [r]
  | r' :: rs' =>
      if (row_set_count r' <=? row_set_count r)%nat then r :: rs
      else r' :: insert_row r rs'
  end.

(** Modelled from the spec: [common_sort_part_rows] is part of the shared
    common module.  Section 4.3, step 5: rows with more set bits come
    first, ordering by descending popcount, ties by row index. *)
Definition common_sort_part_rows (rs : list part_row_data) : list part_row_data :=
  foldr insert_row [] rs.

(** [common_dup_row_data] copies the row structures and keeps the job
    references; in a value model the copy is the rows themselves. *)
Definition common_dup_row_data (rs : list part_row_data) : list part_row_data := rs.

(** *** [_compare_support] and the sort of the master job list *)

Definition _compare_support (store : gmap ptr job_resources)
    (s s1 : sort_support) : Z :=
  if (jstart s >? jstart s1)
     || ((jstart s =? jstart s1)
         && (ncpus (deref store (tmpjobs s)) >? ncpus (deref store (tmpjobs s1))))
  then 1 else 0.

Fixpoint qsort_insert {A} (compar : A -> A -> Z) (x : A) (l : list A) : list A :=
  match l with
  | [] => [x]
  | y :: l' => if compar x y <=? 0 then x :: l else y :: qsort_insert compar x l'
  end.

(** [qsort] is the C library's.  It is taken as a sort that keeps [a]
    before [b] when [compar a b <= 0], which is how the merge sort of the
    GNU C library consults its comparison function. *)
Definition qsort {A} (compar : A -> A -> Z) (l : list A) : list A :=
  foldr (qsort_insert compar) [] l.

(** *** [_build_row_bitmaps] *)

Definition clear_row_bitmap (size : Z) (r : part_row_data) : part_row_data :=
  mk_part_row_data ((fun b => bit_nclear b 0 (size - 1)) <$> first_row_bitmap r)
    (num_jobs r) (job_list r).

(** The jobs [job_list[0 .. num_jobs - 1]] of a row. *)
Definition row_jobs (r : part_row_data) : list (option ptr) :=
  take (num_jobs r) (job_list r).

(** Clear the row bitmap and add the jobs of the job list again. *)
Definition rebuild_row (store : gmap ptr job_resources) (size : Z)
    (r : part_row_data) : part_row_data :=
  foldl (fun r' j => _add_job_to_cores (deref store j) r')
        (clear_row_bitmap size r) (row_jobs r).

Definition row0_bitmap_size (rs : list part_row_data) : Z :=
  match rs with
  | r :: _ => bit_size (the_bits (first_row_bitmap r))
  | [] => 0
  end.

(** The master job list entry of one resident job. *)
Definition support_of (store : gmap ptr job_resources) (j : option ptr)
    : sort_support :=
  let job := deref store j in
  mk_sort_support
    (cr_get_coremap_offset (bit_ffs (the_bits (node_bitmap job)))
     + bit_ffs (the_bits (core_bitmap job)))
    j.

Definition gather_jobs (store : gmap ptr job_resources)
    (rs : list part_row_data) : list sort_support :=
  concat (map (fun r => map (support_of store) (row_jobs r)) rs).

(** A row once its jobs moved to the master list: the used slots of the
    job list are null, the count is zero and the bitmap is cleared. *)
Definition emptied_row (size : Z) (r : part_row_data) : part_row_data :=
  mk_part_row_data ((fun b => bit_nclear b 0 (size - 1)) <$> first_row_bitmap r)
    0%nat
    (replicate (length (row_jobs r)) None ++ drop (num_jobs r) (job_list r)).

(** The first row the job fits in receives it. *)
Fixpoint place_job (store : gmap ptr job_resources) (job : option ptr)
    (rs : list part_row_data) : option (list part_row_data) :=
  match rs with
  | [] => None
  | r :: rs' =>
      if _can_job_fit_in_row (deref store job) r =? 0
      then (fun t => r :: t) <$> place_job store job rs'
      else Some (match job with
                 | Some a => common_add_job_to_row store a r
                 | None => r
                 end :: rs')
  end.

(** The loop that adds the sorted jobs to the rows; a placed job leaves a
    null entry in the master list, a dangling job stays in it. *)
Fixpoint pack_jobs (store : gmap ptr job_resources) (ss : list sort_support)
    (rs : list part_row_data) : list sort_support * list part_row_data :=
  match ss with
  | [] => ([], rs)
  | s :: ss' =>
      let '(s1, rs1) :=
        match place_job store (tmpjobs s) rs with
        | Some rs' => (mk_sort_support (jstart s) None, rs')
        | None => (s, rs)
        end in
      let '(ss2, rs2) := pack_jobs store ss' (common_sort_part_rows rs1) in
      (s1 :: ss2, rs2)
  end.

Definition has_dangling (ss : list sort_support) : bool :=
  existsb (fun s => negb (is_null (tmpjobs s))) ss.

(** The packing of a partition of several rows that holds jobs. *)
Definition repack_rows (store : gmap ptr job_resources)
    (rs : list part_row_data) : list part_row_data :=
  let orig_row := common_dup_row_data rs in
  let size := row0_bitmap_size rs in
  let ss := qsort (_compare_support store) (gather_jobs store rs) in
  let '(ss', rs') := pack_jobs store ss (map (emptied_row size) rs) in
  if has_dangling ss' then map (rebuild_row store size) orig_row else rs'.

Definition total_num_jobs (rs : list part_row_data) : nat :=
  sum_list (map num_jobs rs).

(** [job_ptr] is the resource record of the removed job, when there is
    one. *)
Definition _build_row_bitmaps (store : gmap ptr job_resources)
    (p : part_res_record) (job_ptr : option (option ptr)) : part_res_record :=
  match row p with
  | None => p
  | Some rs =>
      mk_part_res_record (part_ptr p) (Some
        match rs with
        | [this_row] =>
            if (num_jobs this_row =? 0)%nat then
              [clear_row_bitmap (bit_size (the_bits (first_row_bitmap this_row)))
                 this_row]
            else
              match job_ptr with
              | Some job_resrcs =>
                  [mk_part_row_data
                     (remove_job_from_cores (deref store job_resrcs)
                        (first_row_bitmap this_row))
                     (num_jobs this_row) (job_list this_row)]
              | None =>
                  [rebuild_row store
                     (bit_size (the_bits (first_row_bitmap this_row))) this_row]
              end
        | _ =>
            if (total_num_jobs rs =? 0)%nat
            then map (clear_row_bitmap (row0_bitmap_size rs)) rs
            else repack_rows store rs
        end)
  end.

End CoreMap.

(** ** Jobs, node usage and the engine state *)

Record job_details := mk_job_details {
  det_whole_node : Z;
  min_cpus : Z;
  max_cpus : Z;
  min_nodes : Z
}.

(** [struct job_record], the fields this file reads or writes.
    [job_node_bitmap] is the controller's [node_bitmap] of the job and
    [job_suspended] is [IS_JOB_SUSPENDED]. *)
Record job_record := mk_job_record {
  job_id : Z;
  job_resrcs : option ptr;
  job_node_bitmap : option bitstr;
  job_part_ptr : option nat;
  job_suspended : bool;
  total_cpus : Z;
  cpu_cnt : Z;
  total_nodes : Z;
  node_cnt : Z;
  details : job_details
}.

Record node_use_record := mk_node_use_record {
  alloc_memory : Z;
  node_state : Z
}.

Record select_nodeinfo := mk_select_nodeinfo {
  ni_alloc_cpus : Z;
  ni_alloc_memory : Z;
  tres_alloc_cpu : Z;
  tres_alloc_mem : Z
}.

Record config_record := mk_config_record {
  cfg_cpus : Z;
  cfg_threads : Z
}.

Record node_record := mk_node_record {
  nd_cpus : Z;
  nd_threads : Z;
  config_ptr : config_record;
  nd_select_nodeinfo : option select_nodeinfo
}.

Record node_res_record := mk_node_res_record {
  res_cpus : Z
}.

(** What [error] and [info] are called with. *)
Inductive log_entry :=
  | LogMergeWithSelf (id : Z)
  | LogLacksJobResources (id : Z)
  | LogNoJobResrcsInfo (id : Z)
  | LogRemoveNodeAgain (id : Z)
  | LogMemoryUnderallocated (node : Z) (alloc want : Z)
  | LogNoPartitionAssigned (id : Z)
  | LogCouldNotFindPart (id : Z)
  | LogCouldNotFindJob (id : Z)
  | LogNodeStateMiscount
  | LogNoNodeinfo
  | LogResvNotSatisfied.

(** The global state of the plugin: [select_part_record] (the linked list
    of partitions), [select_node_usage], the node tables, the job resource
    records the rows refer to, and the messages logged so far. *)
Record engine := mk_engine {
  select_part_record : list part_res_record;
  select_node_usage : list node_use_record;
  node_record_table : list node_record;
  select_node_record : option (list node_res_record);
  resrcs : gmap ptr job_resources;
  last_set_all : Z;
  errlog : list log_entry
}.

Definition log (e : engine) (m : log_entry) : engine :=
  mk_engine (select_part_record e) (select_node_usage e) (node_record_table e)
    (select_node_record e) (resrcs e) (last_set_all e) (errlog e ++ [m]).

Definition set_parts (e : engine) (ps : list part_res_record) : engine :=
  mk_engine ps (select_node_usage e) (node_record_table e)
    (select_node_record e) (resrcs e) (last_set_all e) (errlog e).

Definition set_usage (e : engine) (us : list node_use_record) : engine :=
  mk_engine (select_part_record e) us (node_record_table e)
    (select_node_record e) (resrcs e) (last_set_all e) (errlog e).

Definition set_resrcs (e : engine) (m : gmap ptr job_resources) : engine :=
  mk_engine (select_part_record e) (select_node_usage e) (node_record_table e)
    (select_node_record e) m (last_set_all e) (errlog e).

(** Unsigned C arithmetic. *)
Definition u16 (x : Z) : Z := x mod 65536.
Definition u32 (x : Z) : Z := x mod 4294967296.
Definition u64 (x : Z) : Z := x mod 18446744073709551616.

(** [a[i]] on an array of numbers; the model reads 0 past the end. *)
Definition znth (l : list Z) (i : Z) : Z :=
  if i <? 0 then 0 else default 0 (l !! Z.to_nat i).

Definition zset (l : list Z) (i : Z) (v : Z) : list Z :=
  if i <? 0 then l else <[Z.to_nat i := v]> l.

Section Lifecycle.

Variable cr_node_num_cores : list nat.

(** [common_rm_job_res] and [common_add_job_to_res] belong to the shared
    common module; they take and return the engine state. *)
Variable common_rm_job_res : engine -> job_record -> Z -> bool -> Z * engine.
Variable common_add_job_to_res : engine -> job_record -> Z -> Z * engine.

(** *** The packed layout of a job

    The core bitmap of a job is packed: the cores of its node of rank
    [rank] start where the cores of its earlier nodes end. *)
Fixpoint node_slice (nb : bitstr) (cores : list nat) (rank : nat)
    (bit_inx : Z) : Z * nat :=
  match nb, cores with
  | sel :: nb', c :: cores' =>
      if sel then
        match rank with
        | O => (bit_inx, c)
        | S rank' => node_slice nb' cores' rank' (bit_inx + Z.of_nat c)
        end
      else node_slice nb' cores' rank bit_inx
  | _, _ => (bit_inx, 0%nat)
  end.

Definition job_node_slice (job : job_resources) (rank : Z) : Z * nat :=
  node_slice (the_bits (node_bitmap job)) cr_node_num_cores (Z.to_nat rank) 0.

Fixpoint nth_set_bit (nb : bitstr) (rank : nat) (k : Z) : Z :=
  match nb with
  | [] => -1
  | x :: nb' =>
      if x then
        match rank with
        | O => k
        | S rank' => nth_set_bit nb' rank' (k + 1)
        end
      else nth_set_bit nb' rank (k + 1)
  end.

(** Modelled from the spec: [count_job_resources_node] lives in
    job_resources.c; section 4.5 uses it to recount the actual cores of a
    job on one of its nodes. *)
Definition count_job_resources_node (job : job_resources) (rank : Z) : Z :=
  let '(off, cnt) := job_node_slice job rank in
  bit_set_count_range (the_bits (core_bitmap job)) off (off + Z.of_nat cnt).

(** Modelled from the spec: [job_resources_bits_copy] lives in
    job_resources.c; section 4.5, step 4: the core bits of one node of a
    job are copied (ORed) into the bits of a node of the new record. *)
Definition job_resources_bits_copy (new_job : job_resources) (new_node_offset : Z)
    (from_job : job_resources) (from_node_offset : Z) : job_resources :=
  let '(new_inx, _) := job_node_slice new_job new_node_offset in
  let '(from_inx, cnt) := job_node_slice from_job from_node_offset in
  let cb :=
    foldl (fun b i =>
             if bit_test (the_bits (core_bitmap from_job)) (from_inx + i)
             then bit_set b (new_inx + i) else b)
          (the_bits (core_bitmap new_job)) (seqZ' 0 cnt) in
  mk_job_resources (Some cb) (core_bitmap_used new_job) (cpus new_job)
    (cpus_used new_job) (memory_allocated new_job) (memory_used new_job)
    (ncpus new_job) (nhosts new_job) (node_bitmap new_job)
    (node_req new_job) (whole_node new_job).

(** Modelled from the spec: [extract_job_resources_node] lives in
    job_resources.c; section 4.5: it drops the entries of the rank from
    the per-node arrays, takes its bits out of the packed core_bitmap,
    clears its bit in node_bitmap and decrements nhosts. *)
Definition extract_job_resources_node (job : job_resources) (rank : Z)
    : job_resources :=
  let '(off, cnt) := job_node_slice job rank in
  let r := Z.to_nat rank in
  mk_job_resources
    ((fun b => take (Z.to_nat off) b ++ drop (Z.to_nat off + cnt) b)
       <$> core_bitmap job)
    (core_bitmap_used job)
    (delete r <$> cpus job)
    (delete r (cpus_used job))
    (delete r (memory_allocated job))
    (delete r (memory_used job))
    (ncpus job)
    (nhosts job - 1)
    ((fun b => bit_clear b (nth_set_bit b r 0)) <$> node_bitmap job)
    (node_req job)
    (whole_node job).

(** *** [_rm_job_from_one_node] *)

(** The loop that walks the nodes of the job up to [node_inx]: [n] counts
    the nodes of the job met before it. *)
Fixpoint find_node_rank (nb : bitstr) (node_inx : Z) (inxs : list Z) (n : Z)
    : option Z :=
  match inxs with
  | [] => None
  | i :: inxs' =>
      if negb (bit_test nb i) then find_node_rank nb node_inx inxs' n
      else if negb (i =? node_inx) then find_node_rank nb node_inx inxs' (n + 1)
      else Some n
  end.

Definition node_usage_at (e : engine) (i : Z) : node_use_record :=
  if i <? 0 then mk_node_use_record 0 0
  else default (mk_node_use_record 0 0) (select_node_usage e !! Z.to_nat i).

Definition set_node_usage_at (e : engine) (i : Z) (u : node_use_record) : engine :=
  if i <? 0 then e
  else set_usage e (<[Z.to_nat i := u]> (select_node_usage e)).

(** The job is looked for in every row of the partition. *)
Definition job_in_rows (job : ptr) (rs : list part_row_data) : bool :=
  existsb (fun r => existsb (fun j => bool_decide (j = Some job)) (row_jobs r)) rs.

Fixpoint replace_part (pp : nat) (p' : part_res_record)
    (ps : list part_res_record) : list part_res_record :=
  match ps with
  | [] => []
  | p :: ps' =>
      if (part_ptr p =? pp)%nat then p' :: ps' else p :: replace_part pp p' ps'
  end.

(** The body run for the node that leaves the job: memory is subtracted
    and the node is taken out of the job resources. *)
Definition subtract_memory (e : engine) (job_ptr : job_record) (a : ptr)
    (i n : Z) : engine :=
  let job := deref (resrcs e) (Some a) in
  let u := node_usage_at e i in
  let want := znth (memory_allocated job) n in
  let e1 :=
    if alloc_memory u <? want then
      set_node_usage_at
        (log e (LogMemoryUnderallocated i (alloc_memory u) want))
        i (mk_node_use_record 0 (node_state u))
    else
      set_node_usage_at e i
        (mk_node_use_record (alloc_memory u - want) (node_state u)) in
  set_resrcs e1 (<[a := extract_job_resources_node job n]> (resrcs e1)).

(** The adjustment of [node_state] that ends the function. *)
Definition adjust_node_state (e : engine) (job : job_resources) (node_inx : Z)
    : engine :=
  let u := node_usage_at e node_inx in
  if node_state u >=? node_req job then
    set_node_usage_at e node_inx
      (mk_node_use_record (alloc_memory u) (node_state u - node_req job))
  else
    set_node_usage_at (log e LogNodeStateMiscount) node_inx
      (mk_node_use_record (alloc_memory u) NODE_CR_AVAILABLE).

(** What follows the memory loop. *)
Definition rebuild_after_node_removal (e : engine) (job_ptr : job_record)
    (a : ptr) (node_inx : Z) : Z * engine :=
  if job_suspended job_ptr then (SLURM_SUCCESS, e)
  else
    match job_part_ptr job_ptr with
    | None => (SLURM_ERROR, log e (LogNoPartitionAssigned (job_id job_ptr)))
    | Some pp =>
        match find (fun p => bool_decide (part_ptr p = pp)) (select_part_record e) with
        | None => (SLURM_ERROR, log e (LogCouldNotFindPart (job_id job_ptr)))
        | Some p =>
            match row p with
            | None => (SLURM_SUCCESS, e)
            | Some rs =>
                if job_in_rows a rs then
                  let p' := _build_row_bitmaps cr_node_num_cores (resrcs e) p None in
                  let e1 := set_parts e (replace_part pp p' (select_part_record e)) in
                  (SLURM_SUCCESS,
                   adjust_node_state e1 (deref (resrcs e1) (Some a)) node_inx)
                else (SLURM_ERROR, log e (LogCouldNotFindJob (job_id job_ptr)))
            end
        end
    end.

(** [node_inx] is [node_ptr - node_record_table_ptr]. *)
Definition _rm_job_from_one_node (e : engine) (job_ptr : job_record)
    (node_inx : Z) : Z * engine :=
  match job_resrcs job_ptr with
  | None => (SLURM_ERROR, log e (LogNoJobResrcsInfo (job_id job_ptr)))
  | Some a =>
      let job := deref (resrcs e) (Some a) in
      match core_bitmap job with
      | None => (SLURM_ERROR, log e (LogNoJobResrcsInfo (job_id job_ptr)))
      | Some _ =>
          let nb := the_bits (node_bitmap job) in
          match find_node_rank nb node_inx
                  (range_incl (bit_ffs nb) (bit_fls nb)) 0 with
          | Some n =>
              if znth (default [] (cpus job)) n =? 0 then
                (SLURM_SUCCESS, log e (LogRemoveNodeAgain (job_id job_ptr)))
              else
                rebuild_after_node_removal
                  (subtract_memory e job_ptr a node_inx n) job_ptr a node_inx
          | None => rebuild_after_node_removal e job_ptr a node_inx
          end
      end
  end.

(** *** [_job_expand] *)

Definition with_cpus (j : job_resources) (v : list Z) : job_resources :=
  mk_job_resources (core_bitmap j) (core_bitmap_used j) (Some v) (cpus_used j)
    (memory_allocated j) (memory_used j) (ncpus j) (nhosts j) (node_bitmap j)
    (node_req j) (whole_node j).

Definition with_cpus_used (j : job_resources) (v : list Z) : job_resources :=
  mk_job_resources (core_bitmap j) (core_bitmap_used j) (cpus j) v
    (memory_allocated j) (memory_used j) (ncpus j) (nhosts j) (node_bitmap j)
    (node_req j) (whole_node j).

Definition with_memory_allocated (j : job_resources) (v : list Z) : job_resources :=
  mk_job_resources (core_bitmap j) (core_bitmap_used j) (cpus j) (cpus_used j)
    v (memory_used j) (ncpus j) (nhosts j) (node_bitmap j)
    (node_req j) (whole_node j).

Definition with_memory_used (j : job_resources) (v : list Z) : job_resources :=
  mk_job_resources (core_bitmap j) (core_bitmap_used j) (cpus j) (cpus_used j)
    (memory_allocated j) v (ncpus j) (nhosts j) (node_bitmap j)
    (node_req j) (whole_node j).

Definition the_cpus (j : job_resources) : list Z := default [] (cpus j).

Definition _create_job_resources (node_cnt : Z) : job_resources :=
  let zeros := replicate (Z.to_nat node_cnt) 0 in
  mk_job_resources None None (Some zeros) zeros zeros zeros 0 node_cnt None 0 0.

Fixpoint selected_cores (nb : bitstr) (cores : list nat) : nat :=
  match nb, cores with
  | sel :: nb', c :: cores' =>
      ((if sel then c else 0) + selected_cores nb' cores')%nat
  | _, _ => 0%nat
  end.

(** Modelled from the spec: [build_job_resources] lives in
    job_resources.c; section 3: the core bitmap of a job has one bit per
    core of each selected node, without gaps. *)
Definition build_job_resources (j : job_resources) : job_resources :=
  mk_job_resources
    (Some (bit_alloc (Z.of_nat
       (selected_cores (the_bits (node_bitmap j)) cr_node_num_cores))))
    (core_bitmap_used j) (cpus j) (cpus_used j) (memory_allocated j)
    (memory_used j) (ncpus j) (nhosts j) (node_bitmap j) (node_req j)
    (whole_node j).

(** The variables the merge loop updates. *)
Record expand_state := mk_expand_state {
  x_from : job_resources;
  x_new : job_resources;
  from_node_offset : Z;
  to_node_offset : Z;
  new_node_offset : Z;
  x_total_cpus : Z
}.

(** The "from" part of one turn of the merge loop. *)
Definition merge_from (fr nw : job_resources) (fo no : Z)
    : job_resources * job_resources :=
  let nw1 := with_cpus nw (zset (the_cpus nw) no (znth (the_cpus fr) fo)) in
  let fr1 := with_cpus fr (zset (the_cpus fr) fo 0) in
  let nw2 := with_memory_allocated nw1
               (zset (memory_allocated nw1) no (znth (memory_allocated fr1) fo)) in
  (fr1, job_resources_bits_copy nw2 no fr1 fo).

(** The "to" part of one turn of the merge loop. *)
Definition merge_to (from_node_used : bool) (fr to nw : job_resources)
    (fo t_o no : Z) : job_resources :=
  let nw1 := with_cpus nw
    (zset (the_cpus nw) no (u16 (znth (the_cpus nw) no + znth (the_cpus to) t_o))) in
  let nw2 := with_cpus_used nw1
    (zset (cpus_used nw1) no (u16 (znth (cpus_used nw1) no + znth (cpus_used to) t_o))) in
  let nw3 := with_memory_allocated nw2
    (zset (memory_allocated nw2) no
       (u64 (znth (memory_allocated nw2) no + znth (memory_allocated to) t_o))) in
  let nw4 := with_memory_used nw3
    (zset (memory_used nw3) no
       (u64 (znth (memory_used nw3) no + znth (memory_used to) t_o))) in
  let nw5 := job_resources_bits_copy nw4 no to t_o in
  if from_node_used then
    let from_core_cnt := count_job_resources_node fr fo in
    let to_core_cnt := count_job_resources_node to t_o in
    let new_core_cnt := count_job_resources_node nw5 no in
    if negb (from_core_cnt + to_core_cnt =? new_core_cnt) then
      let scaled := u16 (znth (the_cpus nw5) no * new_core_cnt) in
      with_cpus nw5
        (zset (the_cpus nw5) no (u16 (scaled / (from_core_cnt + to_core_cnt))))
    else nw5
  else nw5.

(** One turn of the merge loop, for the node [i]. *)
Definition expand_step (e : engine) (from_job to_job : job_record)
    (to : job_resources) (st : expand_state) (i : Z) : expand_state :=
  let in_from := bit_test (the_bits (node_bitmap (x_from st))) i in
  let in_to := bit_test (the_bits (node_bitmap to)) i in
  let from_node_used :=
    in_from && bit_test (the_bits (job_node_bitmap from_job)) i in
  let to_node_used :=
    in_to && bit_test (the_bits (job_node_bitmap to_job)) i in
  let fo := if in_from then from_node_offset st + 1 else from_node_offset st in
  let t_o := if in_to then to_node_offset st + 1 else to_node_offset st in
  if negb from_node_used && negb to_node_used then
    mk_expand_state (x_from st) (x_new st) fo t_o (new_node_offset st)
      (x_total_cpus st)
  else
    let no := new_node_offset st + 1 in
    let '(fr1, nw1) :=
      if from_node_used then merge_from (x_from st) (x_new st) fo no
      else (x_from st, x_new st) in
    let nw2 :=
      if to_node_used then merge_to from_node_used fr1 to nw1 fo t_o no
      else nw1 in
    let add :=
      if det_whole_node (details to_job) =? 1
      then res_cpus (default (mk_node_res_record 0)
                       (default [] (select_node_record e) !! Z.to_nat i))
      else znth (the_cpus nw2) no in
    mk_expand_state fr1 nw2 fo t_o no (u32 (x_total_cpus st + add)).

(** An address no record is stored at. *)
Definition fresh_ptr (m : gmap ptr job_resources) : ptr :=
  S (foldr Nat.max 0%nat (map fst (map_to_list m))).

Definition lacks_job_resources (j : job_resources) : bool :=
  is_null (cpus j) || is_null (core_bitmap j) || is_null (node_bitmap j).

(** The merge itself, entered once both jobs passed the checks; [fa] and
    [ta] are the addresses of their resource records. *)
Definition expand_merge (e : engine) (from_job to_job : job_record)
    (fa ta : ptr) : Z * engine * job_record * job_record :=
  let '(_, e1) := common_rm_job_res e from_job 0 true in
  let '(_, e2) := common_rm_job_res e1 to_job 0 true in
  let fr := deref (resrcs e2) (Some fa) in
  let to0 := deref (resrcs e2) (Some ta) in
  let to :=
    mk_job_resources (core_bitmap to0)
      ((fun b => bit_nclear b 0 (bit_size b - 1)) <$> core_bitmap_used to0)
      (cpus to0) (cpus_used to0) (memory_allocated to0) (memory_used to0)
      (ncpus to0) (nhosts to0) (node_bitmap to0) (node_req to0)
      (whole_node to0) in
  let tmp_bitmap :=
    bit_and
      (bit_or (bit_copy (the_bits (node_bitmap to))) (the_bits (node_bitmap fr)))
      (bit_or (bit_copy (the_bits (job_node_bitmap to_job)))
              (the_bits (job_node_bitmap from_job))) in
  let node_cnt := bit_set_count tmp_bitmap in
  let nw0 := _create_job_resources node_cnt in
  let nw := build_job_resources
    (mk_job_resources (core_bitmap nw0) (core_bitmap_used nw0) (cpus nw0)
       (cpus_used nw0) (memory_allocated nw0) (memory_used nw0)
       (u32 (ncpus fr + ncpus to)) (nhosts nw0) (Some tmp_bitmap)
       (node_req to) (whole_node to)) in
  let first_bit := Z.min (bit_ffs (the_bits (node_bitmap fr)))
                         (bit_ffs (the_bits (node_bitmap to))) in
  let last_bit := Z.max (bit_fls (the_bits (node_bitmap fr)))
                        (bit_fls (the_bits (node_bitmap to))) in
  let st := foldl (expand_step e2 from_job to_job to)
              (mk_expand_state fr nw (-1) (-1) (-1) 0)
              (range_incl first_bit last_bit) in
  let new_job := x_new st in
  let fr1 := x_from st in
  let fr2 :=
    mk_job_resources (core_bitmap fr1) (core_bitmap_used fr1) (cpus fr1)
      (cpus_used fr1) (memory_allocated fr1) (memory_used fr1) 0 0
      ((fun b => bit_nclear b 0 (Z.of_nat (length cr_node_num_cores) - 1))
         <$> node_bitmap fr1)
      (node_req fr1) (whole_node fr1) in
  let na := fresh_ptr (resrcs e2) in
  let e3 := set_resrcs e2 (<[na := new_job]> (<[fa := fr2]> (delete ta (resrcs e2)))) in
  let to_job' :=
    mk_job_record (job_id to_job) (Some na)
      (Some (bit_or (the_bits (job_node_bitmap to_job))
                    (the_bits (job_node_bitmap from_job))))
      (job_part_ptr to_job) (job_suspended to_job)
      (x_total_cpus st) (x_total_cpus st) (nhosts new_job) (nhosts new_job)
      (mk_job_details (det_whole_node (details to_job)) (x_total_cpus st)
         (x_total_cpus st) (min_nodes (details to_job))) in
  let from_job' :=
    mk_job_record (job_id from_job) (job_resrcs from_job)
      ((fun b => bit_nclear b 0 (Z.of_nat (length cr_node_num_cores) - 1))
         <$> job_node_bitmap from_job)
      (job_part_ptr from_job) (job_suspended from_job)
      0 (cpu_cnt from_job) 0 0
      (mk_job_details (det_whole_node (details from_job)) 0 0 0) in
  let '(_, e4) := common_add_job_to_res e3 to_job' 0 in
  (SLURM_SUCCESS, e4, from_job', to_job').

(** Move all resources from one job to another.  The result carries the
    return code, the engine state and the two job records. *)
Definition _job_expand (e : engine) (from_job to_job : job_record)
    : Z * engine * job_record * job_record :=
  if job_id from_job =? job_id to_job then
    (SLURM_ERROR, log e (LogMergeWithSelf (job_id from_job)), from_job, to_job)
  else
    match job_resrcs from_job with
    | None =>
        (SLURM_ERROR, log e (LogLacksJobResources (job_id from_job)),
         from_job, to_job)
    | Some fa =>
        if lacks_job_resources (deref (resrcs e) (Some fa)) then
          (SLURM_ERROR, log e (LogLacksJobResources (job_id from_job)),
           from_job, to_job)
        else
          match job_resrcs to_job with
          | None =>
              (SLURM_ERROR, log e (LogLacksJobResources (job_id to_job)),
               from_job, to_job)
          | Some ta =>
              if lacks_job_resources (deref (resrcs e) (Some ta)) then
                (SLURM_ERROR, log e (LogLacksJobResources (job_id to_job)),
                 from_job, to_job)
              else expand_merge e from_job to_job fa ta
          end
    end.

Definition select_p_job_expand (e : engine) (from_job to_job : job_record)
    : Z * engine * job_record * job_record :=
  _job_expand e from_job to_job.

(** *** [select_p_job_suspend] and [select_p_job_resume] *)

Definition select_p_job_suspend (e : engine) (job_ptr : job_record)
    (indf_susp : bool) : Z * engine :=
  if negb indf_susp then (SLURM_SUCCESS, e)
  else common_rm_job_res e job_ptr 2 false.

Definition select_p_job_resume (e : engine) (job_ptr : job_record)
    (indf_susp : bool) : Z * engine :=
  if negb indf_susp then (SLURM_SUCCESS, e)
  else common_add_job_to_res e job_ptr 2.

End Lifecycle.

(** ** The node-info rollup *)

Section NodeInfo.

Variable cr_node_num_cores : list nat.

(** [slurmctld_conf.fast_schedule] and [last_node_update]. *)
Variable fast_schedule : Z.
Variable last_node_update : Z.

(** The bitmap of all cores allocated to all active jobs: the OR of every
    row bitmap of every partition. *)
Definition or_row_bitmap (acc : option bitstr) (r : part_row_data) : option bitstr :=
  match first_row_bitmap r with
  | None => acc
  | Some b =>
      match acc with
      | None => Some (bit_copy b)
      | Some a => if bit_size a =? bit_size b then Some (bit_or a b) else Some a
      end
  end.

Definition build_alloc_core_bitmap (ps : list part_res_record) : option bitstr :=
  foldl (fun acc p =>
           match row p with
           | None => acc
           | Some rs => foldl or_row_bitmap acc rs
           end) None ps.

(** The 32-bit [alloc_cpus] computed for the node [n]. *)
Definition node_alloc_cpus (alloc_core_bitmap : option bitstr) (n : Z)
    (node_cpus node_threads : Z) : Z :=
  let start := cr_get_coremap_offset cr_node_num_cores n in
  let stop := cr_get_coremap_offset cr_node_num_cores (n + 1) in
  let alloc_cpus :=
    match alloc_core_bitmap with
    | Some b => bit_set_count_range b start stop
    | None => 0
    end in
  let node_cores := u32 (stop - start) in
  let alloc_cpus := if alloc_cpus >? node_cores then node_cores else alloc_cpus in
  if node_cores <? node_cpus then u32 (alloc_cpus * node_threads) else alloc_cpus.

Definition node_cpus_of (nd : node_record) : Z :=
  if negb (fast_schedule =? 0) then cfg_cpus (config_ptr nd) else nd_cpus nd.

Definition node_threads_of (nd : node_record) : Z :=
  if negb (fast_schedule =? 0) then cfg_threads (config_ptr nd) else nd_threads nd.

(** The body of the loop over the nodes. *)
Definition set_nodeinfo (e : engine) (alloc_core_bitmap : option bitstr)
    (n : nat) (nd : node_record) : node_record :=
  match nd_select_nodeinfo nd with
  | None => nd
  | Some _ =>
      let alloc_cpus :=
        node_alloc_cpus alloc_core_bitmap (Z.of_nat n)
          (node_cpus_of nd) (node_threads_of nd) in
      let mem :=
        match select_node_record e with
        | Some _ => alloc_memory (default (mk_node_use_record 0 0)
                                    (select_node_usage e !! n))
        | None => 0
        end in
      mk_node_record (nd_cpus nd) (nd_threads nd) (config_ptr nd)
        (Some (mk_select_nodeinfo (u16 alloc_cpus) mem alloc_cpus mem))
  end.

Definition missing_nodeinfo_log (nds : list node_record) : list log_entry :=
  omap (fun nd => match nd_select_nodeinfo nd with
                  | None => Some LogNoNodeinfo
                  | Some _ => None
                  end) nds.

Definition select_p_select_nodeinfo_set_all (e : engine) : Z * engine :=
  if negb (last_set_all e =? 0) && (last_node_update <? last_set_all e) then
    (SLURM_NO_CHANGE_IN_DATA, e)
  else
    let alloc_core_bitmap := build_alloc_core_bitmap (select_part_record e) in
    (SLURM_SUCCESS,
     mk_engine (select_part_record e) (select_node_usage e)
       (imap (set_nodeinfo e alloc_core_bitmap) (node_record_table e))
       (select_node_record e) (resrcs e) last_node_update
       (errlog e ++ missing_nodeinfo_log (node_record_table e))).

End NodeInfo.

(** ** The reservation planner *)

Record switch_record := mk_switch_record {
  level : Z;
  sw_node_bitmap : bitstr
}.

Record resv_desc_msg := mk_resv_desc_msg {
  core_cnt : option (list Z);
  flags : Z
}.

(** What a planner call leaves behind: the selection it returns (null on
    failure), and the caller's [avail_bitmap] and [*core_bitmap], both of
    which it works on in place. *)
Record resv_result := mk_resv_result {
  selection : option bitstr;
  avail_after : bitstr;
  core_after : option bitstr
}.

(** A [while] loop: [step] returns [inl] to go round again and [inr] to
    leave the loop; [None] when the turns allowed are used up. *)
Fixpoint iterate {S : Type} (fuel : nat) (step : S -> S + S) (s : S) : option S :=
  match fuel with
  | O => None
  | S fuel' =>
      match step s with
      | inl s' => iterate fuel' step s'
      | inr s' => Some s'
      end
  end.

Section Planner.

Variable cr_node_num_cores : list nat.

(** [make_core_bitmap] is the callback of job_test.c called with no core
    specification count: the cores of the given nodes that are not
    specialized cores. *)
Variable make_core_bitmap : bitstr -> bitstr.

(** [switch_record_table] of the controller; null without topology.
    [switch_record_cnt] is the length of the table. *)
Variable switch_record_table : option (list switch_record).

(** The bit [RESERVE_FLAG_FIRST_CORES] of the reservation flags. *)
Variable RESERVE_FLAG_FIRST_CORES : Z.

Local Abbreviation coremap_offset := (cr_get_coremap_offset cr_node_num_cores).
Local Abbreviation num_cores := (node_cores cr_node_num_cores).

(** [core_cnt[i]]: the array ends with a zero entry. *)
Definition cnt_at (core_cnt : list Z) (i : Z) : Z := znth core_cnt i.

(** *** [_make_core_bitmap_filtered] *)
Definition _make_core_bitmap_filtered (node_map : bitstr) (filter : Z) : bitstr :=
  let nodes := bit_size node_map in
  let core_map := bit_alloc (coremap_offset nodes) in
  if filter =? 0 then core_map
  else
    let n_first := bit_ffs node_map in
    let n_last := if n_first =? -1 then -2 else bit_fls node_map in
    foldl (fun cm n =>
             if bit_test node_map n then
               foldl bit_set cm
                 (seqZ' (coremap_offset n)
                    (Z.to_nat (coremap_offset (n + 1) - coremap_offset n)))
             else cm)
          core_map (range_incl n_first n_last).

(** *** [_spec_core_filter]: cores not available become set in
    [*core_bitmap], which is allocated when null. *)
Definition _spec_core_filter (node_bitmap : bitstr) (core_bitmap : option bitstr)
    : bitstr :=
  let spec_core_map := bit_not (make_core_bitmap node_bitmap) in
  match core_bitmap with
  | Some cb => bit_or cb spec_core_map
  | None => spec_core_map
  end.

(** The number of free cores of a node: [count] tells a free core. *)
Definition count_cores (free : Z -> bool) (coff : Z) (local_cores : Z) : Z :=
  Z.of_nat (length (filter (fun i => free (coff + i) = true)
                           (seqZ' 0 (Z.to_nat local_cores)))).

(** *** [_sequential_pick] *)

Record seq_state := mk_seq_state {
  sq_avail : bitstr;
  sq_core : bitstr;
  sq_sel : bitstr;
  total_core_cnt : Z;
  cores_per_node : Z;
  extra_cores_needed : Z;
  node_list_inx : Z
}.

(** The variables of the loop that takes the cores of one node. *)
Record take_state := mk_take_state {
  tk_core : bitstr;
  tk_total : Z;
  tk_in_node : Z;
  tk_extra : Z
}.

(** The loop [for (i = 0; i < local_cores; i++)] that sets the free cores
    of the node until it breaks. *)
Fixpoint take_cores (tmpcore : bitstr) (coff cpn : Z) (inxs : list Z)
    (t : take_state) : take_state :=
  match inxs with
  | [] => t
  | i :: inxs' =>
      if bit_test tmpcore (coff + i) then
        let core := bit_set (tk_core t) (coff + i) in
        let total := tk_total t - 1 in
        let in_node := tk_in_node t + 1 in
        let extra := if in_node >? cpn then u32 (tk_extra t - 1) else tk_extra t in
        let t' := mk_take_state core total in_node extra in
        if (total =? 0) || ((extra =? 0) && (in_node >=? cpn)) then t'
        else take_cores tmpcore coff cpn inxs' t'
      else take_cores tmpcore coff cpn inxs' t
  end.

(** One turn of [while (total_core_cnt)], partial nodes. *)
Definition seq_partial_step (tmpcore : bitstr) (node_cnt : Z)
    (core_cnt : list Z) (s : seq_state) : seq_state + seq_state :=
  if total_core_cnt s =? 0 then inr s
  else
    let cpn := if node_cnt =? 0 then cnt_at core_cnt (node_list_inx s)
               else cores_per_node s in
    let s0 := mk_seq_state (sq_avail s) (sq_core s) (sq_sel s)
                (total_core_cnt s) cpn (extra_cores_needed s) (node_list_inx s) in
    if (node_cnt =? 0) && (cpn =? 0) then inr s0
    else
      let inx := bit_ffs (sq_avail s) in
      if inx <? 0 then inr s0
      else
        let coff := coremap_offset inx in
        let coff2 := coremap_offset (inx + 1) in
        let local_cores := coff2 - coff in
        let avail := bit_clear (sq_avail s) inx in
        let s1 := mk_seq_state avail (sq_core s) (sq_sel s)
                    (total_core_cnt s) cpn (extra_cores_needed s)
                    (node_list_inx s) in
        if local_cores <? cpn then inl s1
        else if count_cores (bit_test tmpcore) coff local_cores <? cpn then inl s1
        else
          let t := take_cores tmpcore coff cpn (seqZ' 0 (Z.to_nat local_cores))
                     (mk_take_state (sq_core s) (total_core_cnt s) 0
                        (extra_cores_needed s)) in
          inl (mk_seq_state avail (tk_core t)
                 (if tk_in_node t =? 0 then sq_sel s else bit_set (sq_sel s) inx)
                 (tk_total t) cpn (tk_extra t) (node_list_inx s + 1)).

(** One turn of [while (node_cnt)], full nodes; the state is the
    available bitmap, the selection and the count left. *)
Definition seq_full_step (s : bitstr * bitstr * Z) : (bitstr * bitstr * Z) + (bitstr * bitstr * Z) :=
  let '(avail, sel, node_cnt) := s in
  if node_cnt =? 0 then inr s
  else
    let inx := bit_ffs avail in
    if inx <? 0 then inr s
    else inl (bit_clear avail inx, bit_set sel inx, node_cnt - 1).

(** The sum of the leading non-zero entries, at most one per node. *)
Fixpoint sum_core_cnt (num_nodes : nat) (core_cnt : list Z) : Z :=
  match num_nodes, core_cnt with
  | S k, c :: core_cnt' => if c =? 0 then 0 else c + sum_core_cnt k core_cnt'
  | _, _ => 0
  end.

(** [total_core_cnt], [cores_per_node] and [extra_cores_needed] as set
    before the loops: from the aggregate count when a node count is given,
    from the per-node counts when the nodes are listed. *)
Definition seq_core_targets (avail_bitmap : bitstr) (node_cnt : Z) (cc : list Z)
    : Z * Z * Z :=
  if negb (node_cnt =? 0) then
    let total := cnt_at cc 0 in
    let cpn := cnt_at cc 0 / Z.max node_cnt 1 in
    (total, cpn, u32 (total - cpn * node_cnt))
  else (sum_core_cnt (popcount avail_bitmap) cc, 0, 0).

(** The result is [None] only if a loop is cut short by [iterate]. *)
Definition _sequential_pick (avail_bitmap : bitstr) (node_cnt : Z)
    (core_cnt : option (list Z)) (core_bitmap : option bitstr)
    : option resv_result :=
  match core_cnt with
  | Some cc =>
      let '(total, cpn, extra) := seq_core_targets avail_bitmap node_cnt cc in
      let sp_avail_bitmap := bit_alloc (bit_size avail_bitmap) in
      let filtered := _spec_core_filter avail_bitmap core_bitmap in
      let tmpcore := bit_not (bit_copy filtered) in
      let cleared := bit_and filtered tmpcore in
      s ← iterate (S (popcount avail_bitmap))
            (seq_partial_step tmpcore node_cnt cc)
            (mk_seq_state avail_bitmap cleared sp_avail_bitmap total cpn extra 0);
      Some (mk_resv_result
              (if negb (total_core_cnt s =? 0) then None else Some (sq_sel s))
              (sq_avail s) (Some (sq_core s)))
  | None =>
      let sp_avail_bitmap := bit_alloc (bit_size avail_bitmap) in
      s ← iterate (S (popcount avail_bitmap)) seq_full_step
            (avail_bitmap, sp_avail_bitmap, node_cnt);
      let '(avail, sel, remaining) := s in
      Some (mk_resv_result (if negb (remaining =? 0) then None else Some sel)
              avail core_bitmap)
  end.

(** *** [_pick_first_cores] *)

Record first_state := mk_first_state {
  fc_avail : bitstr;
  fc_core : bitstr;
  fc_tmpcore : bitstr;
  fc_sel : bitstr;
  node_offset : Z;
  fc_done : bool
}.

(** The loop [for (jnx = 0; jnx < local_cores; jnx++)]: the cores
    [0 .. local_cores - 1] of the node are set one by one until one of
    them is not free; the result is the bitmap and the final [jnx]. *)
Fixpoint mark_first_cores (tmpcore : bitstr) (coff : Z) (jnxs : list Z)
    (core : bitstr) (jnx : Z) : bitstr * Z :=
  match jnxs with
  | [] => (core, jnx)
  | j :: jnxs' =>
      if negb (bit_test tmpcore (coff + j)) then (core, j)
      else mark_first_cores tmpcore coff jnxs' (bit_set core (coff + j)) (j + 1)
  end.

(** One turn of [for (inx = first_node; inx <= last_node; inx++)];
    [fc_done] is set by the [break]. *)
Definition first_cores_step (core_cnt : list Z) (s : first_state) (inx : Z)
    : first_state :=
  if fc_done s then s
  else
    let coff := coremap_offset inx in
    let coff2 := coremap_offset (inx + 1) in
    let want := cnt_at core_cnt (node_offset s) in
    let avail := bit_clear (fc_avail s) inx in
    let local_cores := if coff2 - coff <? want then -1 else want in
    let '(core, jnx) :=
      mark_first_cores (fc_tmpcore s) coff (seqZ' 0 (Z.to_nat local_cores))
        (fc_core s) 0 in
    if jnx <? want then
      mk_first_state avail core (fc_tmpcore s) (fc_sel s) (node_offset s) false
    else
      let tmpcore :=
        foldl (fun t j => bit_clear t (coff + j)) (fc_tmpcore s)
              (seqZ' want (Z.to_nat (coff2 - coff - want))) in
      mk_first_state avail core tmpcore (bit_set (fc_sel s) inx)
        (node_offset s + 1)
        (cnt_at core_cnt (node_offset s + 1) =? 0).

(** [node_cnt] is a parameter of the C function and is not read by it. *)
Definition _pick_first_cores (avail_bitmap : bitstr) (node_cnt : Z)
    (core_cnt : option (list Z)) (core_bitmap : option bitstr) : resv_result :=
  match core_cnt with
  | None => mk_resv_result None avail_bitmap core_bitmap
  | Some cc =>
      if cnt_at cc 0 =? 0 then mk_resv_result None avail_bitmap core_bitmap
      else
        let sp_avail_bitmap := bit_alloc (bit_size avail_bitmap) in
        let filtered := _spec_core_filter avail_bitmap core_bitmap in
        let tmpcore := bit_not (bit_copy filtered) in
        let cleared := bit_and filtered tmpcore in
        let first_node := bit_ffs avail_bitmap in
        let last_node := if first_node >=? 0 then bit_fls avail_bitmap
                         else first_node - 1 in
        let s := foldl (first_cores_step cc)
                   (mk_first_state avail_bitmap cleared tmpcore sp_avail_bitmap 0 false)
                   (range_incl first_node last_node) in
        mk_resv_result
          (if negb (cnt_at cc (node_offset s) =? 0) then None else Some (fc_sel s))
          (fc_avail s) (Some (fc_core s))
  end.

(** *** [_get_avail_core_in_node]: the count of available cores of the
    node and the in/out [core_bitmap], whose bits for the node are cleared
    when the count is too low. *)
Definition _get_avail_core_in_node (core_bitmap : option bitstr) (node : Z)
    (cores_per_node : Z) : Z * option bitstr :=
  let coff := coremap_offset node in
  let total_cores := num_cores node in
  match core_bitmap with
  | None => (total_cores, None)
  | Some cb =>
      let avail := count_cores (fun p => negb (bit_test cb p)) coff total_cores in
      if avail >=? cores_per_node then (avail, Some cb)
      else (0, Some (bit_nclear cb coff (coff + total_cores - 1)))
  end.

(** *** [select_p_resv_test] *)

(** The entries of the arrays [switches_bitmap], [switches_core_bitmap],
    [switches_cpu_cnt] and [switches_node_cnt] for one switch. *)
Record switch_state := mk_switch_state {
  switches_bitmap : bitstr;
  switches_core_bitmap : bitstr;
  switches_cpu_cnt : Z;
  switches_node_cnt : Z
}.

Definition no_switch : switch_state := mk_switch_state [] [] 0 0.

Definition switch_at (sws : list switch_state) (j : nat) : switch_state :=
  default no_switch (sws !! j).

Definition level_at (tbl : list switch_record) (j : nat) : Z :=
  level (default (mk_switch_record 0 []) (tbl !! j)).

(** The entries of [core_cnt] before its first zero. *)
Fixpoint leading_counts (cc : list Z) : list Z :=
  match cc with
  | [] => []
  | c :: cc' => if c =? 0 then [] else c :: leading_counts cc'
  end.

(** [rem_cores], [cores_per_node] and [aggr_core_cnt] as set before the
    switch arrays are built. *)
Definition resv_core_targets (core_cnt : option (list Z)) (node_cnt : Z)
    : Z * Z * bool :=
  match core_cnt with
  | Some cc =>
      if negb (cnt_at cc 1 =? 0) then
        (foldl Z.add 0 (leading_counts cc),
         match leading_counts cc with
         | [] => 1
         | c0 :: cs => foldl (fun m c => if m >? c then c else m) c0 cs
         end,
         false)
      else (cnt_at cc 0, cnt_at cc 0 / Z.max node_cnt 1, true)
  | None =>
      (0, match cr_node_num_cores with
          | c :: _ => Z.of_nat c
          | [] => 1
          end, false)
  end.

Definition init_switch (avail_bitmap : bitstr) (core_bitmap : option bitstr)
    (sw : switch_record) : switch_state :=
  let nodes := bit_and (bit_copy (sw_node_bitmap sw)) avail_bitmap in
  let cores0 := _make_core_bitmap_filtered nodes 1 in
  let cores := match core_bitmap with
               | Some cb => bit_and_not cores0 cb
               | None => cores0
               end in
  mk_switch_state nodes cores (bit_set_count cores) (bit_set_count nodes).

(** The node [i] is taken out of every switch that holds it. *)
Definition drop_node (i c : Z) (sw : switch_state) : switch_state :=
  if bit_test (switches_bitmap sw) i then
    mk_switch_state (bit_clear (switches_bitmap sw) i) (switches_core_bitmap sw)
      (switches_cpu_cnt sw - c) (switches_node_cnt sw - 1)
  else sw.

(** One node of one switch in "remove nodes with less available cores
    than needed"; the state is [*core_bitmap], the switch arrays and [n]. *)
Definition prune_node (cc : list Z) (aggr_core_cnt : bool) (cpn : Z) (j : nat)
    (st : option bitstr * list switch_state * Z) (i : Z)
    : option bitstr * list switch_state * Z :=
  let '(cb, sws, n) := st in
  if negb (bit_test (switches_bitmap (switch_at sws j)) i) then st
  else
    let '(c, cb') := _get_avail_core_in_node cb i cpn in
    let clear_core :=
      if aggr_core_cnt then c <? cpn else c <? cnt_at cc n in
    let n' :=
      if aggr_core_cnt then n
      else if c <? cnt_at cc n then n
      else if negb (cnt_at cc n =? 0) then n + 1 else n in
    if clear_core then (cb', map (drop_node i c) sws, n')
    else (cb', sws, n').

Definition prune_switch (cc : list Z) (aggr_core_cnt : bool) (cpn : Z)
    (st : option bitstr * list switch_state * Z) (j : nat)
    : option bitstr * list switch_state * Z :=
  let b := switches_bitmap (switch_at (st.1.2) j) in
  let first := bit_ffs b in
  let last := if first >=? 0 then bit_fls b else first - 1 in
  foldl (prune_node cc aggr_core_cnt cpn j) st (range_incl first last).

(** "Determine lowest level switch satisfying request with best fit". *)
Definition best_fit_switch (tbl : list switch_record) (sws : list switch_state)
    (has_core_cnt : bool) (rem_nodes rem_cores : Z) : Z :=
  foldl (fun best_fit_inx j =>
           let sw := switch_at sws j in
           if (switches_node_cnt sw <? rem_nodes)
              || (has_core_cnt && (switches_cpu_cnt sw <? rem_cores))
           then best_fit_inx
           else if (best_fit_inx =? -1)
                || (level_at tbl j <? level_at tbl (Z.to_nat best_fit_inx))
                || ((level_at tbl j =? level_at tbl (Z.to_nat best_fit_inx))
                    && (switches_node_cnt sw
                        <? switches_node_cnt (switch_at sws (Z.to_nat best_fit_inx))))
           then Z.of_nat j else best_fit_inx)
        (-1) (seq 0 (length sws)).

(** "Identify usable leafs (within higher switch having best fit)". *)
Definition usable_leafs (tbl : list switch_record) (sws : list switch_state)
    (best_fit_inx : Z) : list switch_state :=
  imap (fun j sw =>
          if negb (level_at tbl j =? 0)
             || negb (bit_super_set (switches_bitmap sw)
                        (switches_bitmap (switch_at sws (Z.to_nat best_fit_inx))))
          then mk_switch_state (switches_bitmap sw) (switches_core_bitmap sw)
                 (switches_cpu_cnt sw) 0
          else sw) sws.

Record leaf_state := mk_leaf_state {
  lf_switches : list switch_state;
  avail_nodes_bitmap : bitstr;
  rem_nodes : Z;
  rem_cores : Z;
  best_fit_location : nat
}.

(** The choice of the next leaf: [best_fit_nodes], [best_fit_location]
    and [best_fit_sufficient]. *)
Definition choose_leaf (has_core_cnt : bool) (s : leaf_state) : Z * nat * bool :=
  foldl (fun acc j =>
           let '(best_fit_nodes, loc, best_fit_sufficient) := acc in
           let sw := switch_at (lf_switches s) j in
           if switches_node_cnt sw =? 0 then acc
           else
             let sufficient :=
               if has_core_cnt then
                 (switches_node_cnt sw >=? rem_nodes s)
                 && (switches_cpu_cnt sw >=? rem_cores s)
               else switches_node_cnt sw >=? rem_nodes s in
             if (best_fit_nodes =? 0)
                || (sufficient && negb best_fit_sufficient)
                || (sufficient && (switches_node_cnt sw <? best_fit_nodes))
                || (negb sufficient && (switches_node_cnt sw >? best_fit_nodes))
             then (switches_node_cnt sw, j, sufficient)
             else acc)
        (0, best_fit_location s, false) (seq 0 (length (lf_switches s))).

(** One node of the chosen leaf; the flag records the [break]. *)
Definition use_leaf_node (core_bitmap : option bitstr) (cpn : Z) (loc : nat)
    (st : leaf_state * bool) (i : Z) : leaf_state * bool :=
  let '(s, broke) := st in
  if broke then st
  else
    let sw := switch_at (lf_switches s) loc in
    if negb (bit_test (switches_bitmap sw) i) then st
    else
      let sw' := mk_switch_state (bit_clear (switches_bitmap sw) i)
                   (switches_core_bitmap sw) (switches_cpu_cnt sw)
                   (switches_node_cnt sw - 1) in
      let sws := <[loc := sw']> (lf_switches s) in
      let s1 := mk_leaf_state sws (avail_nodes_bitmap s) (rem_nodes s)
                  (rem_cores s) loc in
      if bit_test (avail_nodes_bitmap s) i then (s1, false)
      else
        let avail_cores_in_node :=
          match core_bitmap with
          | Some cb =>
              count_cores (fun p => negb (bit_test cb p)) (coremap_offset i)
                (num_cores i)
          | None => 0
          end in
        if negb (is_null core_bitmap) && (avail_cores_in_node <? cpn)
        then (s1, false)
        else
          (mk_leaf_state sws (bit_set (avail_nodes_bitmap s) i)
             (rem_nodes s - 1) (rem_cores s - avail_cores_in_node) loc,
           rem_nodes s - 1 <=? 0).

(** One turn of [while (rem_nodes > 0)]. *)
Definition leaf_step (has_core_cnt : bool) (core_bitmap : option bitstr)
    (cpn : Z) (s : leaf_state) : leaf_state + leaf_state :=
  if negb (rem_nodes s >? 0) then inr s
  else
    let '(best_fit_nodes, loc, _) := choose_leaf has_core_cnt s in
    let s0 := mk_leaf_state (lf_switches s) (avail_nodes_bitmap s)
                (rem_nodes s) (rem_cores s) loc in
    if best_fit_nodes =? 0 then inr s0
    else
      let b := switches_bitmap (switch_at (lf_switches s) loc) in
      let first := bit_ffs b in
      let last := if first >=? 0 then bit_fls b else first - 1 in
      let s1 := (foldl (use_leaf_node core_bitmap cpn loc) (s0, false)
                   (range_incl first last)).1 in
      let sw := switch_at (lf_switches s1) loc in
      inl (mk_leaf_state
             (<[loc := mk_switch_state (switches_bitmap sw)
                         (switches_core_bitmap sw) (switches_cpu_cnt sw) 0]>
                (lf_switches s1))
             (avail_nodes_bitmap s1) (rem_nodes s1) (rem_cores s1) loc).

(** The variables of the loop that picks the cores on the nodes chosen
    through the topology. *)
Record core_state := mk_core_state {
  cs_avail_nodes : bitstr;
  cs_sel : bitstr;
  cs_core : bitstr;
  exc_core_bitmap : bitstr;
  cs_rem_cores : Z;
  prev_rem_cores : Z;
  cs_cores_per_node : Z;
  cs_n : Z
}.

Record pick_state := mk_pick_state {
  pk_core : bitstr;
  pk_exc : bitstr;
  pk_rem : Z;
  pk_in_node : Z
}.

(** The loop [for (i = 0; i < cr_node_num_cores[inx]; i++)] that picks
    the cores of one node. *)
Fixpoint pick_cores (coff limit : Z) (inxs : list Z) (t : pick_state) : pick_state :=
  match inxs with
  | [] => t
  | i :: inxs' =>
      let t' :=
        if negb (bit_test (pk_exc t) (coff + i)) then
          mk_pick_state (bit_set (pk_core t) (coff + i))
            (bit_set (pk_exc t) (coff + i)) (pk_rem t - 1) (pk_in_node t + 1)
        else t in
      if pk_rem t' =? 0 then t'
      else if pk_in_node t' >=? limit then t'
      else pick_cores coff limit inxs' t'
  end.

(** One turn of [while (rem_cores)]. *)
Definition core_step (cc : list Z) (aggr_core_cnt : bool) (s : core_state)
    : core_state + core_state :=
  if cs_rem_cores s =? 0 then inr s
  else
    let inx0 := bit_ffs (cs_avail_nodes s) in
    let again := (inx0 <? 0) && aggr_core_cnt && (cs_rem_cores s >? 0)
                 && negb (cs_rem_cores s =? prev_rem_cores s) in
    let avail := if again then bit_or (cs_avail_nodes s) (cs_sel s)
                 else cs_avail_nodes s in
    let inx := if again then bit_ffs avail else inx0 in
    let prev := if again then cs_rem_cores s else prev_rem_cores s in
    let cpn := if again then 1 else cs_cores_per_node s in
    let s0 := mk_core_state avail (cs_sel s) (cs_core s) (exc_core_bitmap s)
                (cs_rem_cores s) prev cpn (cs_n s) in
    if inx <? 0 then inr s0
    else
      let coff := coremap_offset inx in
      let s1 := mk_core_state (bit_clear avail inx) (cs_sel s) (cs_core s)
                  (exc_core_bitmap s) (cs_rem_cores s) prev cpn (cs_n s) in
      if num_cores inx <? cpn then inl s1
      else if count_cores (fun p => negb (bit_test (exc_core_bitmap s) p))
                coff (num_cores inx) <? cpn then inl s1
      else
        let t := pick_cores coff
                   (if aggr_core_cnt then cpn else cnt_at cc (cs_n s))
                   (seqZ' 0 (Z.to_nat (num_cores inx)))
                   (mk_pick_state (cs_core s) (exc_core_bitmap s)
                      (cs_rem_cores s) 0) in
        inl (mk_core_state (bit_clear avail inx) (bit_set (cs_sel s) inx)
               (pk_core t) (pk_exc t) (pk_rem t) prev cpn (cs_n s + 1)).

(** The turns [while (rem_cores)] may need: one pass over the nodes for
    each value [rem_cores] can take, and one more to leave the loop. *)
Definition core_fuel (s : core_state) : nat :=
  S ((2 * Z.to_nat (cs_rem_cores s) + 2) * S (length (cs_avail_nodes s))).

(** "Reservation is using partial nodes": the cores are picked on the
    nodes of [avail_nodes]. *)
Definition pick_topology_cores (avail_bitmap avail_nodes : bitstr) (cc : list Z)
    (aggr_core_cnt : bool) (cpn rem_cores_save : Z) (core_bitmap : option bitstr)
    : option resv_result :=
  let sp_avail_bitmap := bit_alloc (bit_size avail_bitmap) in
  let exc := the_bits core_bitmap in
  let s0 := mk_core_state avail_nodes sp_avail_bitmap
              (bit_alloc (bit_size exc)) exc rem_cores_save (-1) cpn 0 in
  s ← iterate (core_fuel s0) (core_step cc aggr_core_cnt) s0;
  Some (mk_resv_result
          (if negb (cs_rem_cores s =? 0) then None else Some (cs_sel s))
          avail_bitmap
          ((fun _ => cs_core s) <$> core_bitmap)).

(** The part of [select_p_resv_test] that uses the topology. *)
Definition resv_topology (tbl : list switch_record) (avail_bitmap : bitstr)
    (node_cnt : Z) (core_cnt : option (list Z)) (core_bitmap : option bitstr)
    : option resv_result :=
  if bit_set_count avail_bitmap <? node_cnt then
    Some (mk_resv_result None avail_bitmap core_bitmap)
  else
    let cb0 := match core_cnt with
               | Some _ => Some (_spec_core_filter avail_bitmap core_bitmap)
               | None => core_bitmap
               end in
    let '(rem_cores0, cpn, aggr_core_cnt) := resv_core_targets core_cnt node_cnt in
    let rem_cores_save := u32 rem_cores0 in
    let sws0 := map (init_switch avail_bitmap cb0) tbl in
    let '(cb1, sws1, _) :=
      match core_cnt with
      | Some cc =>
          foldl (prune_switch cc aggr_core_cnt cpn) (cb0, sws0, 0)
                (seq 0 (length sws0))
      | None => (cb0, sws0, 0)
      end in
    let best_fit_inx :=
      best_fit_switch tbl sws1 (negb (is_null core_cnt)) node_cnt rem_cores0 in
    if best_fit_inx =? -1 then Some (mk_resv_result None avail_bitmap cb1)
    else
      let sws2 := usable_leafs tbl sws1 best_fit_inx in
      lf ← iterate (S (length sws2))
             (leaf_step (negb (is_null core_cnt)) cb1 cpn)
             (mk_leaf_state sws2
                (bit_alloc (Z.of_nat (length cr_node_num_cores)))
                node_cnt rem_cores0 0);
      if (rem_nodes lf >? 0) || (rem_cores lf >? 0) then
        Some (mk_resv_result None avail_bitmap cb1)
      else
        match core_cnt with
        | Some cc =>
            pick_topology_cores avail_bitmap (avail_nodes_bitmap lf) cc
              aggr_core_cnt cpn rem_cores_save cb1
        | None =>
            Some (mk_resv_result (Some (avail_nodes_bitmap lf)) avail_bitmap cb1)
        end.

Definition select_p_resv_test (resv_desc_ptr : resv_desc_msg) (node_cnt : Z)
    (avail_bitmap : bitstr) (core_bitmap : option bitstr) : option resv_result :=
  let core_cnt := core_cnt resv_desc_ptr in
  if negb (Z.land (flags resv_desc_ptr) RESERVE_FLAG_FIRST_CORES =? 0)
     && negb (is_null core_cnt)
  then Some (_pick_first_cores avail_bitmap node_cnt core_cnt core_bitmap)
  else
    match switch_record_table with
    | Some (sw :: tbl) =>
        if node_cnt =? 0
        then _sequential_pick avail_bitmap node_cnt core_cnt core_bitmap
        else resv_topology (sw :: tbl) avail_bitmap node_cnt core_cnt core_bitmap
    | _ => _sequential_pick avail_bitmap node_cnt core_cnt core_bitmap
    end.

End Planner.

(** ** Node configuration and job memory *)

(** [struct node_record], the fields [select_p_update_node_config] reads
    through [node_ptr]; [hw_config_sockets] and [hw_config_cores] are
    [config_ptr->sockets] and [config_ptr->cores]. *)
Record node_hw := mk_node_hw {
  hw_sockets : Z;
  hw_cores : Z;
  hw_real_memory : Z;
  hw_mem_spec_limit : Z;
  hw_config_sockets : Z;
  hw_config_cores : Z
}.

(** [struct node_res_record], the geometry and memory of an entry of
    [select_node_record]; [nr_node_ptr] is the node record the entry points
    at, as it is when the entry is read. *)
Record node_res_config := mk_node_res_config {
  nr_sockets : Z;
  nr_cores : Z;
  nr_real_memory : Z;
  nr_mem_spec_limit : Z;
  nr_node_ptr : node_hw
}.

Definition no_node_res_config : node_res_config :=
  mk_node_res_config 0 0 0 0 (mk_node_hw 0 0 0 0 0 0).

(** What [select_p_update_node_config] calls [error] with. *)
Inductive config_log :=
  | LogIndexTooLarge (index select_node_cnt : Z).

(** *** [select_p_update_node_config]
    The result is the return code, [select_node_record] and the messages
    logged.  An [index] below zero is outside the array: it is read as an
    empty entry and the write is dropped. *)
Definition select_p_update_node_config (select_fast_schedule select_node_cnt : Z)
    (select_node_record : list node_res_config) (index : Z)
    : Z * list node_res_config * list config_log :=
  if index >=? select_node_cnt then
    (SLURM_ERROR, select_node_record, [LogIndexTooLarge index select_node_cnt])
  else if index <? 0 then (SLURM_SUCCESS, select_node_record, [])
  else
    let nr := default no_node_res_config (select_node_record !! Z.to_nat index) in
    let node_ptr := nr_node_ptr nr in
    let nr1 :=
      if (select_fast_schedule =? 1)
         && negb (nr_sockets nr =? hw_config_sockets node_ptr)
         && negb (nr_cores nr =? hw_config_cores node_ptr)
         && (nr_sockets nr * nr_cores nr =? hw_sockets node_ptr * hw_cores node_ptr)
      then mk_node_res_config (hw_config_sockets node_ptr)
             (hw_config_cores node_ptr) (nr_real_memory nr)
             (nr_mem_spec_limit nr) node_ptr
      else nr in
    if negb (select_fast_schedule =? 0) then
      (SLURM_SUCCESS, <[Z.to_nat index := nr1]> select_node_record, [])
    else
      (SLURM_SUCCESS,
       <[Z.to_nat index :=
           mk_node_res_config (nr_sockets nr1) (nr_cores nr1)
             (hw_real_memory node_ptr) (hw_mem_spec_limit node_ptr) node_ptr]>
         select_node_record,
       []).

(** [struct job_resources] and [struct job_record], the fields
    [select_p_job_mem_confirm] reads or writes; [mj_pn_min_memory] is
    [details], null or with its [pn_min_memory]. *)
Record mem_job_resources := mk_mem_job_resources {
  mr_node_bitmap : option bitstr;
  mr_memory_allocated : option (list Z)
}.

Record mem_job_record := mk_mem_job_record {
  mj_bit_flags : Z;
  mj_pn_min_memory : option Z;
  mj_job_resrcs : option mem_job_resources
}.

(** [select_node_record[i].real_memory - select_node_record[i].mem_spec_limit],
    in 64 bits. *)
Definition node_avail_mem (select_node_record : list node_res_config) (i : Z) : Z :=
  let nr := default no_node_res_config (select_node_record !! Z.to_nat i) in
  u64 (nr_real_memory nr - nr_mem_spec_limit nr).

Definition usage_at (us : list node_use_record) (i : Z) : node_use_record :=
  default (mk_node_use_record 0 0) (us !! Z.to_nat i).

(** *** [select_p_job_mem_confirm]
    One turn of the loop over the nodes of the job; the state is
    [memory_allocated], [select_node_usage], [lowest_mem] and [offset]. *)
Definition mem_confirm_step (select_node_record : list node_res_config)
    (nb : bitstr) (st : list Z * list node_use_record * Z * Z) (i : Z)
    : list Z * list node_use_record * Z * Z :=
  let '(ma, us, lowest_mem, offset) := st in
  if negb (bit_test nb i) then st
  else
    let avail_mem := node_avail_mem select_node_record i in
    (zset ma offset avail_mem,
     <[Z.to_nat i := mk_node_use_record avail_mem (node_state (usage_at us i))]> us,
     (if (offset =? 0) || (lowest_mem >? avail_mem) then avail_mem
      else lowest_mem),
     offset + 1).

(** [NODE_MEM_CALC] is the bit of [bit_flags] of that name.  The result is
    the return code, [select_node_usage] and the job. *)
Definition select_p_job_mem_confirm (NODE_MEM_CALC select_fast_schedule : Z)
    (select_node_record : list node_res_config)
    (select_node_usage : list node_use_record) (job_ptr : mem_job_record)
    : Z * list node_use_record * mem_job_record :=
  if (Z.land (mj_bit_flags job_ptr) NODE_MEM_CALC =? 0)
     || negb (select_fast_schedule =? 0)
  then (SLURM_SUCCESS, select_node_usage, job_ptr)
  else
    match mj_pn_min_memory job_ptr, mj_job_resrcs job_ptr with
    | Some _, Some job_resrcs =>
        match mr_node_bitmap job_resrcs, mr_memory_allocated job_resrcs with
        | Some nb, Some ma =>
            let i_first := bit_ffs nb in
            let i_last := if i_first >=? 0 then bit_fls nb else i_first - 1 in
            let '(ma', us', lowest_mem, _) :=
              foldl (mem_confirm_step select_node_record nb)
                    (ma, select_node_usage, 0, 0) (range_incl i_first i_last) in
            (SLURM_SUCCESS, us',
             mk_mem_job_record (mj_bit_flags job_ptr) (Some lowest_mem)
               (Some (mk_mem_job_resources (Some nb) (Some ma'))))
        | _, _ => (SLURM_ERROR, select_node_usage, job_ptr)
        end
    | _, _ => (SLURM_ERROR, select_node_usage, job_ptr)
    end.

(** [struct node_record], the power state of a node: [IS_NODE_POWER_SAVE]
    and [IS_NODE_POWER_UP]. *)
Record node_power := mk_node_power {
  power_save : bool;
  power_up : bool
}.

(** *** [select_p_job_ready]
    The loop over the nodes of the job, left at the first node that is
    powered down or powering up. *)
Fixpoint nodes_powered (nb : bitstr) (node_record_table : list node_power)
    (inxs : list Z) : bool :=
  match inxs with
  | [] => true
  | i :: inxs' =>
      if negb (bit_test nb i) then nodes_powered nb node_record_table inxs'
      else
        let node_ptr := default (mk_node_power false false)
                          (node_record_table !! Z.to_nat i) in
        if power_save node_ptr || power_up node_ptr then false
        else nodes_powered nb node_record_table inxs'
  end.

(** [running] and [suspended] are [IS_JOB_RUNNING] and [IS_JOB_SUSPENDED];
    [node_bitmap] is the node bitmap of the job. *)
Definition select_p_job_ready (READY_NODE_STATE : Z)
    (node_record_table : list node_power) (running suspended : bool)
    (node_bitmap : option bitstr) : Z :=
  if negb running && negb suspended then 0
  else
    match node_bitmap with
    | None => READY_NODE_STATE
    | Some nb =>
        let i_first := bit_ffs nb in
        if i_first =? -1 then READY_NODE_STATE
        else if nodes_powered nb node_record_table
                  (range_incl i_first (bit_fls nb))
        then READY_NODE_STATE else 0
    end.

(** ** Conditions the properties are stated with *)

(** The job has no [job_resources] struct with non-null [cpus],
    [core_bitmap] and [node_bitmap]. *)
Definition job_lacks_resources (e : engine) (j : job_record) : Prop :=
  match job_resrcs j with
  | None => True
  | Some a =>
      let r := deref (resrcs e) (Some a) in
      cpus r = None ∨ core_bitmap r = None ∨ node_bitmap r = None
  end.

(** The occupancy state: partition rows, node usage, node tables and the
    job resource records. *)
Definition same_occupancy (e e' : engine) : Prop :=
  select_part_record e' = select_part_record e
  ∧ select_node_usage e' = select_node_usage e
  ∧ node_record_table e' = node_record_table e
  ∧ select_node_record e' = select_node_record e
  ∧ resrcs e' = resrcs e.

(** The order of the master job list: ascending sort key, and ascending
    [ncpus] among the entries of equal key. *)
Definition support_le (store : gmap ptr job_resources) (a b : sort_support) : Prop :=
  jstart a < jstart b
  ∨ (jstart a = jstart b
     ∧ ncpus (deref store (tmpjobs a)) <= ncpus (deref store (tmpjobs b))).

(** The order with the tie-break by descending [ncpus]. *)
Definition support_le_desc (store : gmap ptr job_resources) (a b : sort_support) : Prop :=
  jstart a < jstart b
  ∨ (jstart a = jstart b
     ∧ ncpus (deref store (tmpjobs b)) <= ncpus (deref store (tmpjobs a))).

(** The sort key of a resident job: the offset of its first node plus its
    first core. *)
Definition first_global_bit (cores : list nat) (job : job_resources) : Z :=
  cr_get_coremap_offset cores (bit_ffs (the_bits (node_bitmap job)))
  + bit_ffs (the_bits (core_bitmap job)).

(** The node [node_inx] leaves the job with its memory: it is the node of
    rank [n] of the job, which still holds cpus on it, and the job was
    allocated more memory on it than the node has allocated. *)
Definition memory_underflow (e : engine) (job_ptr : job_record) (node_inx : Z)
    (a : ptr) (n : Z) : Prop :=
  let job := deref (resrcs e) (Some a) in
  let nb := the_bits (node_bitmap job) in
  job_resrcs job_ptr = Some a
  ∧ core_bitmap job ≠ None
  ∧ find_node_rank nb node_inx (range_incl (bit_ffs nb) (bit_fls nb)) 0 = Some n
  ∧ znth (default [] (cpus job)) n ≠ 0
  ∧ alloc_memory (node_usage_at e node_inx) < znth (memory_allocated job) n.

(** The checks that follow the memory loop let the call through: the job
    is suspended, or its partition is known and either has no rows or holds
    the job in one of them. *)
Definition later_checks_pass (e : engine) (job_ptr : job_record) (a : ptr) : Prop :=
  job_suspended job_ptr = true
  ∨ ∃ pp p, job_part_ptr job_ptr = Some pp
            ∧ find (fun q => bool_decide (part_ptr q = pp)) (select_part_record e)
              = Some p
            ∧ (row p = None ∨ ∃ rs, row p = Some rs ∧ job_in_rows a rs = true).

(** The call gets to the adjustment of [node_state] and the job requires
    more than the node state holds. *)
Definition node_state_underflow (e : engine) (job_ptr : job_record) (node_inx : Z)
    (a : ptr) : Prop :=
  let job := deref (resrcs e) (Some a) in
  let nb := the_bits (node_bitmap job) in
  job_resrcs job_ptr = Some a
  ∧ core_bitmap job ≠ None
  ∧ (∀ n, find_node_rank nb node_inx (range_incl (bit_ffs nb) (bit_fls nb)) 0 = Some n
          → znth (default [] (cpus job)) n ≠ 0)
  ∧ job_suspended job_ptr = false
  ∧ (∃ pp p rs, job_part_ptr job_ptr = Some pp
                ∧ find (fun q => bool_decide (part_ptr q = pp)) (select_part_record e)
                  = Some p
                ∧ row p = Some rs ∧ job_in_rows a rs = true)
  ∧ node_state (node_usage_at e node_inx) < node_req job.





(** The switches that still have nodes to offer. *)
Definition nonzero_switches (sws : list switch_state) : nat :=
  length (filter (fun sw => switches_node_cnt sw ≠ 0) sws).



(** The rank of the node [n] in a selection: the selected nodes below it. *)
Definition node_rank (sel : list bool) (n : Z) : Z :=
  Z.of_nat (popcount (take (Z.to_nat n) sel)).

(** The node [n] has [c] cores at least and its cores [0 .. c - 1] are
    free. *)
Definition first_cores_fit (cores : list nat) (free : list bool) (n c : Z) : Prop :=
  c <= node_cores cores n
  ∧ ∀ j, 0 <= j < c → bit_test free (cr_get_coremap_offset cores n + j) = true.

(** What holds of the variables of [_pick_first_cores] once the nodes
    [first .. i - 1] were walked: [free] are the cores free at the start
    and [nsel] is the size of the node bitmaps. *)
Definition fc_inv (cores : list nat) (cc : list Z) (free : list bool)
    (nsel : nat) (first i : Z) (s : first_state) : Prop :=
  length (fc_sel s) = nsel
  ∧ length (fc_core s) = length free
  ∧ length (fc_tmpcore s) = length free
  ∧ node_offset s = node_rank (fc_sel s) i
  ∧ fc_done s = (cnt_at cc (node_offset s) =? 0)
  ∧ (∀ n, bit_test (fc_sel s) n = true → first <= n < i)
  ∧ (∀ p, cr_get_coremap_offset cores i <= p →
          bit_test (fc_tmpcore s) p = bit_test free p)
  ∧ (∀ p, cr_get_coremap_offset cores i <= p → bit_test (fc_core s) p = false)
  ∧ (∀ n, first <= n < i →
          (bit_test (fc_sel s) n = true ↔
           cnt_at cc (node_rank (fc_sel s) n) ≠ 0
           ∧ first_cores_fit cores free n (cnt_at cc (node_rank (fc_sel s) n))))
  ∧ (∀ n j, bit_test (fc_sel s) n = true → 0 <= j < node_cores cores n →
            bit_test (fc_core s) (cr_get_coremap_offset cores n + j)
            = (j <? cnt_at cc (node_rank (fc_sel s) n))).

(** What holds of the variables of [while (node_cnt)] once the nodes below
    [c] were walked. *)
Definition seq_full_inv (avail_bitmap : list bool) (node_cnt : Z)
    (s : list bool * list bool * Z) : Prop :=
  ∃ c, 0 <= c
       ∧ length s.1.1 = length avail_bitmap
       ∧ length s.1.2 = length avail_bitmap
       ∧ (∀ i, bit_test s.1.1 i = (c <=? i) && bit_test avail_bitmap i)
       ∧ (∀ i, bit_test s.1.2 i = (i <? c) && bit_test avail_bitmap i)
       ∧ s.2 = node_cnt - node_rank avail_bitmap c
       ∧ Z.of_nat (popcount s.1.2) = node_rank avail_bitmap c
       ∧ 0 <= s.2.



(** The node bitmap of the switch [j] of the table. *)
Definition switch_nodes (tbl : list switch_record) (j : nat) : list bool :=
  sw_node_bitmap (default (mk_switch_record 0 []) (tbl !! j)).

(** What holds of the variables of [while (rem_nodes > 0)]: the nodes left
    in a switch are available nodes of the switch, a switch that still
    counts nodes is a leaf, and the nodes picked so far are available nodes
    of leaf switches, as many as were taken off [rem_nodes]. *)
Definition leaf_inv (tbl : list switch_record) (avail_bitmap : list bool)
    (node_record_count : nat) (node_cnt : Z) (s : leaf_state) : Prop :=
  (∀ j sw, lf_switches s !! j = Some sw →
           (∀ i, bit_test (switches_bitmap sw) i = true →
                 bit_test avail_bitmap i = true
                 ∧ bit_test (switch_nodes tbl j) i = true)
           ∧ (switches_node_cnt sw ≠ 0 → level_at tbl j = 0))
  ∧ (∀ i, bit_test (avail_nodes_bitmap s) i = true →
          bit_test avail_bitmap i = true
          ∧ ∃ j, level_at tbl j = 0 ∧ bit_test (switch_nodes tbl j) i = true)
  ∧ Z.of_nat (popcount (avail_nodes_bitmap s)) + rem_nodes s = node_cnt
  ∧ length (avail_nodes_bitmap s) = node_record_count
  ∧ 0 <= rem_nodes s.

(** The node [node_inx] is the node of rank [n] of the job, whose resource
    record is at [a], and the job still holds cpus on it. *)
Definition node_leaves_job (e : engine) (job_ptr : job_record) (node_inx : Z)
    (a : ptr) (n : Z) : Prop :=
  let job := deref (resrcs e) (Some a) in
  let nb := the_bits (node_bitmap job) in
  job_resrcs job_ptr = Some a
  ∧ core_bitmap job ≠ None
  ∧ find_node_rank nb node_inx (range_incl (bit_ffs nb) (bit_fls nb)) 0 = Some n
  ∧ znth (default [] (cpus job)) n ≠ 0.

(** The sum of a per-node array. *)
Definition sum_cpus (l : list Z) : Z := foldr Z.add 0 l.

(** What holds of the variables of the merge loop of [_job_expand]:
    [total_cpus] is the sum of the cpus of the new record, whose entries
    past [new_node_offset] are still zero, and the loop leaves the node
    bitmap and the counts of the new record alone. *)
Definition expand_inv (count_cpus : bool) (nw0 : job_resources)
    (st : expand_state) : Prop :=
  (count_cpus = true →
   x_total_cpus st = u32 (sum_cpus (the_cpus (x_new st))))
  ∧ (∀ k, new_node_offset st < k → znth (the_cpus (x_new st)) k = 0)
  ∧ -1 <= new_node_offset st
  ∧ nhosts (x_new st) = nhosts nw0
  ∧ node_bitmap (x_new st) = node_bitmap nw0
  ∧ ncpus (x_new st) = ncpus nw0.

(** The jobs of the rows of a partition, row after row. *)
Definition resident_jobs (rs : list part_row_data) : list (option nat) :=
  concat (map row_jobs rs).

(** The job list of every row has room for the jobs the row counts. *)
Definition rows_in_bounds (rs : list part_row_data) : Prop :=
  Forall (fun r => (num_jobs r <= length (job_list r))%nat) rs.

(** The entries of the master list that were not placed. *)
Definition left_over (ss : list sort_support) : list (option nat) :=
  List.filter (fun j => negb (is_null j)) (map tmpjobs ss).

(** The bit [q] is set in the bitmap of a row of a partition. *)
Definition allocated_in_row (ps : list part_res_record) (q : Z) : Prop :=
  ∃ p rs r b, In p ps ∧ row p = Some rs ∧ In r rs
              ∧ first_row_bitmap r = Some b ∧ bit_test b q = true.

(** What holds of the variables of the loop of [select_p_job_mem_confirm]
    once the nodes below [c] were walked. *)
Definition mem_confirm_inv (snr : list node_res_config) (nb : list bool)
    (ma0 : list Z) (us0 : list node_use_record) (c : Z)
    (st : list Z * list node_use_record * Z * Z) : Prop :=
  let '(ma, us, lowest_mem, offset) := st in
  offset = node_rank nb c
  ∧ length ma = length ma0
  ∧ length us = length us0
  ∧ (∀ i, 0 <= i < c → bit_test nb i = true →
          usage_at us i
          = mk_node_use_record (node_avail_mem snr i) (node_state (usage_at us0 i))
          ∧ znth ma (node_rank nb i) = node_avail_mem snr i)
  ∧ (∀ i, 0 <= i → c <= i ∨ bit_test nb i = false →
          us !! Z.to_nat i = us0 !! Z.to_nat i)
  ∧ (∀ k, offset <= k → znth ma k = znth ma0 k)
  ∧ (offset = 0 → lowest_mem = 0)
  ∧ (∀ i, 0 <= i < c → bit_test nb i = true → lowest_mem <= node_avail_mem snr i)
  ∧ (0 < offset →
     ∃ i, 0 <= i < c ∧ bit_test nb i = true ∧ lowest_mem = node_avail_mem snr i).

(** ** Example clusters, jobs and partitions *)

(** Four nodes of two cores. *)
Definition four_nodes : list nat := [2; 2; 2; 2]%nat.

(** Four nodes of four cores. *)
Definition four_wide_nodes : list nat := [4; 4; 4; 4]%nat.

(** Two jobs that start on the same core of a one-node cluster, in two rows:
    the job of two cpus in row 0, the job of one cpu in row 1. *)
Definition tie_store : gmap ptr job_resources :=
  <[1%nat := mk_job_resources (Some [true; true]) None (Some [2]) [0] [0] [0] 2 1
               (Some [true]) 0 0]>
  (<[2%nat := mk_job_resources (Some [true; false]) None (Some [1]) [0] [0] [0] 1 1
                (Some [true]) 0 0]> ∅).

Definition tie_rows : list part_row_data :=
  [mk_part_row_data (Some [true; true]) 1 [Some 1%nat];
   mk_part_row_data (Some [true; false]) 1 [Some 2%nat]].

Definition one_node_job : job_resources :=
  mk_job_resources (Some [true; true]) None (Some [2]) [0] [100] [0] 2 1
    (Some [true]) 1 0.

Definition one_node_job_record : job_record :=
  mk_job_record 42 (Some 1%nat) (Some [true]) (Some 0%nat) false 2 2 1 1
    (mk_job_details 0 2 2 1).

(** The node has 40 units of memory allocated, less than the 100 of the
    job, and the job is in no row of its partition. *)
Definition stray_job_engine : engine :=
  mk_engine
    [mk_part_res_record 0 (Some [mk_part_row_data (Some [false; false]) 0 []])]
    [mk_node_use_record 40 1] [] None {[1%nat := one_node_job]} 0 [].

(** The same node with the job in row 0 and a node state of 0, less than
    the [node_req] of the job. *)
Definition miscounted_engine : engine :=
  mk_engine
    [mk_part_res_record 0
       (Some [mk_part_row_data (Some [true; true]) 1 [Some 1%nat]])]
    [mk_node_use_record 40 0] [] None {[1%nat := one_node_job]} 0 [].

(** Two nodes of two cores and two threads per core; one row holds both
    cores of node 0 and one core of node 1. *)
Definition smt_node : node_record :=
  mk_node_record 4 2 (mk_config_record 4 2) (Some (mk_select_nodeinfo 0 0 0 0)).

Definition rollup_engine : engine :=
  mk_engine
    [mk_part_res_record 0
       (Some [mk_part_row_data (Some [true; true; true; false]) 0 []])]
    [mk_node_use_record 100 0; mk_node_use_record 50 0]
    [smt_node; smt_node] (Some [mk_node_res_record 4; mk_node_res_record 4])
    ∅ 0 [].

(** Four jobs on one node of eight cores.  Jobs 1 and 4 are disjoint, jobs 2
    and 3 are disjoint, job 3 shares a core with job 1 and job 4 shares
    cores with jobs 2 and 3. *)
Definition job_on_cores (cb : bitstr) (n : Z) : job_resources :=
  mk_job_resources (Some cb) None (Some [n]) [0] [0] [0] n 1 (Some [true]) 0 0.

Definition pack_store : gmap ptr job_resources :=
  <[1%nat := job_on_cores [true; false; false; false; true; false; false; false] 2]>
  (<[2%nat := job_on_cores [false; true; false; false; false; true; false; false] 2]>
  (<[3%nat := job_on_cores [false; false; true; false; true; false; true; false] 3]>
  (<[4%nat := job_on_cores [false; false; false; true; false; true; true; false] 3]>
   ∅))).

(** Jobs 1 and 4 in row 0 and jobs 2 and 3 in row 1, as they stand once a
    fifth job left row 0. *)
Definition two_full_rows : list part_row_data :=
  [mk_part_row_data (Some [true; false; false; true; true; true; true; false])
     2 [Some 1%nat; Some 4%nat];
   mk_part_row_data (Some [false; true; true; false; true; true; true; false])
     2 [Some 2%nat; Some 3%nat]].

Definition spare_row : part_row_data :=
  mk_part_row_data (Some [false; false; false; false; false; false; false; false])
    0 [].

Definition spread_partition : part_res_record :=
  mk_part_res_record 0 (Some (two_full_rows ++ [spare_row])).


(** Every core of the nodes of the bitmap: [make_core_bitmap] on a cluster
    without specialized cores. *)
Definition every_core (cores : list nat) (node_bitmap : list bool) : list bool :=
  _make_core_bitmap_filtered cores node_bitmap 1.

(** A job with two cpus on each of two nodes of two cores. *)
Definition two_node_job : job_resources :=
  mk_job_resources (Some [true; true; true; true]) None (Some [2; 2]) [0; 0]
    [100; 100] [0; 0] 4 2 (Some [true; true]) 1 0.

Definition two_node_job_record : job_record :=
  mk_job_record 7 (Some 1%nat) (Some [true; true]) (Some 0%nat) false 4 4 2 2
    (mk_job_details 0 4 4 2).

Definition two_node_engine : engine :=
  mk_engine
    [mk_part_res_record 0
       (Some [mk_part_row_data (Some [true; true; true; true]) 1 [Some 1%nat]])]
    [mk_node_use_record 100 1; mk_node_use_record 100 1] [] None
    {[1%nat := two_node_job]} 0 [].

(** Two jobs of a cluster of four nodes of two cores: the first holds the
    two cores of node 0, the second one core of node 1. *)
Definition expand_from_job : job_record :=
  mk_job_record 1 (Some 1%nat) (Some [true; false; false; false]) (Some 0%nat)
    false 2 2 1 1 (mk_job_details 0 2 2 1).

Definition expand_to_job : job_record :=
  mk_job_record 2 (Some 2%nat) (Some [false; true; false; false]) (Some 0%nat)
    false 1 1 1 1 (mk_job_details 0 1 1 1).

Definition expand_engine : engine :=
  mk_engine [] [] [] None
    (<[1%nat := mk_job_resources (Some [true; true]) None (Some [2]) [0] [10] [0]
                  2 1 (Some [true; false; false; false]) 1 0]>
     (<[2%nat := mk_job_resources (Some [true; false]) None (Some [1]) [0] [20] [0]
                   1 1 (Some [false; true; false; false]) 1 0]> ∅))
    0 [].

(** A table of two nodes of which the first was rebooted with another
    geometry and more memory. *)
Definition rebooted_nodes : list node_res_config :=
  [mk_node_res_config 2 8 1000 100 (mk_node_hw 4 4 2000 100 4 4);
   mk_node_res_config 2 8 1500 0 (mk_node_hw 2 8 1500 0 2 8)].

(** A job on both nodes of the table. *)
Definition mem_calc_job : mem_job_record :=
  mk_mem_job_record 64 (Some 0)
    (Some (mk_mem_job_resources (Some [true; true]) (Some [0; 0]))).

(** * Properties *)

(** ** Bit strings: lemmas *)

Lemma bit_test_lookup (b : bitstr) (i : Z) :
  bit_test b i = true ↔ 0 <= i ∧ b !! Z.to_nat i = Some true.
Proof.
  unfold bit_test. destruct (i <? 0) eqn:E.
  - split; [intros H; discriminate H | lia].
  - destruct (b !! Z.to_nat i) as [[|] |]; simpl.
    + split; [intros _; split; [lia | reflexivity] | reflexivity].
    + split; [intros H; discriminate H | intros [_ H]; discriminate H].
    + split; [intros H; discriminate H | intros [_ H]; discriminate H].
Qed.

Lemma bit_test_in_range (b : bitstr) (i : Z) :
  bit_test b i = true → 0 <= i < bit_size b.
Proof.
  intros H. apply bit_test_lookup in H as [H0 H].
  apply lookup_lt_Some in H. unfold bit_size. lia.
Qed.

Lemma length_bit_assign (v : bool) (b : bitstr) (i : Z) :
  length (bit_assign v b i) = length b.
Proof. unfold bit_assign. destruct (i <? 0); [reflexivity | apply length_insert]. Qed.

Lemma bit_test_assign_eq (v : bool) (b : bitstr) (i : Z) :
  0 <= i < bit_size b → bit_test (bit_assign v b i) i = v.
Proof.
  unfold bit_size, bit_test, bit_assign. intros H.
  destruct (i <? 0) eqn:E; [lia |].
  rewrite list_lookup_insert_eq by lia. reflexivity.
Qed.

Lemma bit_test_assign_ne (v : bool) (b : bitstr) (i j : Z) :
  i ≠ j → bit_test (bit_assign v b i) j = bit_test b j.
Proof.
  unfold bit_test, bit_assign. intros H.
  destruct (j <? 0) eqn:Ej; [reflexivity |].
  destruct (i <? 0) eqn:Ei; [reflexivity |].
  rewrite list_lookup_insert_ne by lia. reflexivity.
Qed.

Lemma bit_test_set_inv (b : bitstr) (p q : Z) :
  bit_test (bit_set b p) q = true → q = p ∨ bit_test b q = true.
Proof.
  intros H. destruct (Z.eq_dec p q) as [-> | Hne]; [left; reflexivity |].
  right. unfold bit_set in H. rewrite bit_test_assign_ne in H; assumption.
Qed.

Lemma bit_test_set_mono (b : bitstr) (p q : Z) :
  bit_test b q = true → bit_test (bit_set b p) q = true.
Proof.
  intros H. destruct (Z.eq_dec p q) as [-> | Hne].
  - unfold bit_set. apply bit_test_assign_eq. apply bit_test_in_range, H.
  - unfold bit_set. rewrite bit_test_assign_ne; assumption.
Qed.

Lemma bit_test_clear_inv (b : bitstr) (p q : Z) :
  bit_test (bit_clear b p) q = true → bit_test b q = true ∧ q ≠ p.
Proof.
  intros H. destruct (Z.eq_dec p q) as [-> | Hne].
  - unfold bit_clear in H.
    assert (Hr : 0 <= q < bit_size b).
    { apply bit_test_in_range in H. unfold bit_size in *.
      rewrite length_bit_assign in H. exact H. }
    rewrite bit_test_assign_eq in H by exact Hr. discriminate H.
  - unfold bit_clear in H. rewrite bit_test_assign_ne in H by assumption.
    split; [assumption | congruence].
Qed.

Lemma length_foldl_bit_set (ps : list Z) (b : bitstr) :
  length (foldl bit_set b ps) = length b.
Proof.
  revert b. induction ps as [| p ps IH]; intros b; simpl; [reflexivity |].
  rewrite IH. apply length_bit_assign.
Qed.


Lemma length_bit_nclear (b : bitstr) (start stop : Z) :
  length (bit_nclear b start stop) = length b.
Proof. unfold bit_nclear. apply length_imap. Qed.

Lemma bit_test_nclear (b : bitstr) (start stop i : Z) :
  bit_test (bit_nclear b start stop) i
  = if (start <=? i) && (i <=? stop) then false else bit_test b i.
Proof.
  unfold bit_test, bit_nclear.
  destruct (i <? 0) eqn:E.
  { destruct ((start <=? i) && (i <=? stop)); reflexivity. }
  rewrite list_lookup_imap.
  destruct (b !! Z.to_nat i) as [x |] eqn:Hl; simpl.
  - rewrite Z2Nat.id by lia. destruct ((start <=? i) && (i <=? stop)); reflexivity.
  - destruct ((start <=? i) && (i <=? stop)); reflexivity.
Qed.


Lemma length_bit_map2 (f : bool -> bool -> bool) (b1 b2 : bitstr) :
  length (bit_map2 f b1 b2) = length b1.
Proof. unfold bit_map2. apply length_imap. Qed.

Lemma bit_test_map2 (f : bool -> bool -> bool) (b1 b2 : bitstr) (i : Z) :
  0 <= i < bit_size b1 →
  bit_test (bit_map2 f b1 b2) i = f (bit_test b1 i) (bit_test b2 i).
Proof.
  unfold bit_size, bit_test, bit_map2. intros H.
  destruct (i <? 0) eqn:E; [lia |].
  rewrite list_lookup_imap.
  destruct (lookup_lt_is_Some_2 b1 (Z.to_nat i)) as [x Hx]; [lia |].
  rewrite Hx. reflexivity.
Qed.




(** ** Loops: lemmas *)

Section Iterate.

Context {S : Type} (step : S -> S + S).

(** An invariant kept by every turn holds when the loop is left. *)
Lemma iterate_invariant (P : S → Prop) (fuel : nat) (s r : S) :
  (∀ s s', P s → step s = inl s' → P s') →
  (∀ s s', P s → step s = inr s' → P s') →
  P s → iterate fuel step s = Some r → P r.
Proof.
  intros Hl Hr. revert s.
  induction fuel as [| fuel IH]; intros s Hs Hrun; simpl in Hrun.
  - discriminate Hrun.
  - destruct (step s) as [s' | s'] eqn:E.
    + apply (IH s'); [eapply Hl; eassumption | exact Hrun].
    + injection Hrun as <-. eapply Hr; eassumption.
Qed.

(** The loop is left by a turn that answers [inr]. *)
Lemma iterate_exit (fuel : nat) (s r : S) :
  iterate fuel step s = Some r → ∃ s0, step s0 = inr r.
Proof.
  revert s. induction fuel as [| fuel IH]; intros s Hrun; simpl in Hrun.
  - discriminate Hrun.
  - destruct (step s) as [s' | s'] eqn:E.
    + apply (IH s'), Hrun.
    + injection Hrun as <-. exists s. exact E.
Qed.

(** A loop whose turns decrease a measure is left before the measure
    is used up. *)
Lemma iterate_terminates (P : S → Prop) (m : S → nat) (fuel : nat) (s : S) :
  (∀ s s', P s → step s = inl s' → P s' ∧ (m s' < m s)%nat) →
  P s → (m s < fuel)%nat → ∃ r, iterate fuel step s = Some r.
Proof.
  intros Hdec. revert s.
  induction fuel as [| fuel IH]; intros s Hs Hm; [lia |].
  simpl. destruct (step s) as [s' | s'] eqn:E.
  - destruct (Hdec s s' Hs E) as [Hs' Hlt]. apply IH; [exact Hs' | lia].
  - eexists. reflexivity.
Qed.

End Iterate.

(** ** The empty row always fits *)

(** C8: for every job and every row, the job-fit test returns 1 (the job
    fits) whenever the row is empty, that is when its [num_jobs] is 0 or its
    row bitmap is null. *)
Theorem can_job_fit_in_empty_row (cores : list nat) (job : job_resources)
    (r : part_row_data) :
  num_jobs r = 0%nat ∨ first_row_bitmap r = None →
  _can_job_fit_in_row cores job r = 1.
Proof.
  unfold _can_job_fit_in_row.
  intros [Hn | Hb].
  - rewrite Hn. reflexivity.
  - rewrite Hb. destruct (num_jobs r =? 0)%nat; reflexivity.
Qed.

Lemma can_job_fit_in_empty_row_witness :
  _can_job_fit_in_row [2%nat; 2%nat]
    (mk_job_resources (Some [true; true]) None (Some [2]) [0] [0] [0] 2 1
       (Some [true; false]) 0 0)
    (mk_part_row_data (Some [true; true; false; false]) 0 []) = 1.
Proof.
  apply can_job_fit_in_empty_row. left. reflexivity.
Defined.

(** ** Transient suspend and resume *)

(** C9: for every job, [select_p_job_suspend] and [select_p_job_resume]
    called with [indf_susp] false are no-ops: both return success and leave
    the whole engine state as it was, whatever the routines of the common
    module would do. *)
Theorem job_suspend_resume_transient_noop
    (rm : engine -> job_record -> Z -> bool -> Z * engine)
    (add : engine -> job_record -> Z -> Z * engine)
    (e : engine) (job_ptr : job_record) :
  select_p_job_suspend rm e job_ptr false = (SLURM_SUCCESS, e)
  ∧ select_p_job_resume add e job_ptr false = (SLURM_SUCCESS, e).
Proof. split; reflexivity. Qed.

(** ** Validity checks of the job expansion *)

Lemma same_occupancy_log (e : engine) (m : log_entry) : same_occupancy e (log e m).
Proof. repeat split. Qed.

Lemma lacks_job_resources_true (r : job_resources) :
  cpus r = None ∨ core_bitmap r = None ∨ node_bitmap r = None →
  lacks_job_resources r = true.
Proof.
  unfold lacks_job_resources.
  intros [H | [H | H]]; rewrite H; simpl.
  - reflexivity.
  - rewrite orb_true_r. reflexivity.
  - apply orb_true_r.
Qed.

(** C10: [_job_expand] returns an error and leaves the occupancy state and
    both job records unchanged when the two jobs are the same job or when
    one of them lacks a [job_resources] struct with non-null [cpus],
    [core_bitmap] and [node_bitmap]: the checks come before the removal of
    the jobs, whatever the routines of the common module do. *)
Theorem job_expand_invalid_unchanged (cores : list nat)
    (rm : engine -> job_record -> Z -> bool -> Z * engine)
    (add : engine -> job_record -> Z -> Z * engine)
    (e : engine) (from_job to_job : job_record) :
  job_id from_job = job_id to_job
  ∨ job_lacks_resources e from_job ∨ job_lacks_resources e to_job →
  ∃ e', _job_expand cores rm add e from_job to_job
          = (SLURM_ERROR, e', from_job, to_job)
        ∧ same_occupancy e e'.
Proof.
  intros H. unfold _job_expand.
  destruct (job_id from_job =? job_id to_job) eqn:Hid.
  { eexists; split; [reflexivity | apply same_occupancy_log]. }
  destruct H as [H | H]; [apply Z.eqb_neq in Hid; contradiction |].
  unfold job_lacks_resources in H.
  destruct (job_resrcs from_job) as [fa |].
  2: { eexists; split; [reflexivity | apply same_occupancy_log]. }
  destruct (lacks_job_resources (deref (resrcs e) (Some fa))) eqn:Hf.
  { eexists; split; [reflexivity | apply same_occupancy_log]. }
  destruct H as [H | H].
  { apply lacks_job_resources_true in H. congruence. }
  destruct (job_resrcs to_job) as [ta |].
  2: { eexists; split; [reflexivity | apply same_occupancy_log]. }
  apply lacks_job_resources_true in H. rewrite H.
  eexists; split; [reflexivity | apply same_occupancy_log].
Qed.

Lemma job_expand_invalid_unchanged_witness :
  let e := mk_engine [] [] [] None ∅ 0 [] in
  let j := mk_job_record 7 None None None false 0 0 0 0 (mk_job_details 0 0 0 0) in
  ∃ e', _job_expand [2%nat] (fun e _ _ _ => (0, e)) (fun e _ _ => (0, e)) e j j
          = (SLURM_ERROR, e', j, j)
        ∧ same_occupancy e e'.
Proof.
  apply job_expand_invalid_unchanged. left. reflexivity.
Defined.

(** ** The sort of the master job list *)

Section Qsort.

Context {A : Type} (compar : A -> A -> Z) (le : A -> A -> Prop).
Hypothesis compar_le : ∀ x y, compar x y <= 0 ↔ le x y.
Hypothesis le_total : ∀ x y, le x y ∨ le y x.
Hypothesis le_trans : ∀ x y z, le x y → le y z → le x z.

Lemma qsort_insert_perm (x : A) (l : list A) :
  Permutation (qsort_insert compar x l) (x :: l).
Proof.
  induction l as [| y l IH]; simpl.
  - reflexivity.
  - destruct (compar x y <=? 0).
    + reflexivity.
    + rewrite IH. apply perm_swap.
Qed.

Lemma qsort_perm (l : list A) : Permutation (qsort compar l) l.
Proof.
  unfold qsort. induction l as [| x l IH]; simpl.
  - reflexivity.
  - rewrite qsort_insert_perm. apply perm_skip, IH.
Qed.

Lemma qsort_insert_sorted (x : A) (l : list A) :
  StronglySorted le l → StronglySorted le (qsort_insert compar x l).
Proof using compar_le le_total le_trans.
  induction l as [| y l IH]; simpl; intros Hs.
  - constructor; [constructor | constructor].
  - apply StronglySorted_inv in Hs as [Hs Hy].
    destruct (compar x y <=? 0) eqn:Hc.
    + apply Z.leb_le, compar_le in Hc.
      constructor.
      * constructor; assumption.
      * constructor; [assumption |].
        eapply Forall_impl; [exact Hy |].
        intros z Hz. simpl in Hz. eapply le_trans; eassumption.
    + assert (Hyx : le y x).
      { destruct (le_total x y) as [Hxy | Hyx]; [| assumption].
        apply compar_le, Z.leb_le in Hxy. congruence. }
      constructor; [apply IH, Hs |].
      eapply Permutation_Forall.
      { symmetry. apply qsort_insert_perm. }
      constructor; assumption.
Qed.

Lemma qsort_sorted (l : list A) : StronglySorted le (qsort compar l).
Proof using compar_le le_total le_trans.
  unfold qsort. induction l as [| x l IH]; simpl.
  - constructor.
  - apply qsort_insert_sorted, IH.
Qed.

End Qsort.

Lemma compare_support_le (store : gmap ptr job_resources) (a b : sort_support) :
  _compare_support store a b <= 0 ↔ support_le store a b.
Proof.
  unfold _compare_support, support_le.
  destruct (jstart a >? jstart b) eqn:H1; simpl.
  - split; intros H; lia.
  - destruct (jstart a =? jstart b) eqn:H2; simpl.
    + destruct (ncpus (deref store (tmpjobs a)) >? ncpus (deref store (tmpjobs b)))
        eqn:H3; split; intros H; lia.
    + split; intros H; lia.
Qed.

Lemma support_le_total (store : gmap ptr job_resources) (a b : sort_support) :
  support_le store a b ∨ support_le store b a.
Proof. unfold support_le. lia. Qed.

Lemma support_le_trans (store : gmap ptr job_resources) (a b c : sort_support) :
  support_le store a b → support_le store b c → support_le store a c.
Proof. unfold support_le. lia. Qed.

Lemma gather_jobs_keys (cores : list nat) (store : gmap ptr job_resources)
    (rs : list part_row_data) :
  Forall (fun s => jstart s = first_global_bit cores (deref store (tmpjobs s)))
         (gather_jobs cores store rs).
Proof.
  unfold gather_jobs. apply Forall_concat, Forall_map, Forall_forall.
  intros r _. apply Forall_map, Forall_forall. intros j _. reflexivity.
Qed.

(** C4, as the code has it: the row packer sorts the flat list of all
    resident jobs ascending by the key offset(firstNode) + firstCore, the
    first set global bit of the job; two jobs of equal key are ordered by
    ascending [ncpus], the one with fewer cpus first.  The sorted list holds
    the same entries as the flat list. *)
Theorem master_list_sorted (cores : list nat) (store : gmap ptr job_resources)
    (rs : list part_row_data) :
  let ss := qsort (_compare_support store) (gather_jobs cores store rs) in
  Permutation ss (gather_jobs cores store rs)
  ∧ Forall (fun s => jstart s = first_global_bit cores (deref store (tmpjobs s))) ss
  ∧ StronglySorted (support_le store) ss.
Proof.
  intros ss. split; [| split].
  - apply qsort_perm.
  - eapply Permutation_Forall.
    + symmetry. apply qsort_perm.
    + apply gather_jobs_keys.
  - apply qsort_sorted with (le := support_le store).
    + apply compare_support_le.
    + apply support_le_total.
    + apply support_le_trans.
Qed.

(** C4, as stated, fails: with equal keys the job with the larger [ncpus] is
    not ordered first, the sorted list starts with the job of one cpu. *)
Lemma master_list_ties_not_descending :
  qsort (_compare_support tie_store) (gather_jobs [2%nat] tie_store tie_rows)
    = [mk_sort_support 0 (Some 2%nat); mk_sort_support 0 (Some 1%nat)]
  ∧ ¬ StronglySorted (support_le_desc tie_store)
        (qsort (_compare_support tie_store) (gather_jobs [2%nat] tie_store tie_rows)).
Proof.
  assert (Hq : qsort (_compare_support tie_store)
                 (gather_jobs [2%nat] tie_store tie_rows)
               = [mk_sort_support 0 (Some 2%nat); mk_sort_support 0 (Some 1%nat)])
    by (vm_compute; reflexivity).
  split; [exact Hq |].
  rewrite Hq. intros Hs.
  apply StronglySorted_inv in Hs as [_ Hall].
  apply Forall_inv in Hall.
  unfold support_le_desc in Hall. vm_compute in Hall.
  destruct Hall as [H | [_ H]]; [discriminate H | apply H; reflexivity].
Qed.

(** ** The node-info rollup *)

Lemma u32_le (x : Z) : 0 <= x → 0 <= u32 x <= x.
Proof.
  intros H. unfold u32. split.
  - apply Z.mod_pos_bound. lia.
  - apply Z.mod_le; lia.
Qed.

Lemma u16_le (x : Z) : 0 <= x → 0 <= u16 x <= x.
Proof.
  intros H. unfold u16. split.
  - apply Z.mod_pos_bound. lia.
  - apply Z.mod_le; lia.
Qed.

Lemma u32_small (x : Z) : 0 <= x < 4294967296 → u32 x = x.
Proof. intros H. unfold u32. apply Z.mod_small. lia. Qed.

Lemma u16_small (x : Z) : 0 <= x < 65536 → u16 x = x.
Proof. intros H. unfold u16. apply Z.mod_small. lia. Qed.

Lemma sum_list_take_S (l : list nat) (n : nat) :
  sum_list (take (S n) l) = (sum_list (take n l) + default 0 (l !! n))%nat.
Proof.
  revert n. induction l as [| x l IH]; intros n.
  - destruct n; reflexivity.
  - destruct n as [| n].
    + simpl. lia.
    + change (take (S (S n)) (x :: l)) with (x :: take (S n) l).
      change (take (S n) (x :: l)) with (x :: take n l).
      simpl sum_list. rewrite IH. simpl. lia.
Qed.

(** The offsets of two consecutive nodes differ by the cores of the first. *)
Lemma coremap_offset_succ (cores : list nat) (n : Z) :
  0 <= n →
  cr_get_coremap_offset cores (n + 1) - cr_get_coremap_offset cores n
  = node_cores cores n.
Proof.
  intros Hn. unfold cr_get_coremap_offset, node_cores.
  destruct (n <? 0) eqn:E; [lia |].
  replace (Z.to_nat (n + 1)) with (S (Z.to_nat n)) by lia.
  rewrite sum_list_take_S. lia.
Qed.

Lemma node_cores_nonneg (cores : list nat) (n : Z) : 0 <= node_cores cores n.
Proof. unfold node_cores. destruct (n <? 0); lia. Qed.

Lemma bit_set_count_range_nonneg (b : bitstr) (start stop : Z) :
  0 <= bit_set_count_range b start stop.
Proof. unfold bit_set_count_range. lia. Qed.

(** C5: after the rollup, for every node [n] with a node-info record the
    reported [alloc_cpus] is at most the total cores of [n] after thread
    scaling.  The count of set bits in the slice of the node in the OR of
    all row bitmaps is capped at the total cores of the node, and it is
    multiplied by the threads per core when the node has fewer cores than
    cpus; the reported value is that number when it fits the 16-bit field. *)
Theorem nodeinfo_alloc_cpus_bound (cores : list nat) (fast_schedule lnu : Z)
    (e e' : engine) (n : nat) (nd : node_record) (ni : select_nodeinfo) :
  select_p_select_nodeinfo_set_all cores fast_schedule lnu e = (SLURM_SUCCESS, e') →
  node_record_table e' !! n = Some nd →
  nd_select_nodeinfo nd = Some ni →
  0 <= node_threads_of fast_schedule nd →
  node_cores cores (Z.of_nat n) < 4294967296 →
  let total_cores := node_cores cores (Z.of_nat n) in
  let scale := if total_cores <? node_cpus_of fast_schedule nd
               then node_threads_of fast_schedule nd else 1 in
  let count :=
    match build_alloc_core_bitmap (select_part_record e) with
    | Some b => bit_set_count_range b
                  (cr_get_coremap_offset cores (Z.of_nat n))
                  (cr_get_coremap_offset cores (Z.of_nat n + 1))
    | None => 0
    end in
  ni_alloc_cpus ni <= total_cores * scale
  ∧ (Z.min count total_cores * scale < 65536 →
     ni_alloc_cpus ni = Z.min count total_cores * scale).
Proof.
  intros Hrun Hnd Hni Hthr Hfit total_cores scale count.
  unfold select_p_select_nodeinfo_set_all in Hrun.
  destruct (negb (last_set_all e =? 0) && (lnu <? last_set_all e));
    [discriminate Hrun |].
  injection Hrun as <-. simpl in Hnd.
  rewrite list_lookup_imap in Hnd.
  destruct (node_record_table e !! n) as [nd0 |]; [| discriminate Hnd].
  simpl in Hnd. injection Hnd as <-.
  unfold set_nodeinfo in *.
  destruct (nd_select_nodeinfo nd0) as [old |] eqn:Hold.
  2: { rewrite Hold in Hni. discriminate Hni. }
  simpl in Hni. injection Hni as <-. simpl.
  unfold scale. unfold node_threads_of, node_cpus_of in *. simpl in *.
  set (cpus0 := if negb (fast_schedule =? 0) then cfg_cpus (config_ptr nd0)
                else nd_cpus nd0) in *.
  set (thr := if negb (fast_schedule =? 0) then cfg_threads (config_ptr nd0)
              else nd_threads nd0) in *.
  unfold node_alloc_cpus.
  rewrite (coremap_offset_succ cores (Z.of_nat n)) by lia.
  fold total_cores. fold count.
  assert (Hc0 : 0 <= count).
  { unfold count. destruct (build_alloc_core_bitmap _);
      [apply bit_set_count_range_nonneg | lia]. }
  assert (Ht0 : 0 <= total_cores) by apply node_cores_nonneg.
  rewrite (u32_small total_cores) by (unfold total_cores in *; lia).
  assert (Hmin : (if count >? total_cores then total_cores else count)
                 = Z.min count total_cores).
  { destruct (count >? total_cores) eqn:E; lia. }
  rewrite Hmin.
  destruct (total_cores <? cpus0) eqn:Hs.
  - assert (Hm : 0 <= Z.min count total_cores * thr) by nia.
    pose proof (u32_le _ Hm) as [H1 H2].
    pose proof (u16_le _ H1) as [H3 H4].
    split.
    + nia.
    + intros Hsmall. rewrite u32_small by lia. apply u16_small. lia.
  - assert (Hm : 0 <= Z.min count total_cores) by lia.
    pose proof (u16_le _ Hm) as [H3 H4].
    split.
    + lia.
    + intros Hsmall. rewrite Z.mul_1_r in *. apply u16_small. lia.
Qed.

Lemma nodeinfo_alloc_cpus_bound_witness :
  ∃ nd ni,
    node_record_table
      (select_p_select_nodeinfo_set_all [2%nat; 2%nat] 1 5 rollup_engine).2 !! 0%nat
    = Some nd
    ∧ nd_select_nodeinfo nd = Some ni
    ∧ ni_alloc_cpus ni <= 2 * 2
    ∧ ni_alloc_cpus ni = 4.
Proof.
  eexists _, _.
  split; [vm_compute; reflexivity |].
  split; [reflexivity |].
  pose proof (nodeinfo_alloc_cpus_bound [2%nat; 2%nat] 1 5 rollup_engine
                (select_p_select_nodeinfo_set_all [2%nat; 2%nat] 1 5 rollup_engine).2
                0%nat _ _ eq_refl eq_refl eq_refl) as H.
  simpl in H.
  destruct H as [H1 H2]; [vm_compute; congruence | vm_compute; reflexivity |].
  split.
  - exact H1.
  - apply H2. vm_compute. reflexivity.
Defined.

(** ** Underflows in [_rm_job_from_one_node] *)

Lemma node_usage_at_set (e : engine) (i : Z) (u : node_use_record) :
  0 <= i < Z.of_nat (length (select_node_usage e)) →
  node_usage_at (set_node_usage_at e i u) i = u.
Proof.
  intros H. unfold node_usage_at, set_node_usage_at.
  destruct (i <? 0) eqn:E; [lia |]. simpl.
  rewrite list_lookup_insert_eq by lia. reflexivity.
Qed.

Lemma usage_length_set (e : engine) (i : Z) (u : node_use_record) :
  length (select_node_usage (set_node_usage_at e i u)) = length (select_node_usage e).
Proof.
  unfold set_node_usage_at. destruct (i <? 0); [reflexivity |].
  simpl. apply length_insert.
Qed.

Lemma errlog_set_node_usage_at (e : engine) (i : Z) (u : node_use_record) :
  errlog (set_node_usage_at e i u) = errlog e.
Proof. unfold set_node_usage_at. destruct (i <? 0); reflexivity. Qed.

Lemma parts_set_node_usage_at (e : engine) (i : Z) (u : node_use_record) :
  select_part_record (set_node_usage_at e i u) = select_part_record e.
Proof. unfold set_node_usage_at. destruct (i <? 0); reflexivity. Qed.

Lemma resrcs_set_node_usage_at (e : engine) (i : Z) (u : node_use_record) :
  resrcs (set_node_usage_at e i u) = resrcs e.
Proof. unfold set_node_usage_at. destruct (i <? 0); reflexivity. Qed.

(** What [adjust_node_state] does to the usage of the node. *)
Lemma adjust_node_state_usage (e : engine) (job : job_resources) (i : Z) :
  0 <= i < Z.of_nat (length (select_node_usage e)) →
  let u := node_usage_at e i in
  let e' := adjust_node_state e job i in
  alloc_memory (node_usage_at e' i) = alloc_memory u
  ∧ (∀ m, In m (errlog e) → In m (errlog e'))
  ∧ (node_state u < node_req job →
     node_state (node_usage_at e' i) = NODE_CR_AVAILABLE
     ∧ In LogNodeStateMiscount (errlog e')).
Proof.
  intros Hi u e'. unfold e', adjust_node_state. fold u.
  destruct (node_state u >=? node_req job) eqn:E.
  - rewrite node_usage_at_set by assumption. simpl.
    rewrite errlog_set_node_usage_at.
    split; [reflexivity | split; [auto | intros; lia]].
  - rewrite node_usage_at_set by (simpl; assumption). simpl.
    rewrite errlog_set_node_usage_at. simpl.
    split; [reflexivity | split].
    + intros m Hm. apply in_or_app. left. exact Hm.
    + intros _. split; [reflexivity |].
      apply in_or_app. right. left. reflexivity.
Qed.

(** What follows the memory loop keeps the allocated memory of the node and
    the messages logged, and succeeds exactly when the later checks pass. *)
Lemma rebuild_after_node_removal_spec (cores : list nat) (e : engine)
    (job_ptr : job_record) (a : ptr) (i : Z) :
  0 <= i < Z.of_nat (length (select_node_usage e)) →
  let r := rebuild_after_node_removal cores e job_ptr a i in
  alloc_memory (node_usage_at r.2 i) = alloc_memory (node_usage_at e i)
  ∧ (∀ m, In m (errlog e) → In m (errlog r.2))
  ∧ (r.1 = SLURM_SUCCESS ↔ later_checks_pass e job_ptr a).
Proof.
  intros Hi r. unfold r, rebuild_after_node_removal, later_checks_pass.
  destruct (job_suspended job_ptr) eqn:Hsusp.
  { simpl. repeat split; auto. }
  destruct (job_part_ptr job_ptr) as [pp |] eqn:Hpp.
  2: { simpl. repeat split; auto.
       - intros m Hm. apply in_or_app. left. exact Hm.
       - intros H. discriminate H.
       - intros [H | (pp & p & H & _)]; discriminate H. }
  destruct (find _ (select_part_record e)) as [p |] eqn:Hfind.
  2: { simpl. repeat split; auto.
       - intros m Hm. apply in_or_app. left. exact Hm.
       - intros H. discriminate H.
       - intros [H | (pp' & p & H & Hf & _)]; [discriminate H |].
         injection H as <-. rewrite Hfind in Hf. discriminate Hf. }
  destruct (row p) as [rs |] eqn:Hrow.
  2: { simpl. repeat split; auto.
       intros _. right. exists pp, p. repeat split; auto. }
  destruct (job_in_rows a rs) eqn:Hin.
  - cbn [fst snd].
    pose proof (adjust_node_state_usage
                  (set_parts e (replace_part pp
                     (_build_row_bitmaps cores (resrcs e) p None)
                     (select_part_record e)))
                  (deref (resrcs e) (Some a)) i Hi) as (H1 & H2 & _).
    repeat split.
    + exact H1.
    + exact H2.
    + intros _. right. exists pp, p. repeat split; auto.
      right. exists rs. auto.
  - simpl. repeat split; auto.
    + intros m Hm. apply in_or_app. left. exact Hm.
    + intros H. discriminate H.
    + intros [H | (pp' & p' & H & Hf & Hr)]; [discriminate H |].
      injection H as <-. rewrite Hfind in Hf. injection Hf as <-.
      destruct Hr as [Hr | (rs' & Hr & Hj)]; [congruence |].
      rewrite Hrow in Hr. injection Hr as <-. congruence.
Qed.

Lemma subtract_memory_spec (cores : list nat) (e : engine) (job_ptr : job_record) (a : ptr) (i n : Z) :
  0 <= i < Z.of_nat (length (select_node_usage e)) →
  let job := deref (resrcs e) (Some a) in
  let want := znth (memory_allocated job) n in
  let e1 := subtract_memory cores e job_ptr a i n in
  length (select_node_usage e1) = length (select_node_usage e)
  ∧ select_part_record e1 = select_part_record e
  ∧ node_state (node_usage_at e1 i) = node_state (node_usage_at e i)
  ∧ node_req (deref (resrcs e1) (Some a)) = node_req job
  ∧ (alloc_memory (node_usage_at e i) < want →
     alloc_memory (node_usage_at e1 i) = 0
     ∧ In (LogMemoryUnderallocated i (alloc_memory (node_usage_at e i)) want)
          (errlog e1)).
Proof.
  intros Hi job want e1. unfold e1, subtract_memory. fold job. fold want.
  set (u := node_usage_at e i).
  destruct (alloc_memory u <? want) eqn:E.
  - set (e0 := set_node_usage_at _ i _).
    assert (Hu : node_usage_at e0 i = mk_node_use_record 0 (node_state u)).
    { unfold e0. apply node_usage_at_set. simpl. exact Hi. }
    assert (Hlen : length (select_node_usage e0) = length (select_node_usage e)).
    { unfold e0. rewrite usage_length_set. reflexivity. }
    change (node_usage_at (set_resrcs e0 _) i) with (node_usage_at e0 i).
    rewrite Hu. simpl.
    split; [exact Hlen |].
    split; [unfold e0; rewrite parts_set_node_usage_at; reflexivity |].
    split; [reflexivity |].
    split.
    { rewrite lookup_insert_eq. simpl. unfold extract_job_resources_node.
      destruct (job_node_slice cores job n). reflexivity. }
    intros _. split; [reflexivity |].
    unfold e0. rewrite errlog_set_node_usage_at. simpl.
    apply in_or_app. right. left. reflexivity.
  - set (e0 := set_node_usage_at _ i _).
    assert (Hu : node_usage_at e0 i
                 = mk_node_use_record (alloc_memory u - want) (node_state u)).
    { unfold e0. apply node_usage_at_set. exact Hi. }
    assert (Hlen : length (select_node_usage e0) = length (select_node_usage e)).
    { unfold e0. rewrite usage_length_set. reflexivity. }
    change (node_usage_at (set_resrcs e0 _) i) with (node_usage_at e0 i).
    rewrite Hu. simpl.
    split; [exact Hlen |].
    split; [unfold e0; rewrite parts_set_node_usage_at; reflexivity |].
    split; [reflexivity |].
    split.
    { rewrite lookup_insert_eq. simpl. unfold extract_job_resources_node.
      destruct (job_node_slice cores job n). reflexivity. }
    intros H. lia.
Qed.

(** C6, as the code has it: in a call of [_rm_job_from_one_node] where
    subtracting the memory of the job from the node would underflow, the
    underflow is logged, [alloc_memory] is set to 0 and the call goes on; it
    returns success exactly when the checks that follow pass (the job is
    suspended, or its partition is known and has no rows or holds the job).
    When the call gets to the adjustment of [node_state] and the job
    requires more than the node state holds, the miscount is logged, the
    node state is set to [NODE_CR_AVAILABLE] and the call returns success. *)
Theorem rm_job_from_one_node_underflow (cores : list nat) (e e' : engine)
    (job_ptr : job_record) (node_inx : Z) (a : ptr) (rc : Z) :
  0 <= node_inx < Z.of_nat (length (select_node_usage e)) →
  _rm_job_from_one_node cores e job_ptr node_inx = (rc, e') →
  (∀ n, memory_underflow e job_ptr node_inx a n →
        alloc_memory (node_usage_at e' node_inx) = 0
        ∧ In (LogMemoryUnderallocated node_inx
                (alloc_memory (node_usage_at e node_inx))
                (znth (memory_allocated (deref (resrcs e) (Some a))) n))
             (errlog e')
        ∧ (rc = SLURM_SUCCESS ↔ later_checks_pass e job_ptr a))
  ∧ (node_state_underflow e job_ptr node_inx a →
     node_state (node_usage_at e' node_inx) = NODE_CR_AVAILABLE
     ∧ In LogNodeStateMiscount (errlog e')
     ∧ rc = SLURM_SUCCESS).
Proof.
  intros Hi Hrun. split.
  - intros n (Hres & Hcb & Hrank & Hcpus & Hmem).
    unfold _rm_job_from_one_node in Hrun. rewrite Hres in Hrun.
    destruct (core_bitmap (deref (resrcs e) (Some a))) as [cb |] eqn:Hc;
      [| congruence].
    rewrite Hrank in Hrun.
    destruct (znth (default [] (cpus (deref (resrcs e) (Some a)))) n =? 0) eqn:Hz;
      [lia |].
    pose proof (subtract_memory_spec cores e job_ptr a node_inx n Hi)
      as (Hlen & Hparts & _ & _ & Hclamp).
    destruct (Hclamp Hmem) as [Hzero Hlog].
    set (e1 := subtract_memory cores e job_ptr a node_inx n) in *.
    assert (Hi1 : 0 <= node_inx < Z.of_nat (length (select_node_usage e1)))
      by (rewrite Hlen; exact Hi).
    pose proof (rebuild_after_node_removal_spec cores e1 job_ptr a node_inx Hi1)
      as (Hkeep & Hlogs & Hrc).
    rewrite Hrun in Hkeep, Hlogs, Hrc. simpl in Hkeep, Hlogs, Hrc.
    split; [rewrite Hkeep; exact Hzero |].
    split; [apply Hlogs; exact Hlog |].
    rewrite Hrc. unfold later_checks_pass. rewrite Hparts. reflexivity.
  - intros (Hres & Hcb & Hnoearly & Hsusp & (pp & p & rs & Hpp & Hfind & Hrow & Hin)
            & Hstate).
    unfold _rm_job_from_one_node in Hrun. rewrite Hres in Hrun.
    destruct (core_bitmap (deref (resrcs e) (Some a))) as [cb |] eqn:Hc;
      [| congruence].
    assert (Hgo : ∀ e1,
      0 <= node_inx < Z.of_nat (length (select_node_usage e1)) →
      select_part_record e1 = select_part_record e →
      node_state (node_usage_at e1 node_inx) = node_state (node_usage_at e node_inx) →
      node_req (deref (resrcs e1) (Some a)) = node_req (deref (resrcs e) (Some a)) →
      rebuild_after_node_removal cores e1 job_ptr a node_inx = (rc, e') →
      node_state (node_usage_at e' node_inx) = NODE_CR_AVAILABLE
      ∧ In LogNodeStateMiscount (errlog e') ∧ rc = SLURM_SUCCESS).
    { intros e1 Hi1 Hparts Hns Hnr Hreb.
      unfold rebuild_after_node_removal in Hreb.
      rewrite Hsusp, Hpp, Hparts, Hfind, Hrow, Hin in Hreb.
      injection Hreb as <- <-.
      set (e2 := set_parts e1 _).
      pose proof (adjust_node_state_usage e2 (deref (resrcs e2) (Some a))
                    node_inx Hi1) as (_ & _ & Hadj).
      change (node_usage_at e2 node_inx) with (node_usage_at e1 node_inx) in Hadj.
      change (resrcs e2) with (resrcs e1) in Hadj.
      rewrite Hns, Hnr in Hadj.
      destruct (Hadj Hstate) as [H1 H2].
      split; [exact H1 | split; [exact H2 | reflexivity]]. }
    destruct (find_node_rank _ node_inx _ 0) as [n |] eqn:Hrank.
    + destruct (znth (default [] (cpus (deref (resrcs e) (Some a)))) n =? 0) eqn:Hz.
      { specialize (Hnoearly n eq_refl). lia. }
      pose proof (subtract_memory_spec cores e job_ptr a node_inx n Hi)
        as (Hlen & Hparts & Hns & Hnr & _).
      apply (Hgo (subtract_memory cores e job_ptr a node_inx n)); auto.
      rewrite Hlen. exact Hi.
    + apply (Hgo e); auto.
Qed.

(** C6, as stated, fails: the memory of the job underflows the node, the
    underflow is repaired, and the call still returns an error because the
    job is in no row of its partition. *)
Lemma rm_job_from_one_node_underflow_error :
  memory_underflow stray_job_engine one_node_job_record 0 1%nat 0
  ∧ (_rm_job_from_one_node [2%nat] stray_job_engine one_node_job_record 0).1
    = SLURM_ERROR
  ∧ (_rm_job_from_one_node [2%nat] stray_job_engine one_node_job_record 0).1
    ≠ SLURM_SUCCESS
  ∧ alloc_memory
      (node_usage_at
         (_rm_job_from_one_node [2%nat] stray_job_engine one_node_job_record 0).2 0)
    = 0.
Proof.
  split.
  { unfold memory_underflow.
    repeat split; vm_compute; congruence. }
  split; [vm_compute; reflexivity |].
  split; [vm_compute; congruence |].
  vm_compute. reflexivity.
Qed.

Lemma rm_job_from_one_node_underflow_witness :
  let r := _rm_job_from_one_node [2%nat] miscounted_engine one_node_job_record 0 in
  alloc_memory (node_usage_at r.2 0) = 0
  ∧ node_state (node_usage_at r.2 0) = NODE_CR_AVAILABLE
  ∧ r.1 = SLURM_SUCCESS.
Proof.
  intros r.
  destruct (rm_job_from_one_node_underflow [2%nat] miscounted_engine r.2
              one_node_job_record 0 1%nat r.1) as [Hmem Hstate].
  - vm_compute. split; congruence.
  - reflexivity.
  - destruct (Hmem 0) as (H1 & _ & _).
    { unfold memory_underflow. repeat split; vm_compute; congruence. }
    destruct Hstate as (H2 & _ & H3).
    { unfold node_state_underflow.
      split; [reflexivity |].
      split; [vm_compute; congruence |].
      split; [intros n Hn; vm_compute in Hn; injection Hn as <-; vm_compute; congruence |].
      split; [reflexivity |].
      split; [| vm_compute; reflexivity].
      eexists 0%nat, _, _.
      split; [reflexivity |].
      split; [vm_compute; reflexivity |].
      split; [reflexivity | vm_compute; reflexivity]. }
    split; [exact H1 | split; [exact H2 | exact H3]].
Defined.

(** ** The row packer *)

Section Packer.

Variable cores : list nat.
Variable store : gmap ptr job_resources.

Lemma insert_row_length (r : part_row_data) (rs : list part_row_data) :
  length (insert_row r rs) = S (length rs).
Proof.
  induction rs as [| r' rs IH]; simpl; [reflexivity |].
  destruct (row_set_count r' <=? row_set_count r)%nat; simpl; [reflexivity |].
  rewrite IH. reflexivity.
Qed.

Lemma common_sort_part_rows_length (rs : list part_row_data) :
  length (common_sort_part_rows rs) = length rs.
Proof.
  unfold common_sort_part_rows.
  induction rs as [| r rs IH]; simpl; [reflexivity |].
  rewrite insert_row_length, IH. reflexivity.
Qed.

Lemma place_job_length (job : option ptr) (rs rs' : list part_row_data) :
  place_job cores store job rs = Some rs' → length rs' = length rs.
Proof.
  revert rs'. induction rs as [| r rs IH]; intros rs' H; simpl in H.
  - discriminate H.
  - destruct (_can_job_fit_in_row cores (deref store job) r =? 0).
    + destruct (place_job cores store job rs) as [t |]; [| discriminate H].
      simpl in H. injection H as <-. simpl. rewrite (IH t eq_refl). reflexivity.
    + injection H as <-. reflexivity.
Qed.

Lemma pack_jobs_length (ss : list sort_support) (rs : list part_row_data) :
  length (pack_jobs cores store ss rs).2 = length rs.
Proof.
  revert rs. induction ss as [| s ss IH]; intros rs; simpl; [reflexivity |].
  destruct (place_job cores store (tmpjobs s) rs) as [rs1 |] eqn:Hp.
  - specialize (IH (common_sort_part_rows rs1)).
    destruct (pack_jobs cores store ss (common_sort_part_rows rs1)) as [ss2 rs2].
    simpl in *. rewrite IH, common_sort_part_rows_length.
    apply place_job_length in Hp. exact Hp.
  - specialize (IH (common_sort_part_rows rs)).
    destruct (pack_jobs cores store ss (common_sort_part_rows rs)) as [ss2 rs2].
    simpl in *. rewrite IH, common_sort_part_rows_length. reflexivity.
Qed.

Lemma repack_rows_length (rs : list part_row_data) :
  length (repack_rows cores store rs) = length rs.
Proof.
  unfold repack_rows.
  pose proof (pack_jobs_length
                (qsort (_compare_support store) (gather_jobs cores store rs))
                (map (emptied_row (row0_bitmap_size rs)) rs)) as H.
  destruct (pack_jobs cores store _ _) as [ss' rs'].
  simpl in H. destruct (has_dangling ss').
  - unfold common_dup_row_data. apply length_map.
  - rewrite H. apply length_map.
Qed.


(** *** The rebuilt row *)

Lemma rebuild_row_fields (size : Z) (r : part_row_data) :
  num_jobs (rebuild_row cores store size r) = num_jobs r
  ∧ job_list (rebuild_row cores store size r) = job_list r.
Proof.
  unfold rebuild_row.
  assert (H : ∀ js r0, num_jobs (foldl (fun r' j => _add_job_to_cores cores (deref store j) r') r0 js) = num_jobs r0
              ∧ job_list (foldl (fun r' j => _add_job_to_cores cores (deref store j) r') r0 js) = job_list r0).
  { induction js as [| j js IH]; intros r0; simpl; [split; reflexivity |].
    destruct (IH (_add_job_to_cores cores (deref store j) r0)) as [H1 H2].
    rewrite H1, H2. split; reflexivity. }
  destruct (H (row_jobs r) (clear_row_bitmap size r)) as [H1 H2].
  rewrite H1, H2. split; reflexivity.
Qed.




End Packer.




(** ** The first set bit *)

Lemma ffs_from_bounds (b : bitstr) (k : Z) :
  ffs_from k b = -1 ∨ k <= ffs_from k b < k + bit_size b.
Proof.
  unfold bit_size. revert k. induction b as [| x b IH]; intros k; simpl.
  - left. reflexivity.
  - destruct x; [right; lia |].
    destruct (IH (k + 1)) as [H | H]; [left; exact H | right; lia].
Qed.

Lemma ffs_from_set (b : bitstr) (k : Z) :
  0 <= k → 0 <= ffs_from k b →
  b !! Z.to_nat (ffs_from k b - k) = Some true.
Proof.
  revert k. induction b as [| x b IH]; intros k Hk H; simpl in *.
  - lia.
  - destruct x.
    + replace (k - k) with 0 by lia. reflexivity.
    + pose proof (ffs_from_bounds b (k + 1)) as [Hb | Hb]; [lia |].
      replace (Z.to_nat (ffs_from (k + 1) b - k))
        with (S (Z.to_nat (ffs_from (k + 1) b - (k + 1)))) by lia.
      simpl. apply IH; lia.
Qed.

Lemma bit_ffs_set (b : bitstr) : 0 <= bit_ffs b → bit_test b (bit_ffs b) = true.
Proof.
  intros H. apply bit_test_lookup. split; [exact H |].
  unfold bit_ffs in *. pose proof (ffs_from_set b 0 ltac:(lia) H) as Hs.
  rewrite Z.sub_0_r in Hs. exact Hs.
Qed.

Lemma ffs_from_none (b : bitstr) (k : Z) :
  0 <= k → ffs_from k b < 0 → popcount b = 0%nat.
Proof.
  revert k. induction b as [| x b IH]; intros k Hk H.
  - reflexivity.
  - simpl in *. destruct x; [lia |]. simpl. apply (IH (k + 1)); [lia | exact H].
Qed.


Lemma popcount_clear_set (b : bitstr) (i : nat) :
  b !! i = Some true → S (popcount (<[i := false]> b)) = popcount b.
Proof.
  revert i. induction b as [| x b IH]; intros i H.
  - discriminate H.
  - destruct i as [| i]; simpl in *.
    + injection H as ->. reflexivity.
    + rewrite <- (IH i H). destruct x; simpl; lia.
Qed.

Lemma popcount_bit_clear (b : bitstr) (i : Z) :
  bit_test b i = true → S (popcount (bit_clear b i)) = popcount b.
Proof.
  intros H. apply bit_test_lookup in H as [H0 H].
  unfold bit_clear, bit_assign. destruct (i <? 0) eqn:E; [lia |].
  apply popcount_clear_set, H.
Qed.

(** ** The bits of [avail_bitmap] are only ever cleared *)



(** Case analysis on the test a loop body starts with. *)
Ltac case_head H :=
  match type of H with
  | (if ?c then _ else _) = _ => destruct c eqn:?
  | (let '(_, _) := ?p in _) = _ => destruct p eqn:?
  end.

Section Sequential.

Variable cores : list nat.





Lemma seq_full_step_inl (s s' : list bool * list bool * Z) :
  seq_full_step s = inl s' →
  0 <= bit_ffs s.1.1 ∧ s'.1.1 = bit_clear s.1.1 (bit_ffs s.1.1).
Proof.
  destruct s as [[avail sel] n]. unfold seq_full_step. intros H.
  repeat case_head H; inversion H; subst; simpl; split; try reflexivity; lia.
Qed.

Lemma seq_full_step_decreases (s s' : list bool * list bool * Z) :
  seq_full_step s = inl s' → (popcount s'.1.1 < popcount s.1.1)%nat.
Proof.
  intros H. apply seq_full_step_inl in H as [Hffs ->].
  pose proof (popcount_bit_clear _ _ (bit_ffs_set _ Hffs)). lia.
Qed.

Variable make_core_bitmap : bitstr -> bitstr.




End Sequential.

(** ** The loop that picks the cores of the nodes chosen through the
    topology *)

Section CoreLoop.

Variable cores : list nat.







Variable make_core_bitmap : list bool -> list bool.


End CoreLoop.

(** ** The loop over the leaf switches *)

Lemma nonzero_switches_insert (sws : list switch_state) (loc : nat)
    (sw sw' : switch_state) :
  sws !! loc = Some sw → switches_node_cnt sw ≠ 0 → switches_node_cnt sw' = 0 →
  S (nonzero_switches (<[loc := sw']> sws)) = nonzero_switches sws.
Proof.
  unfold nonzero_switches. revert loc.
  induction sws as [| x sws IH]; intros loc Hl Hnz Hz; [discriminate Hl |].
  destruct loc as [| loc]; simpl in *.
  - injection Hl as ->. rewrite !filter_cons.
    destruct (decide (switches_node_cnt sw' ≠ 0)); [congruence |].
    destruct (decide (switches_node_cnt sw ≠ 0)); [reflexivity | contradiction].
  - rewrite !filter_cons.
    destruct (decide (switches_node_cnt x ≠ 0)); simpl;
      rewrite <- (IH loc Hl Hnz Hz); reflexivity.
Qed.

Lemma nonzero_switches_insert_le (sws : list switch_state) (loc : nat)
    (sw' : switch_state) :
  switches_node_cnt sw' = 0 →
  (nonzero_switches (<[loc := sw']> sws) <= nonzero_switches sws)%nat.
Proof.
  unfold nonzero_switches. revert loc.
  induction sws as [| x sws IH]; intros loc Hz; [simpl; lia |].
  destruct loc as [| loc]; simpl.
  - rewrite !filter_cons.
    destruct (decide (switches_node_cnt sw' ≠ 0)); [congruence |].
    destruct (decide (switches_node_cnt x ≠ 0)); simpl; lia.
  - rewrite !filter_cons. specialize (IH loc Hz).
    destruct (decide (switches_node_cnt x ≠ 0)); simpl; lia.
Qed.

Section LeafLoop.

Variable cores : list nat.

(** The leaf chosen has nodes to offer. *)
Lemma choose_leaf_nonzero (has_core_cnt : bool) (s : leaf_state) :
  let '(best_fit_nodes, loc, _) := choose_leaf has_core_cnt s in
  best_fit_nodes ≠ 0 →
  ∃ sw, lf_switches s !! loc = Some sw ∧ switches_node_cnt sw ≠ 0.
Proof.
  unfold choose_leaf.
  set (f := fun (acc : Z * nat * bool) (j : nat) => _).
  assert (Hstep : ∀ acc j sw, lf_switches s !! j = Some sw →
    f acc j = acc
    ∨ ((f acc j).1.1 = switches_node_cnt sw ∧ (f acc j).1.2 = j
       ∧ switches_node_cnt sw ≠ 0)).
  { intros [[bfn loc] bfs] j sw Hsw. unfold f, switch_at. rewrite Hsw. simpl.
    destruct (switches_node_cnt sw =? 0) eqn:Hz; [left; reflexivity |].
    apply Z.eqb_neq in Hz.
    match goal with |- context [if ?c then _ else _] => destruct c end;
      [right; simpl; split; [reflexivity | split; [reflexivity | exact Hz]]
      | left; reflexivity]. }
  assert (Hinv : ∀ l acc,
    (∀ j, In j l → (j < length (lf_switches s))%nat) →
    (acc.1.1 ≠ 0 → ∃ sw, lf_switches s !! acc.1.2 = Some sw
                          ∧ switches_node_cnt sw ≠ 0) →
    (foldl f acc l).1.1 ≠ 0 →
    ∃ sw, lf_switches s !! (foldl f acc l).1.2 = Some sw
          ∧ switches_node_cnt sw ≠ 0).
  { induction l as [| j l IH]; intros acc Hl Hacc; simpl; [exact Hacc |].
    apply IH; [intros k Hk; apply Hl; right; exact Hk |].
    destruct (lookup_lt_is_Some_2 (lf_switches s) j) as [sw Hsw];
      [apply Hl; left; reflexivity |].
    destruct (Hstep acc j sw Hsw) as [-> | (H1 & H2 & H3)]; [exact Hacc |].
    intros _. exists sw. rewrite H2. split; assumption. }
  specialize (Hinv (seq 0 (length (lf_switches s))) (0, best_fit_location s, false)).
  destruct (foldl f _ _) as [[bfn loc] bfs]. simpl in Hinv.
  apply Hinv.
  - intros j Hj. apply in_seq in Hj. lia.
  - intros H. contradiction.
Qed.

Lemma use_leaf_node_switches (core_bitmap : option (list bool)) (cpn : Z)
    (loc : nat) (st : leaf_state * bool) (i : Z) :
  ∃ sw', lf_switches (use_leaf_node cores core_bitmap cpn loc st i).1
         = lf_switches st.1
         ∨ lf_switches (use_leaf_node cores core_bitmap cpn loc st i).1
           = <[loc := sw']> (lf_switches st.1).
Proof.
  destruct st as [s broke]. unfold use_leaf_node.
  destruct broke; [exists no_switch; left; reflexivity |].
  destruct (negb (bit_test _ i)); [exists no_switch; left; reflexivity |].
  eexists. right.
  destruct (bit_test (avail_nodes_bitmap s) i); [reflexivity |].
  destruct (negb (is_null core_bitmap) && _); reflexivity.
Qed.

(** The nodes of a leaf are taken without touching the other switches. *)
Lemma use_leaf_nodes_switches (core_bitmap : option (list bool)) (cpn : Z)
    (loc : nat) (l : list Z) (st : leaf_state * bool) :
  length (lf_switches (foldl (use_leaf_node cores core_bitmap cpn loc) st l).1)
  = length (lf_switches st.1)
  ∧ ∀ j, j ≠ loc →
         lf_switches (foldl (use_leaf_node cores core_bitmap cpn loc) st l).1 !! j
         = lf_switches st.1 !! j.
Proof.
  revert st. induction l as [| i l IH]; intros st; simpl; [split; auto |].
  destruct (IH (use_leaf_node cores core_bitmap cpn loc st i)) as [Hlen Hoth].
  destruct (use_leaf_node_switches core_bitmap cpn loc st i) as [sw' [He | He]].
  - rewrite He in Hlen, Hoth. split; assumption.
  - rewrite He in Hlen, Hoth. rewrite length_insert in Hlen.
    split; [exact Hlen |].
    intros j Hj. rewrite (Hoth j Hj). apply list_lookup_insert_ne. congruence.
Qed.

Lemma leaf_step_decreases (has_core_cnt : bool) (core_bitmap : option (list bool))
    (cpn : Z) (s s' : leaf_state) :
  leaf_step cores has_core_cnt core_bitmap cpn s = inl s' →
  (nonzero_switches (lf_switches s') < nonzero_switches (lf_switches s))%nat.
Proof.
  unfold leaf_step. intros H.
  destruct (negb (rem_nodes s >? 0)); [discriminate H |].
  pose proof (choose_leaf_nonzero has_core_cnt s) as Hch.
  destruct (choose_leaf has_core_cnt s) as [[bfn loc] bfs].
  destruct (bfn =? 0) eqn:Hz; [discriminate H |].
  apply Z.eqb_neq in Hz. destruct (Hch Hz) as (sw & Hsw & Hnz).
  injection H as <-. simpl.
  set (s0 := mk_leaf_state (lf_switches s) (avail_nodes_bitmap s) (rem_nodes s)
               (rem_cores s) loc).
  set (l := range_incl _ _).
  destruct (use_leaf_nodes_switches core_bitmap cpn loc l (s0, false))
    as [Hlen Hoth].
  set (s1 := (foldl (use_leaf_node cores core_bitmap cpn loc) (s0, false) l).1) in *.
  simpl in Hlen, Hoth.
  set (z := mk_switch_state _ _ _ 0).
  assert (Heq : <[loc := z]> (lf_switches s1) = <[loc := z]> (lf_switches s)).
  { apply list_eq. intros j. destruct (decide (j = loc)) as [-> | Hne].
    - rewrite !list_lookup_insert_eq; [reflexivity | |].
      + apply lookup_lt_Some in Hsw. exact Hsw.
      + rewrite Hlen. apply lookup_lt_Some in Hsw. exact Hsw.
    - rewrite !list_lookup_insert_ne by congruence. apply Hoth, Hne. }
  rewrite Heq.
  pose proof (nonzero_switches_insert (lf_switches s) loc sw z Hsw Hnz eq_refl).
  lia.
Qed.

Lemma leaf_loop_terminates (has_core_cnt : bool) (core_bitmap : option (list bool))
    (cpn : Z) (s0 : leaf_state) :
  ∃ s, iterate (S (length (lf_switches s0)))
         (leaf_step cores has_core_cnt core_bitmap cpn) s0 = Some s.
Proof.
  apply (iterate_terminates (leaf_step cores has_core_cnt core_bitmap cpn)
           (fun _ => True) (fun s => nonzero_switches (lf_switches s))).
  - intros s s' _ H. split; [exact I |]. eapply leaf_step_decreases, H.
  - exact I.
  - unfold nonzero_switches.
    pose proof (length_filter (fun sw => switches_node_cnt sw ≠ 0) (lf_switches s0)).
    lia.
Qed.

End LeafLoop.

Section PlannerAvail.

Variable cores : list nat.
Variable make_core_bitmap : list bool -> list bool.


End PlannerAvail.






(** Arithmetic goals with boolean tests among the hypotheses. *)
Ltac bool_lia :=
  repeat match goal with
         | H : (_ && _) = true |- _ => apply andb_prop in H; destruct H
         | H : (_ && _) = false |- _ => apply andb_false_iff in H; destruct H
         end;
  lia.

(** ** Ranges and offsets *)

Lemma seqZ'_S (a : Z) (m : nat) : seqZ' a (S m) = a :: seqZ' (a + 1) m.
Proof.
  unfold seqZ'. simpl. f_equal; [lia |].
  rewrite <- seq_shift, map_map. apply map_ext. intros k. lia.
Qed.

Lemma seqZ'_In (a : Z) (m : nat) (j : Z) :
  In j (seqZ' a m) ↔ a <= j < a + Z.of_nat m.
Proof.
  revert a. induction m as [| m IH]; intros a.
  - simpl. lia.
  - rewrite seqZ'_S. simpl. rewrite IH. lia.
Qed.

Lemma sum_list_take_le (l : list nat) (a b : nat) :
  (a <= b)%nat → (sum_list (take a l) <= sum_list (take b l))%nat.
Proof.
  revert a b. induction l as [| x l IH]; intros a b Hab.
  - rewrite !take_nil. lia.
  - destruct a as [| a]; [simpl; lia |].
    destruct b as [| b]; [lia |].
    simpl. specialize (IH a b). lia.
Qed.

Lemma coremap_offset_mono (cores : list nat) (a b : Z) :
  a <= b → cr_get_coremap_offset cores a <= cr_get_coremap_offset cores b.
Proof.
  intros H. unfold cr_get_coremap_offset.
  pose proof (sum_list_take_le cores (Z.to_nat a) (Z.to_nat b)). lia.
Qed.

Lemma fls_from_lt (b : list bool) (k : Z) :
  0 <= k → fls_from k b < k + bit_size b.
Proof.
  unfold bit_size. revert k. induction b as [| x b IH]; intros k Hk; simpl.
  - lia.
  - specialize (IH (k + 1) ltac:(lia)).
    destruct (0 <=? fls_from (k + 1) b); [lia |].
    destruct x; lia.
Qed.

Lemma bit_fls_lt (b : list bool) : bit_fls b < bit_size b.
Proof. unfold bit_fls. pose proof (fls_from_lt b 0). lia. Qed.

(** ** Ranks *)

Lemma popcount_app (a b : list bool) :
  popcount (a ++ b) = (popcount a + popcount b)%nat.
Proof. induction a as [| x a IH]; simpl; [reflexivity | rewrite IH; lia]. Qed.

Lemma node_rank_set_below (sel : list bool) (i n : Z) :
  0 <= n <= i → node_rank (bit_set sel i) n = node_rank sel n.
Proof.
  intros H. unfold node_rank, bit_set, bit_assign.
  destruct (i <? 0) eqn:E; [reflexivity |].
  rewrite take_insert_ge by lia. reflexivity.
Qed.

Lemma node_rank_set_next (sel : list bool) (i : Z) :
  0 <= i < bit_size sel →
  node_rank (bit_set sel i) (i + 1) = node_rank sel i + 1.
Proof.
  unfold bit_size. intros H. unfold node_rank, bit_set, bit_assign.
  destruct (i <? 0) eqn:E; [lia |].
  replace (Z.to_nat (i + 1)) with (S (Z.to_nat i)) by lia.
  rewrite (take_S_r _ _ true) by (apply list_lookup_insert_eq; lia).
  rewrite popcount_app, take_insert_ge by lia. simpl. lia.
Qed.

Lemma node_rank_next_unset (sel : list bool) (i : Z) :
  0 <= i → bit_test sel i = false → node_rank sel (i + 1) = node_rank sel i.
Proof.
  intros Hi H. unfold node_rank.
  replace (Z.to_nat (i + 1)) with (S (Z.to_nat i)) by lia.
  unfold bit_test in H. destruct (i <? 0) eqn:E; [lia |].
  destruct (sel !! Z.to_nat i) as [x |] eqn:Hl.
  - simpl in H. subst x. rewrite (take_S_r _ _ false Hl), popcount_app. simpl. lia.
  - apply lookup_ge_None in Hl. rewrite !take_ge by lia. reflexivity.
Qed.

Lemma popcount_take_all (sel : list bool) (i : nat) :
  (∀ n, (i <= n)%nat → sel !! n = Some true → False) →
  popcount (take i sel) = popcount sel.
Proof.
  revert i. induction sel as [| x sel IH]; intros i H.
  - rewrite take_nil. reflexivity.
  - destruct i as [| i].
    + simpl. destruct x; [exfalso; apply (H 0%nat); [lia | reflexivity] |].
      specialize (IH 0%nat). simpl in IH. rewrite <- IH; [reflexivity |].
      intros n _ Hn. apply (H (S n)); [lia | exact Hn].
    + simpl. rewrite IH; [reflexivity |].
      intros n Hle Hn. apply (H (S n)); [lia | exact Hn].
Qed.

Lemma node_rank_all (sel : list bool) (i : Z) :
  0 <= i → (∀ n, i <= n → bit_test sel n = false) →
  node_rank sel i = bit_set_count sel.
Proof.
  intros Hi H. unfold node_rank, bit_set_count. f_equal.
  apply popcount_take_all. intros n Hn Hl.
  specialize (H (Z.of_nat n) ltac:(lia)).
  assert (Ht : bit_test sel (Z.of_nat n) = true).
  { apply bit_test_lookup. rewrite Nat2Z.id. split; [lia | exact Hl]. }
  congruence.
Qed.

(** ** Marking the first cores of a node *)

Lemma mark_first_cores_spec (tmpcore : list bool) (coff : Z) (m : nat)
    (a : Z) (core : list bool) :
  length core = length tmpcore →
  let r := mark_first_cores tmpcore coff (seqZ' a m) core a in
  length r.1 = length tmpcore
  ∧ a <= r.2 <= a + Z.of_nat m
  ∧ (∀ j, a <= j < r.2 → bit_test tmpcore (coff + j) = true)
  ∧ (r.2 < a + Z.of_nat m → bit_test tmpcore (coff + r.2) = false)
  ∧ (∀ p, bit_test r.1 p
          = if (coff + a <=? p) && (p <? coff + r.2) then true else bit_test core p).
Proof.
  revert a core. induction m as [| m IH]; intros a core Hlen.
  - simpl. split; [exact Hlen |]. split; [lia |]. split; [intros; lia |].
    split; [intros; lia |].
    intros p. destruct ((coff + a <=? p) && (p <? coff + a)) eqn:E;
      [bool_lia | reflexivity].
  - rewrite seqZ'_S. simpl.
    destruct (bit_test tmpcore (coff + a)) eqn:Ht; simpl.
    + assert (Hlen' : length (bit_set core (coff + a)) = length tmpcore).
      { unfold bit_set. rewrite length_bit_assign. exact Hlen. }
      pose proof (IH (a + 1) (bit_set core (coff + a)) Hlen') as IH'.
      cbv zeta in IH'.
      set (r := mark_first_cores tmpcore coff (seqZ' (a + 1) m)
                  (bit_set core (coff + a)) (a + 1)) in *.
      destruct IH' as (H1 & H2 & H3 & H4 & H5).
      split; [exact H1 |]. split; [lia |].
      split.
      { intros j Hj. destruct (Z.eq_dec j a) as [-> | Hne]; [exact Ht |].
        apply H3. lia. }
      split; [intros Hlt; apply H4; lia |].
      intros p. rewrite H5.
      destruct (Z.eq_dec p (coff + a)) as [-> | Hne].
      * destruct ((coff + (a + 1) <=? coff + a) && _) eqn:E0; [bool_lia |].
        unfold bit_set. rewrite bit_test_assign_eq.
        -- destruct ((coff + a <=? coff + a) && _) eqn:E; [reflexivity | bool_lia].
        -- apply bit_test_in_range in Ht. unfold bit_size in *. lia.
      * unfold bit_set. rewrite bit_test_assign_ne by congruence.
        destruct ((coff + (a + 1) <=? p) && _) eqn:E1;
          destruct ((coff + a <=? p) && _) eqn:E2; try reflexivity; bool_lia.
    + split; [exact Hlen |]. split; [lia |]. split; [intros; lia |].
      split; [intros _; exact Ht |].
      intros p. destruct ((coff + a <=? p) && (p <? coff + a)) eqn:E;
        [bool_lia | reflexivity].
Qed.

Lemma foldl_clear_other (coff : Z) (js : list Z) (t : list bool) (p : Z) :
  (∀ j, In j js → coff + j ≠ p) →
  bit_test (foldl (fun t j => bit_clear t (coff + j)) t js) p = bit_test t p.
Proof.
  revert t. induction js as [| j js IH]; intros t H; simpl; [reflexivity |].
  rewrite IH by (intros k Hk; apply H; right; exact Hk).
  unfold bit_clear. apply bit_test_assign_ne. apply H. left. reflexivity.
Qed.

Lemma length_foldl_clear (coff : Z) (js : list Z) (t : list bool) :
  length (foldl (fun t j => bit_clear t (coff + j)) t js) = length t.
Proof.
  revert t. induction js as [| j js IH]; intros t; simpl; [reflexivity |].
  rewrite IH. unfold bit_clear. apply length_bit_assign.
Qed.

Section FirstCores.

Variable cores : list nat.
Variable cc : list Z.
Variable free : list bool.
Variable nsel : nat.
Variable first : Z.

Local Abbreviation coff := (cr_get_coremap_offset cores).

Lemma cores_below (n i j : Z) :
  0 <= n < i → 0 <= j < node_cores cores n → coff n + j < coff i.
Proof.
  intros Hn Hj.
  pose proof (coremap_offset_succ cores n ltac:(lia)).
  pose proof (coremap_offset_mono cores (n + 1) i ltac:(lia)). lia.
Qed.

(** A node met once the array is exhausted is left alone. *)
Lemma first_cores_step_done (i : Z) (s : first_state) :
  0 <= first <= i → fc_done s = true →
  fc_inv cores cc free nsel first i s →
  fc_inv cores cc free nsel first (i + 1) (first_cores_step cores cc s i).
Proof.
  intros Hi Hd (Hls & Hlc & Hlt & Hoff & Hdone & Hrange & Htmp & Hcore & Hchar & Hexact).
  unfold first_cores_step. rewrite Hd.
  assert (Hunset : bit_test (fc_sel s) i = false).
  { destruct (bit_test (fc_sel s) i) eqn:E; [| reflexivity].
    apply Hrange in E. lia. }
  pose proof (coremap_offset_mono cores i (i + 1) ltac:(lia)) as Hmono.
  unfold fc_inv. repeat apply conj.
  - exact Hls.
  - exact Hlc.
  - exact Hlt.
  - rewrite node_rank_next_unset by (try assumption; lia). exact Hoff.
  - exact Hdone.
  - intros n H. apply Hrange in H. lia.
  - intros p Hp. apply Htmp. lia.
  - intros p Hp. apply Hcore. lia.
  - intros n Hn. destruct (Z.eq_dec n i) as [-> | Hne].
    + split; [congruence |].
      intros [Hnz _]. rewrite <- Hoff in Hnz. rewrite Hd in Hdone.
      symmetry in Hdone. apply Z.eqb_eq in Hdone. contradiction.
    + apply Hchar. lia.
  - exact Hexact.
Qed.

(** A node met while the array has entries left is selected exactly when
    its first cores fit the entry. *)
Lemma first_cores_step_walk (i : Z) (s : first_state) :
  0 <= first <= i → i < Z.of_nat nsel → fc_done s = false →
  fc_inv cores cc free nsel first i s →
  fc_inv cores cc free nsel first (i + 1) (first_cores_step cores cc s i).
Proof.
  intros Hi Hin Hd
    (Hls & Hlc & Hlt & Hoff & Hdone & Hrange & Htmp & Hcore & Hchar & Hexact).
  unfold first_cores_step. rewrite Hd.
  rewrite Hd in Hdone. symmetry in Hdone. apply Z.eqb_neq in Hdone.
  set (want := cnt_at cc (node_offset s)) in *.
  rewrite (coremap_offset_succ cores i) by lia.
  pose proof (coremap_offset_succ cores i ltac:(lia)) as Hsucc.
  pose proof (node_cores_nonneg cores i) as Hnn.
  assert (Hunset : bit_test (fc_sel s) i = false).
  { destruct (bit_test (fc_sel s) i) eqn:E; [| reflexivity].
    apply Hrange in E. lia. }
  set (local_cores := if node_cores cores i <? want then -1 else want).
  pose proof (mark_first_cores_spec (fc_tmpcore s) (coff i)
                (Z.to_nat local_cores) 0 (fc_core s) ltac:(congruence)) as Hmark.
  cbv zeta in Hmark.
  destruct (mark_first_cores (fc_tmpcore s) (coff i)
              (seqZ' 0 (Z.to_nat local_cores)) (fc_core s) 0) as [core jnx].
  simpl in Hmark. destruct Hmark as (Hmlen & Hjnx & Hfree & Hstop & Hbits).
  assert (Hcore' : ∀ p, coff (i + 1) <= p → bit_test core p = false).
  { intros p Hp. rewrite Hbits.
    destruct ((coff i + 0 <=? p) && (p <? coff i + jnx)) eqn:E.
    - unfold local_cores in Hjnx.
      destruct (node_cores cores i <? want) eqn:Hw; bool_lia.
    - apply Hcore. lia. }
  assert (Hkeep : ∀ n j, first <= n < i → 0 <= j < node_cores cores n →
                         bit_test core (coff n + j) = bit_test (fc_core s) (coff n + j)).
  { intros n j Hn Hj. rewrite Hbits.
    pose proof (cores_below n i j ltac:(lia) Hj).
    destruct ((coff i + 0 <=? coff n + j) && _) eqn:E; [bool_lia | reflexivity]. }
  destruct (jnx <? want) eqn:Hskip.
  - (* the node is skipped *)
    assert (Hnofit : ¬ first_cores_fit cores free i want).
    { intros [Hle Hall]. unfold local_cores in Hjnx, Hstop.
      destruct (node_cores cores i <? want) eqn:Hw; [lia |].
      assert (Hj : bit_test (fc_tmpcore s) (coff i + jnx) = false)
        by (apply Hstop; lia).
      rewrite Htmp in Hj by lia. rewrite Hall in Hj by lia. discriminate Hj. }
    unfold fc_inv. simpl. repeat apply conj.
    + exact Hls.
    + congruence.
    + exact Hlt.
    + rewrite node_rank_next_unset by (try assumption; lia). exact Hoff.
    + symmetry. apply Z.eqb_neq. exact Hdone.
    + intros n H. apply Hrange in H. lia.
    + intros p Hp. apply Htmp. lia.
    + exact Hcore'.
    + intros n Hn. destruct (Z.eq_dec n i) as [-> | Hne].
      * split; [congruence |].
        intros [_ Hfit]. rewrite <- Hoff in Hfit. contradiction.
      * apply Hchar. lia.
    + intros n j Hn Hj. rewrite <- (Hexact n j Hn Hj).
      apply Hkeep; [| exact Hj]. apply Hrange in Hn. lia.
  - (* the node is selected *)
    assert (Hwant : want <= node_cores cores i).
    { unfold local_cores in Hjnx.
      destruct (node_cores cores i <? want) eqn:Hw; lia. }
    assert (Hlocal : local_cores = want).
    { unfold local_cores. destruct (node_cores cores i <? want) eqn:Hw; [lia |].
      reflexivity. }
    rewrite Hlocal in *.
    assert (Hfit : first_cores_fit cores free i want).
    { split; [exact Hwant |]. intros j Hj.
      rewrite <- Htmp by lia. apply Hfree. lia. }
    assert (Hsel_i : bit_test (bit_set (fc_sel s) i) i = true).
    { unfold bit_set. apply bit_test_assign_eq. unfold bit_size. lia. }
    assert (Hsel_o : ∀ n, n ≠ i →
              bit_test (bit_set (fc_sel s) i) n = bit_test (fc_sel s) n).
    { intros n Hn. unfold bit_set. apply bit_test_assign_ne. congruence. }
    unfold fc_inv. simpl. repeat apply conj.
    + unfold bit_set. rewrite length_bit_assign. exact Hls.
    + congruence.
    + rewrite length_foldl_clear. exact Hlt.
    + rewrite node_rank_set_next by (unfold bit_size; lia). lia.
    + reflexivity.
    + intros n H. destruct (Z.eq_dec n i) as [-> | Hne]; [lia |].
      rewrite Hsel_o in H by exact Hne. apply Hrange in H. lia.
    + intros p Hp. rewrite foldl_clear_other.
      * apply Htmp. lia.
      * intros j Hj. apply seqZ'_In in Hj. lia.
    + exact Hcore'.
    + intros n Hn. destruct (Z.eq_dec n i) as [-> | Hne].
      * rewrite node_rank_set_below by lia. rewrite <- Hoff. fold want.
        split; [intros _; split; assumption | intros _; exact Hsel_i].
      * rewrite Hsel_o by exact Hne.
        rewrite node_rank_set_below by lia. apply Hchar. lia.
    + intros n j Hn Hj. destruct (Z.eq_dec n i) as [-> | Hne].
      * rewrite node_rank_set_below by lia. rewrite <- Hoff. fold want.
        rewrite Hbits. rewrite Hcore by lia.
        destruct ((coff i + 0 <=? coff i + j) && (coff i + j <? coff i + jnx)) eqn:E;
          destruct (j <? want) eqn:E2; try reflexivity; bool_lia.
      * rewrite Hsel_o in Hn by exact Hne.
        pose proof (Hrange n Hn) as Hr.
        rewrite node_rank_set_below by lia.
        rewrite <- (Hexact n j Hn Hj). apply Hkeep; [lia | exact Hj].
Qed.

Lemma first_cores_step_inv (i : Z) (s : first_state) :
  0 <= first <= i → i < Z.of_nat nsel →
  fc_inv cores cc free nsel first i s →
  fc_inv cores cc free nsel first (i + 1) (first_cores_step cores cc s i).
Proof.
  intros Hi Hin Hinv. destruct (fc_done s) eqn:Hd.
  - apply first_cores_step_done; assumption.
  - apply first_cores_step_walk; assumption.
Qed.

(** The walk over the nodes [a .. a + m - 1]. *)
Lemma first_cores_walk_inv (m : nat) (a : Z) (s : first_state) :
  0 <= first <= a → a + Z.of_nat m <= Z.of_nat nsel →
  fc_inv cores cc free nsel first a s →
  fc_inv cores cc free nsel first (a + Z.of_nat m)
    (foldl (first_cores_step cores cc) s (seqZ' a m)).
Proof.
  revert a s. induction m as [| m IH]; intros a s Ha Hm Hinv.
  - simpl. rewrite Z.add_0_r. exact Hinv.
  - rewrite seqZ'_S. simpl.
    replace (a + Z.of_nat (S m)) with ((a + 1) + Z.of_nat m) by lia.
    apply IH; [lia | lia |].
    apply first_cores_step_inv; [lia | lia | exact Hinv].
Qed.

End FirstCores.

(** ** The first-cores strategy *)

Lemma bit_test_alloc (n p : Z) : bit_test (bit_alloc n) p = false.
Proof.
  unfold bit_test, bit_alloc. destruct (p <? 0); [reflexivity |].
  destruct (replicate (Z.to_nat n) false !! Z.to_nat p) as [x |] eqn:E;
    [| reflexivity].
  apply lookup_replicate in E as [-> _]. reflexivity.
Qed.

Lemma length_bit_alloc_size (b : list bool) :
  length (bit_alloc (bit_size b)) = length b.
Proof. unfold bit_alloc, bit_size. rewrite length_replicate. lia. Qed.

Lemma bit_test_not (b : list bool) (p : Z) :
  0 <= p < bit_size b → bit_test (bit_not b) p = negb (bit_test b p).
Proof.
  unfold bit_size, bit_test, bit_not. intros H.
  destruct (p <? 0) eqn:E; [lia |].
  rewrite list_lookup_fmap.
  destruct (lookup_lt_is_Some_2 b (Z.to_nat p)) as [x Hx]; [lia |].
  rewrite Hx. reflexivity.
Qed.

(** The in/out core bitmap is empty when the walk starts. *)
Lemma bit_test_and_not_self (b : list bool) (p : Z) :
  bit_test (bit_and b (bit_not (bit_copy b))) p = false.
Proof.
  destruct (bit_test (bit_and b (bit_not (bit_copy b))) p) eqn:E; [| reflexivity].
  pose proof (bit_test_in_range _ _ E) as Hr.
  unfold bit_and, bit_size in Hr. rewrite length_bit_map2 in Hr.
  unfold bit_and in E. rewrite bit_test_map2 in E by (unfold bit_size; lia).
  unfold bit_copy in E. rewrite bit_test_not in E by (unfold bit_size; lia).
  destruct (bit_test b p); discriminate E.
Qed.

Lemma node_rank_alloc (n i : Z) : node_rank (bit_alloc n) i = 0.
Proof.
  unfold node_rank, bit_alloc. rewrite take_replicate.
  generalize (Z.to_nat i `min` Z.to_nat n)%nat as k.
  induction k as [| k IH]; simpl; [reflexivity | lia].
Qed.

Lemma bit_ffs_lt (b : list bool) : bit_ffs b < bit_size b ∨ b = [].
Proof.
  unfold bit_ffs. destruct (ffs_from_bounds b 0) as [H | H].
  - destruct b; [right; reflexivity | left; unfold bit_size; simpl length; lia].
  - left. lia.
Qed.

Section FirstCoresResult.

Variable cores : list nat.
Variable make_core_bitmap : list bool -> list bool.

(** The selection of [_pick_first_cores]: the nodes are walked in ascending
    order from the first to the last candidate, and a node is selected
    exactly when the entry of its rank is not zero and its first cores fit
    the entry; these cores, and no other core of the node, are then set in
    the core bitmap. *)
Lemma pick_first_cores_greedy (avail_bitmap : list bool) (node_cnt : Z)
    (cc : list Z) (core_bitmap : option (list bool)) :
  cnt_at cc 0 ≠ 0 →
  let free := bit_not (_spec_core_filter make_core_bitmap avail_bitmap core_bitmap) in
  let r := _pick_first_cores cores make_core_bitmap avail_bitmap node_cnt
             (Some cc) core_bitmap in
  ∃ sel core,
    selection r = (if cnt_at cc (bit_set_count sel) =? 0 then Some sel else None)
    ∧ core_after r = Some core
    ∧ (∀ n, bit_test sel n = true ↔
            0 <= n
            ∧ bit_ffs avail_bitmap <= n <= bit_fls avail_bitmap
            ∧ cnt_at cc (node_rank sel n) ≠ 0
            ∧ first_cores_fit cores free n (cnt_at cc (node_rank sel n)))
    ∧ (∀ n j, bit_test sel n = true → 0 <= j < node_cores cores n →
              bit_test core (cr_get_coremap_offset cores n + j)
              = (j <? cnt_at cc (node_rank sel n))).
Proof.
  intros Hcc free r. unfold r, _pick_first_cores.
  apply Z.eqb_neq in Hcc. rewrite Hcc. apply Z.eqb_neq in Hcc.
  fold free.
  set (first := bit_ffs avail_bitmap).
  set (last := if first >=? 0 then bit_fls avail_bitmap else first - 1).
  set (s0 := mk_first_state _ _ _ _ _ _).
  unfold range_incl.
  set (m := Z.to_nat (last - first + 1)).
  destruct (Z_lt_le_dec first 0) as [Hneg | Hpos].
  - (* no candidate node *)
    assert (Hm : m = 0%nat) by (unfold m, last; destruct (first >=? 0) eqn:E; lia).
    rewrite Hm. simpl.
    exists (bit_alloc (bit_size avail_bitmap)), (fc_core s0).
    assert (Hcnt : bit_set_count (bit_alloc (bit_size avail_bitmap)) = 0).
    { rewrite <- (node_rank_all _ 0) by (intros; try apply bit_test_alloc; lia).
      apply node_rank_alloc. }
    rewrite Hcnt. apply Z.eqb_neq in Hcc. rewrite Hcc.
    repeat apply conj; try reflexivity.
    + intros n. rewrite bit_test_alloc. split; [discriminate |].
      intros (Hn0 & Hr & _).
      assert (Hfls : bit_fls avail_bitmap = -1).
      { unfold first, bit_ffs in Hneg.
        pose proof (ffs_from_none avail_bitmap 0 ltac:(lia) Hneg) as Hnone.
        unfold bit_fls. clear - Hnone.
        generalize 0 as k. induction avail_bitmap as [| x b IH]; intros k;
          simpl in *; [reflexivity |].
        destruct x; simpl in Hnone; [lia |]. rewrite IH by exact Hnone.
        reflexivity. }
      lia.
    + intros n j Hn. rewrite bit_test_alloc in Hn. discriminate Hn.
  - (* the walk *)
    assert (Hinit : fc_inv cores cc free (length avail_bitmap) first first s0).
    { unfold fc_inv, s0. simpl. repeat apply conj.
      - apply length_bit_alloc_size.
      - unfold bit_and. rewrite length_bit_map2. unfold free, bit_not.
        rewrite length_map. reflexivity.
      - reflexivity.
      - rewrite node_rank_alloc. reflexivity.
      - symmetry. apply Z.eqb_neq. exact Hcc.
      - intros n H. rewrite bit_test_alloc in H. discriminate H.
      - reflexivity.
      - intros p _. apply bit_test_and_not_self.
      - intros n Hn. lia.
      - intros n j H. rewrite bit_test_alloc in H. discriminate H. }
    assert (Hlast : first + Z.of_nat m <= Z.of_nat (length avail_bitmap)).
    { unfold m, last. replace (first >=? 0) with true by lia.
      pose proof (bit_fls_lt avail_bitmap) as Hf. unfold bit_size in Hf.
      pose proof (ffs_from_bounds avail_bitmap 0) as Hb.
      unfold first, bit_ffs, bit_size in *. lia. }
    pose proof (first_cores_walk_inv cores cc free (length avail_bitmap) first
                  m first s0 ltac:(lia) Hlast Hinit)
      as (Hls & Hlc & Hlt & Hoff & Hdone & Hrange & Htmp & Hcore & Hchar & Hexact).
    set (s := foldl (first_cores_step cores cc) s0 (seqZ' first m)) in *.
    exists (fc_sel s), (fc_core s). simpl.
    assert (Hcount : node_offset s = bit_set_count (fc_sel s)).
    { rewrite Hoff. apply node_rank_all; [lia |].
      intros n Hn. destruct (bit_test (fc_sel s) n) eqn:E; [| reflexivity].
      apply Hrange in E. lia. }
    rewrite <- Hcount.
    repeat apply conj.
    + destruct (cnt_at cc (node_offset s) =? 0); reflexivity.
    + reflexivity.
    + intros n. split.
      * intros Hn. pose proof (Hrange n Hn) as Hr.
        destruct (Hchar n Hr) as [Hc _]. destruct (Hc Hn) as [H1 H2].
        split; [lia |]. split; [| split; assumption].
        unfold m, last in Hr. replace (first >=? 0) with true in Hr by lia. lia.
      * intros (Hn0 & Hr & H1 & H2). apply Hchar; [| split; assumption].
        unfold m, last. replace (first >=? 0) with true by lia. lia.
    + exact Hexact.
Qed.

End FirstCoresResult.

(** C7, as the code has it: under the FIRST_CORES flag with a per-node
    [core_cnt] array the planner is [_pick_first_cores], which does not read
    [node_cnt].  It walks the nodes in ascending index order from the first
    to the last candidate; the node met when [k] nodes are selected is
    selected exactly when [core_cnt[k]] is not zero (the array is not
    exhausted), the node has that many cores and its cores of local index
    0 to [core_cnt[k] - 1] are all free; exactly these cores of a selected
    node are reserved.  If an entry remains unsatisfied the result is no
    selection. *)
Theorem first_cores_reservation (cores : list nat)
    (make_core_bitmap : list bool -> list bool)
    (switch_record_table : option (list switch_record)) (first_cores_flag : Z)
    (resv_desc_ptr : resv_desc_msg) (node_cnt : Z) (avail_bitmap : list bool)
    (core_bitmap : option (list bool)) (cc : list Z) :
  core_cnt resv_desc_ptr = Some cc →
  Z.land (flags resv_desc_ptr) first_cores_flag ≠ 0 →
  cnt_at cc 0 ≠ 0 →
  let free := bit_not (_spec_core_filter make_core_bitmap avail_bitmap core_bitmap) in
  ∃ r sel core,
    (∀ any_node_cnt,
       select_p_resv_test cores make_core_bitmap switch_record_table
         first_cores_flag resv_desc_ptr any_node_cnt avail_bitmap core_bitmap
       = Some r)
    ∧ selection r = (if cnt_at cc (bit_set_count sel) =? 0 then Some sel else None)
    ∧ core_after r = Some core
    ∧ (∀ n, bit_test sel n = true ↔
            0 <= n
            ∧ bit_ffs avail_bitmap <= n <= bit_fls avail_bitmap
            ∧ cnt_at cc (node_rank sel n) ≠ 0
            ∧ first_cores_fit cores free n (cnt_at cc (node_rank sel n)))
    ∧ (∀ n j, bit_test sel n = true → 0 <= j < node_cores cores n →
              bit_test core (cr_get_coremap_offset cores n + j)
              = (j <? cnt_at cc (node_rank sel n))).
Proof.
  intros Hcc Hflag Hfirst free.
  destruct (pick_first_cores_greedy cores make_core_bitmap avail_bitmap node_cnt
              cc core_bitmap Hfirst) as (sel & core & Hsel & Hcore & Hchar & Hexact).
  exists (_pick_first_cores cores make_core_bitmap avail_bitmap node_cnt (Some cc)
            core_bitmap), sel, core.
  split; [| split; [exact Hsel | split; [exact Hcore | split; assumption]]].
  intros any_node_cnt. unfold select_p_resv_test. rewrite Hcc.
  apply Z.eqb_neq in Hflag. rewrite Hflag. reflexivity.
Qed.

Lemma first_cores_reservation_witness :
  ∃ r sel core,
    select_p_resv_test four_nodes (every_core four_nodes) None 65536
      (mk_resv_desc_msg (Some [2; 2; 0]) 65536) 2 [true; true; true; true] None
    = Some r
    ∧ selection r = (if cnt_at [2; 2; 0] (bit_set_count sel) =? 0
                     then Some sel else None)
    ∧ core_after r = Some core.
Proof.
  destruct (first_cores_reservation four_nodes (every_core four_nodes) None 65536
              (mk_resv_desc_msg (Some [2; 2; 0]) 65536) 2 [true; true; true; true]
              None [2; 2; 0] eq_refl)
    as (r & sel & core & Hr & Hsel & Hcore & _).
  - vm_compute. discriminate.
  - vm_compute. discriminate.
  - exists r, sel, core. split; [apply Hr | split; assumption].
Defined.

(** C7, as stated, fails.  With [node_cnt] 1 and two entries the walk goes
    on after the first node and selects two nodes.  With the core 0 of node
    0 not available, node 0 has three free cores, more than the two wanted,
    and is skipped all the same: the cores are not taken from the lowest
    available one. *)
Lemma first_cores_ignores_node_cnt :
  (∃ r, select_p_resv_test four_nodes (every_core four_nodes) None 65536
          (mk_resv_desc_msg (Some [1; 1; 0]) 65536) 1 [true; true; true; true] None
        = Some r
        ∧ selection r = Some [true; true; false; false]
        ∧ bit_set_count [true; true; false; false] = 2)
  ∧ (∃ r, select_p_resv_test four_wide_nodes (every_core four_wide_nodes) None 65536
            (mk_resv_desc_msg (Some [2; 0]) 65536) 1 [true; true; true; true]
            (Some (bit_set (bit_alloc 16) 0))
          = Some r
          ∧ selection r = Some [false; true; false; false]
          ∧ count_cores
              (bit_test
                 (bit_not (_spec_core_filter (every_core four_wide_nodes)
                             [true; true; true; true]
                             (Some (bit_set (bit_alloc 16) 0)))))
              0 4 = 3).
Proof.
  split.
  - eexists. split; [vm_compute; reflexivity |]. split; reflexivity.
  - eexists. split; [vm_compute; reflexivity |]. split; [reflexivity |].
    vm_compute. reflexivity.
Qed.

(** ** Scenarios *)

(** Node 0 leaves a job of two nodes: the job keeps node 1 with per-node
    arrays of length 1, the memory of the job is given back on node 0, the
    node state of node 0 is back to available and the row bitmap holds the
    cores of node 1 only. *)
Example remove_one_node_scenario :
  let r := _rm_job_from_one_node [2; 2]%nat two_node_engine two_node_job_record 0 in
  r.1 = SLURM_SUCCESS
  ∧ resrcs r.2 !! 1%nat
    = Some (mk_job_resources (Some [true; true]) None (Some [2]) [0] [100] [0]
              4 1 (Some [false; true]) 1 0)
  ∧ select_node_usage r.2
    = [mk_node_use_record 0 NODE_CR_AVAILABLE; mk_node_use_record 100 1]
  ∧ select_part_record r.2
    = [mk_part_res_record 0
         (Some [mk_part_row_data (Some [false; false; true; true]) 1 [Some 1%nat]])].
Proof. vm_compute. repeat split. Qed.

(** First cores, two entries of two cores on four nodes of two cores: the
    two lowest cores of nodes 0 and 1 are reserved and these two nodes are
    selected. *)
Example first_cores_scenario :
  _pick_first_cores four_nodes (every_core four_nodes) [true; true; true; true] 2
    (Some [2; 2; 0]) None
  = mk_resv_result (Some [true; true; false; false]) [false; false; true; true]
      (Some [true; true; true; true; false; false; false; false]).
Proof. vm_compute. reflexivity. Qed.

(** An aggregate request of 10 cores on 4 nodes of 4 cores behind one
    switch: the first sweep takes 2 cores on each node and the second sweep
    one more on nodes 0 and 1; exactly 10 cores are reserved. *)
Example aggregate_scenario :
  ∃ r, select_p_resv_test four_wide_nodes (every_core four_wide_nodes)
         (Some [mk_switch_record 0 [true; true; true; true]]) 65536
         (mk_resv_desc_msg (Some [10; 0]) 0) 4 [true; true; true; true] None
       = Some r
       ∧ selection r = Some [true; true; true; true]
       ∧ core_after r
         = Some [true; true; true; false; true; true; true; false;
                 true; true; false; false; true; true; false; false]
       ∧ bit_set_count (the_bits (core_after r)) = 10.
Proof. eexists. split; [vm_compute; reflexivity |]. repeat split. Qed.

(** ** First and last set bits, counts *)

Lemma ffs_from_least (b : list bool) (k i : Z) :
  0 <= k → k <= i → b !! Z.to_nat (i - k) = Some true →
  k <= ffs_from k b <= i.
Proof.
  revert k. induction b as [| x b IH]; intros k Hk Hi H; simpl in *.
  - rewrite lookup_nil in H. discriminate H.
  - destruct x; [lia |].
    destruct (Z.eq_dec i k) as [-> | Hne].
    + replace (k - k) with 0 in H by lia. discriminate H.
    + replace (Z.to_nat (i - k)) with (S (Z.to_nat (i - (k + 1)))) in H by lia.
      simpl in H. specialize (IH (k + 1) ltac:(lia) ltac:(lia) H). lia.
Qed.

(** No bit is set below the first set bit. *)
Lemma bit_ffs_least (b : list bool) (i : Z) :
  bit_test b i = true → 0 <= bit_ffs b <= i.
Proof.
  intros H. apply bit_test_lookup in H as [Hi H]. unfold bit_ffs.
  apply ffs_from_least; [lia | lia |]. rewrite Z.sub_0_r. exact H.
Qed.

Lemma fls_from_greatest (b : list bool) (k i : Z) :
  0 <= k → k <= i → b !! Z.to_nat (i - k) = Some true →
  i <= fls_from k b.
Proof.
  revert k. induction b as [| x b IH]; intros k Hk Hi H; simpl in *.
  - rewrite lookup_nil in H. discriminate H.
  - destruct (Z.eq_dec i k) as [-> | Hne].
    + replace (k - k) with 0 in H by lia. simpl in H. injection H as ->.
      destruct (0 <=? fls_from (k + 1) b) eqn:E; [| lia].
      pose proof (fls_from_lt b (k + 1) ltac:(lia)).
      assert (Hge : k + 1 <= fls_from (k + 1) b ∨ fls_from (k + 1) b = -1).
      { clear. generalize (k + 1) as a. induction b as [| y b IH]; intros a; simpl.
        - right. reflexivity.
        - destruct (0 <=? fls_from (a + 1) b) eqn:E.
          + destruct (IH (a + 1)) as [H | H]; [left; lia | lia].
          + destruct y; [left; lia | right; reflexivity]. }
      lia.
    + replace (Z.to_nat (i - k)) with (S (Z.to_nat (i - (k + 1)))) in H by lia.
      simpl in H. specialize (IH (k + 1) ltac:(lia) ltac:(lia) H).
      destruct (0 <=? fls_from (k + 1) b) eqn:E; lia.
Qed.

(** No bit is set above the last set bit. *)
Lemma bit_fls_greatest (b : list bool) (i : Z) :
  bit_test b i = true → i <= bit_fls b.
Proof.
  intros H. apply bit_test_lookup in H as [Hi H]. unfold bit_fls.
  apply fls_from_greatest; [lia | lia |]. rewrite Z.sub_0_r. exact H.
Qed.

(** The indices of the loop [for (i = first; i <= last; i++)] over a bit
    string hold every set bit. *)
Lemma set_bit_in_range (b : list bool) (i : Z) :
  bit_test b i = true → In i (range_incl (bit_ffs b) (bit_fls b)).
Proof.
  intros H. unfold range_incl. apply seqZ'_In.
  pose proof (bit_ffs_least b i H). pose proof (bit_fls_greatest b i H). lia.
Qed.

Lemma popcount_set_clear (b : list bool) (i : nat) :
  b !! i = Some false → popcount (<[i := true]> b) = S (popcount b).
Proof.
  revert i. induction b as [| x b IH]; intros i H.
  - discriminate H.
  - destruct i as [| i]; simpl in *.
    + injection H as ->. reflexivity.
    + rewrite (IH i H). destruct x; simpl; lia.
Qed.

Lemma popcount_bit_set (b : list bool) (i : Z) :
  0 <= i < bit_size b → bit_test b i = false →
  popcount (bit_set b i) = S (popcount b).
Proof.
  unfold bit_size, bit_test, bit_set, bit_assign. intros Hi H.
  destruct (i <? 0) eqn:E; [lia |].
  destruct (lookup_lt_is_Some_2 b (Z.to_nat i)) as [x Hx]; [lia |].
  rewrite Hx in H. simpl in H. subst x. apply popcount_set_clear, Hx.
Qed.

Lemma node_rank_mono (sel : list bool) (a b : Z) :
  a <= b → node_rank sel a <= node_rank sel b.
Proof.
  intros H. unfold node_rank.
  assert (Hle : (Z.to_nat a <= Z.to_nat b)%nat) by lia.
  revert Hle. generalize (Z.to_nat a) as m, (Z.to_nat b) as n. clear.
  intros m n Hle. apply inj_le. revert m n Hle.
  induction sel as [| x sel IH]; intros m n Hle.
  - rewrite !take_nil. lia.
  - destruct m as [| m]; [simpl; lia |].
    destruct n as [| n]; [lia |].
    simpl. specialize (IH m n). lia.
Qed.

Lemma node_rank_next_set (sel : list bool) (i : Z) :
  bit_test sel i = true → node_rank sel (i + 1) = node_rank sel i + 1.
Proof.
  intros H. apply bit_test_lookup in H as [Hi H]. unfold node_rank.
  replace (Z.to_nat (i + 1)) with (S (Z.to_nat i)) by lia.
  rewrite (take_S_r _ _ true H), popcount_app. simpl. lia.
Qed.

Lemma node_rank_le_count (sel : list bool) (i : Z) :
  node_rank sel i <= bit_set_count sel.
Proof.
  unfold node_rank, bit_set_count. apply inj_le.
  rewrite <- (take_drop (Z.to_nat i) sel) at 2. rewrite popcount_app. lia.
Qed.

(** The rank does not move over a stretch without set bits. *)
Lemma node_rank_gap (sel : list bool) (a b : Z) :
  0 <= a <= b → (∀ i, a <= i < b → bit_test sel i = false) →
  node_rank sel b = node_rank sel a.
Proof.
  intros [Ha Hab] H.
  replace b with (a + Z.of_nat (Z.to_nat (b - a))) in * by lia.
  induction (Z.to_nat (b - a)) as [| m IH].
  - f_equal. lia.
  - replace (a + Z.of_nat (S m)) with (a + Z.of_nat m + 1) in * by lia.
    rewrite node_rank_next_unset; [apply IH | lia | apply H; lia].
    + lia.
    + intros i Hi. apply H. lia.
Qed.

(** ** [_sequential_pick], whole nodes *)

Lemma seq_full_step_keeps (avail_bitmap : list bool) (node_cnt : Z)
    (s s' : list bool * list bool * Z) :
  seq_full_inv avail_bitmap node_cnt s → seq_full_step s = inl s' →
  seq_full_inv avail_bitmap node_cnt s'.
Proof.
  destruct s as [[avail sel] n]. unfold seq_full_step.
  intros (c & Hc & Hla & Hls & Ha & Hs & Hn & Hp & Hn0) H. simpl in *.
  destruct (n =? 0) eqn:En; [discriminate H |].
  destruct (bit_ffs avail <? 0) eqn:Ef; [discriminate H |].
  injection H as <-.
  set (inx := bit_ffs avail) in *.
  assert (Hset : bit_test avail inx = true) by (apply bit_ffs_set; lia).
  pose proof Hset as Hset'. rewrite Ha in Hset'.
  apply andb_prop in Hset' as [Hci Hav].
  assert (Hgap : ∀ i, c <= i < inx → bit_test avail_bitmap i = false).
  { intros i Hi. destruct (bit_test avail_bitmap i) eqn:E; [| reflexivity].
    assert (Hi' : bit_test avail i = true).
    { rewrite Ha, E. replace (c <=? i) with true by lia. reflexivity. }
    apply bit_ffs_least in Hi'. fold inx in Hi'. lia. }
  assert (Hrank : node_rank avail_bitmap (inx + 1) = node_rank avail_bitmap c + 1).
  { rewrite node_rank_next_set by exact Hav. f_equal.
    apply node_rank_gap; [lia | exact Hgap]. }
  assert (Hin : 0 <= inx < bit_size avail).
  { apply bit_test_in_range, Hset. }
  exists (inx + 1). simpl. repeat apply conj.
  - lia.
  - unfold bit_clear. rewrite length_bit_assign. exact Hla.
  - unfold bit_set. rewrite length_bit_assign. exact Hls.
  - intros i. destruct (Z.eq_dec i inx) as [-> | Hne].
    + unfold bit_clear. rewrite bit_test_assign_eq by exact Hin.
      replace (inx + 1 <=? inx) with false by lia. reflexivity.
    + unfold bit_clear. rewrite bit_test_assign_ne by congruence. rewrite Ha.
      destruct (Z_lt_le_dec i c); [replace (c <=? i) with false by lia;
        replace (inx + 1 <=? i) with false by lia; reflexivity |].
      destruct (Z_lt_le_dec i inx).
      * rewrite Hgap by lia. rewrite !andb_false_r. reflexivity.
      * replace (c <=? i) with true by lia.
        replace (inx + 1 <=? i) with true by lia. reflexivity.
  - intros i. destruct (Z.eq_dec i inx) as [-> | Hne].
    + unfold bit_set. rewrite bit_test_assign_eq
        by (unfold bit_size in *; lia).
      rewrite Hav. replace (inx <? inx + 1) with true by lia. reflexivity.
    + unfold bit_set. rewrite bit_test_assign_ne by congruence. rewrite Hs.
      destruct (Z_lt_le_dec i c); [replace (i <? c) with true by lia;
        replace (i <? inx + 1) with true by lia; reflexivity |].
      destruct (Z_lt_le_dec i inx).
      * rewrite Hgap by lia. rewrite !andb_false_r. reflexivity.
      * replace (i <? c) with false by lia.
        replace (i <? inx + 1) with false by lia. reflexivity.
  - rewrite Hrank. lia.
  - rewrite popcount_bit_set.
    + rewrite Hrank. lia.
    + unfold bit_size in *. lia.
    + rewrite Hs. replace (inx <? c) with false by lia. reflexivity.
  - apply Z.eqb_neq in En. lia.
Qed.

(** A reservation of whole nodes without topology ([core_cnt] null): the
    request succeeds exactly when [avail_bitmap] holds [node_cnt] nodes at
    least, and the selection is then made of the [node_cnt] available nodes
    of lowest index.  The nodes walked are cleared in [avail_bitmap], which
    is therefore left empty by a request that fails, and the in/out core
    bitmap is not touched. *)
Theorem sequential_pick_whole_nodes (cores : list nat)
    (make_core_bitmap : list bool → list bool) (avail_bitmap : list bool)
    (node_cnt : Z) (core_bitmap : option (list bool)) :
  0 <= node_cnt →
  ∃ r, _sequential_pick cores make_core_bitmap avail_bitmap node_cnt None
         core_bitmap = Some r
       ∧ core_after r = core_bitmap
       ∧ (∀ i, bit_test (avail_after r) i
               = bit_test avail_bitmap i && (node_cnt <=? node_rank avail_bitmap i))
       ∧ match selection r with
         | Some sel =>
             node_cnt <= bit_set_count avail_bitmap
             ∧ bit_size sel = bit_size avail_bitmap
             ∧ bit_set_count sel = node_cnt
             ∧ ∀ i, bit_test sel i
                    = bit_test avail_bitmap i && (node_rank avail_bitmap i <? node_cnt)
         | None => bit_set_count avail_bitmap < node_cnt
         end.
Proof.
  intros Hn. unfold _sequential_pick.
  set (s0 := (avail_bitmap, bit_alloc (bit_size avail_bitmap), node_cnt)).
  destruct (iterate_terminates seq_full_step (fun _ => True)
              (fun s => popcount s.1.1) (S (popcount avail_bitmap)) s0)
    as [s Hs].
  { intros s s' _ H. split; [exact I |]. apply seq_full_step_decreases, H. }
  { exact I. }
  { simpl. lia. }
  rewrite Hs. simpl.
  assert (Hinv : seq_full_inv avail_bitmap node_cnt s).
  { apply (iterate_invariant seq_full_step (seq_full_inv avail_bitmap node_cnt)
             (S (popcount avail_bitmap)) s0 s).
    - intros s1 s2. apply seq_full_step_keeps.
    - intros s1 s2 H1 H2. destruct s1 as [[a1 l1] n1]. unfold seq_full_step in H2.
      repeat case_head H2; inversion H2; subst; exact H1.
    - exists 0. unfold s0. simpl. repeat apply conj.
      + lia.
      + reflexivity.
      + apply length_bit_alloc_size.
      + intros i. destruct (bit_test avail_bitmap i) eqn:E.
        * apply bit_test_in_range in E. replace (0 <=? i) with true by lia.
          reflexivity.
        * rewrite andb_false_r. reflexivity.
      + intros i. rewrite bit_test_alloc.
        destruct (bit_test avail_bitmap i) eqn:E.
        * apply bit_test_in_range in E. replace (i <? 0) with false by lia.
          reflexivity.
        * rewrite andb_false_r. reflexivity.
      + unfold node_rank. simpl. lia.
      + unfold node_rank. simpl.
        pose proof (node_rank_alloc (bit_size avail_bitmap)
                      (bit_size avail_bitmap)) as Hz.
        pose proof (node_rank_all (bit_alloc (bit_size avail_bitmap))
                      (bit_size avail_bitmap)) as Ha.
        unfold bit_set_count in Ha. rewrite <- Ha.
        * exact Hz.
        * unfold bit_size. lia.
        * intros. apply bit_test_alloc.
      + exact Hn.
    - exact Hs. }
  destruct (iterate_exit seq_full_step _ _ _ Hs) as [sl Hexit].
  destruct s as [[avail sel] remaining].
  destruct Hinv as (c & Hc & Hla & Hls & Ha & Hsel & Hrem & Hp & Hrem0).
  simpl in *.
  assert (Hstop : remaining = 0 ∨ bit_ffs avail < 0).
  { destruct sl as [[a1 l1] n1]. unfold seq_full_step in Hexit.
    repeat case_head Hexit; inversion Hexit; subst; lia. }
  assert (Hrank_lt : ∀ i, bit_test avail_bitmap i = true → i < c →
                          node_rank avail_bitmap i < node_rank avail_bitmap c).
  { intros i Hi Hlt. pose proof (node_rank_next_set _ _ Hi).
    pose proof (node_rank_mono avail_bitmap (i + 1) c ltac:(lia)). lia. }
  assert (Hrank_ge : ∀ i, c <= i →
                          node_rank avail_bitmap c <= node_rank avail_bitmap i).
  { intros i Hi. apply node_rank_mono, Hi. }
  eexists. split; [reflexivity |]. simpl. split; [reflexivity |].
  destruct (remaining =? 0) eqn:Er; simpl.
  - (* the request is satisfied *)
    apply Z.eqb_eq in Er. subst remaining.
    assert (Hcnt : node_rank avail_bitmap c = node_cnt) by lia.
    split.
    + intros i. rewrite Ha. destruct (bit_test avail_bitmap i) eqn:E;
        [| rewrite !andb_false_r; reflexivity].
      rewrite !andb_true_r, andb_true_l.
      destruct (Z_lt_le_dec i c).
      * pose proof (Hrank_lt i E ltac:(lia)).
        replace (c <=? i) with false by lia. symmetry. apply Z.leb_gt. lia.
      * pose proof (Hrank_ge i ltac:(lia)).
        replace (c <=? i) with true by lia. symmetry. apply Z.leb_le. lia.
    + repeat apply conj.
      * pose proof (node_rank_le_count avail_bitmap c). lia.
      * unfold bit_size. lia.
      * unfold bit_set_count. lia.
      * intros i. rewrite Hsel. destruct (bit_test avail_bitmap i) eqn:E;
          [| rewrite !andb_false_r; reflexivity].
        rewrite !andb_true_r, andb_true_l.
        destruct (Z_lt_le_dec i c).
        -- pose proof (Hrank_lt i E ltac:(lia)).
           replace (i <? c) with true by lia. symmetry. apply Z.ltb_lt. lia.
        -- pose proof (Hrank_ge i ltac:(lia)).
           replace (i <? c) with false by lia. symmetry. apply Z.ltb_ge. lia.
  - (* the nodes are used up *)
    apply Z.eqb_neq in Er. destruct Hstop as [Hz | Hffs]; [lia |].
    assert (Hnone : ∀ i, bit_test avail i = false).
    { intros i. destruct (bit_test avail i) eqn:E; [| reflexivity].
      apply bit_ffs_least in E. lia. }
    assert (Hall : node_rank avail_bitmap c = bit_set_count avail_bitmap).
    { apply node_rank_all; [lia |]. intros i Hi.
      specialize (Hnone i). rewrite Ha in Hnone.
      replace (c <=? i) with true in Hnone by lia. exact Hnone. }
    split.
    + intros i. rewrite Hnone. symmetry.
      destruct (bit_test avail_bitmap i) eqn:E; [| reflexivity].
      rewrite andb_true_l. apply Z.leb_gt.
      pose proof (node_rank_le_count avail_bitmap i). lia.
    + lia.
Qed.

(** Three nodes are asked of the five nodes 0, 2, 3, 5 and 6 of an
    eight-node cluster. *)
Lemma sequential_pick_whole_nodes_witness :
  0 <= 3
  ∧ ∃ r, _sequential_pick [2; 2; 2; 2; 2; 2; 2; 2]%nat (fun b => b)
           [true; false; true; true; false; true; true; false] 3 None None
         = Some r
         ∧ selection r
           = Some [true; false; true; true; false; false; false; false]
         ∧ avail_after r
           = [false; false; false; false; false; true; true; false].
Proof.
  split; [lia |].
  destruct (sequential_pick_whole_nodes [2; 2; 2; 2; 2; 2; 2; 2]%nat (fun b => b)
              [true; false; true; true; false; true; true; false] 3 None
              ltac:(lia)) as (r & Hr & _).
  exists r. split; [exact Hr |].
  vm_compute in Hr. injection Hr as <-. split; reflexivity.
Defined.

(** ** [_sequential_pick], partial nodes *)



Section SequentialPartial.

Variable cores : list nat.

Local Abbreviation coff := (cr_get_coremap_offset cores).


Variable make_core_bitmap : list bool → list bool.


End SequentialPartial.


(** ** [_make_core_bitmap_filtered] *)

Lemma coremap_offset_nonneg (cores : list nat) (n : Z) :
  0 <= cr_get_coremap_offset cores n.
Proof. unfold cr_get_coremap_offset. lia. Qed.

Lemma bit_test_foldl_set (ps : list Z) (b : list bool) (q : Z) :
  bit_test (foldl bit_set b ps) q = true
  ↔ bit_test b q = true ∨ (In q ps ∧ 0 <= q < bit_size b).
Proof.
  revert b. induction ps as [| p ps IH]; intros b; simpl.
  - split; [intros H; left; exact H | intros [H | [[] _]]; exact H].
  - rewrite IH. unfold bit_size, bit_set at 2. rewrite length_bit_assign.
    split.
    + intros [H | [H1 H2]].
      * destruct (bit_test b q) eqn:E; [left; reflexivity |]. right.
        destruct (Z.eq_dec p q) as [-> | Hne].
        -- split; [left; reflexivity |].
           apply bit_test_in_range in H. unfold bit_size, bit_set in H.
           rewrite length_bit_assign in H. exact H.
        -- unfold bit_set in H. rewrite bit_test_assign_ne in H by exact Hne.
           congruence.
      * right. split; [right; exact H1 | exact H2].
    + intros [H | [[-> | H1] H2]].
      * left. apply bit_test_set_mono, H.
      * left. unfold bit_set. apply bit_test_assign_eq. unfold bit_size. lia.
      * right. split; assumption.
Qed.

Section CoreBitmapFiltered.

Variable cores : list nat.

Local Abbreviation coff := (cr_get_coremap_offset cores).

(** The loop over the nodes of [_make_core_bitmap_filtered]. *)
Lemma mark_nodes_spec (node_map : list bool) (ns : list Z) (cm : list bool)
    (p : Z) :
  let mark := fun cm n =>
    if bit_test node_map n then
      foldl bit_set cm (seqZ' (coff n) (Z.to_nat (coff (n + 1) - coff n)))
    else cm in
  length (foldl mark cm ns) = length cm
  ∧ (bit_test (foldl mark cm ns) p = true
     ↔ bit_test cm p = true
       ∨ (0 <= p < bit_size cm
          ∧ ∃ n, In n ns ∧ bit_test node_map n = true
                 ∧ coff n <= p < coff (n + 1))).
Proof.
  intros mark. revert cm. induction ns as [| n ns IH]; intros cm; simpl.
  - split; [reflexivity |].
    split; [intros H; left; exact H | intros [H | (_ & n & [] & _)]; exact H].
  - destruct (IH (mark cm n)) as [IHl IHb].
    assert (Hlen : length (mark cm n) = length cm).
    { unfold mark. destruct (bit_test node_map n); [| reflexivity].
      apply length_foldl_bit_set. }
    split; [rewrite IHl; exact Hlen |].
    rewrite IHb. unfold bit_size. rewrite Hlen.
    assert (Hstep : bit_test (mark cm n) p = true
                    ↔ bit_test cm p = true
                      ∨ (0 <= p < Z.of_nat (length cm)
                         ∧ bit_test node_map n = true
                         ∧ coff n <= p < coff (n + 1))).
    { unfold mark. destruct (bit_test node_map n) eqn:E.
      - rewrite bit_test_foldl_set, seqZ'_In. unfold bit_size.
        pose proof (coremap_offset_nonneg cores n) as Hnn.
        split; intros [H | H]; try (left; exact H); right.
        + destruct H as [H1 H2]. split; [exact H2 |]. split; [reflexivity | lia].
        + destruct H as (H1 & _ & H2). split; [lia | exact H1].
      - split; [intros H; left; exact H |].
        intros [H | (_ & H & _)]; [exact H | discriminate H]. }
    rewrite Hstep. split.
    + intros [[H | (H1 & H2 & H3)] | (H1 & m & Hm & H2 & H3)].
      * left. exact H.
      * right. split; [exact H1 |]. exists n. split; [left; reflexivity |].
        split; assumption.
      * right. split; [exact H1 |]. exists m. split; [right; exact Hm |].
        split; assumption.
    + intros [H | (H1 & m & [-> | Hm] & H2 & H3)].
      * left. left. exact H.
      * left. right. split; [exact H1 |]. split; assumption.
      * right. split; [exact H1 |]. exists m. split; [exact Hm |].
        split; assumption.
Qed.

(** The core bitmap built for a node bitmap has one bit for each core of the
    nodes the node bitmap has a bit for.  Without the filter it is empty;
    with the filter its set bits are the cores of the nodes set in the node
    bitmap. *)
Theorem make_core_bitmap_filtered_cores (node_map : list bool) (filter p : Z) :
  let core_map := _make_core_bitmap_filtered cores node_map filter in
  bit_size core_map = coff (bit_size node_map)
  ∧ (bit_test core_map p = true
     ↔ filter ≠ 0
       ∧ ∃ n, bit_test node_map n = true ∧ coff n <= p < coff (n + 1)).
Proof.
  unfold _make_core_bitmap_filtered.
  set (cm0 := bit_alloc (coff (bit_size node_map))).
  assert (Hsize : bit_size cm0 = coff (bit_size node_map)).
  { unfold cm0, bit_size, bit_alloc. rewrite length_replicate.
    pose proof (coremap_offset_nonneg cores (Z.of_nat (length node_map))). lia. }
  destruct (filter =? 0) eqn:Ef; simpl.
  - split; [exact Hsize |]. unfold cm0. rewrite bit_test_alloc.
    apply Z.eqb_eq in Ef. split; [discriminate | intros [H _]; contradiction].
  - apply Z.eqb_neq in Ef.
    set (n_first := bit_ffs node_map).
    set (n_last := if n_first =? -1 then -2 else bit_fls node_map).
    destruct (mark_nodes_spec node_map (range_incl n_first n_last) cm0 p)
      as [Hlen Hbit].
    split; [unfold bit_size in *; rewrite Hlen; exact Hsize |].
    rewrite Hbit. unfold cm0 at 1. rewrite bit_test_alloc. split.
    + intros [H | (_ & n & _ & H1 & H2)]; [discriminate H |].
      split; [exact Ef |]. exists n. split; assumption.
    + intros (_ & n & H1 & H2). right.
      pose proof (bit_test_in_range _ _ H1) as Hn.
      pose proof (coremap_offset_nonneg cores n).
      pose proof (coremap_offset_mono cores (n + 1) (bit_size node_map)
                    ltac:(lia)).
      split; [lia |]. exists n. split; [| split; assumption].
      pose proof (bit_ffs_least _ _ H1) as Hf. fold n_first in Hf.
      unfold n_last. replace (n_first =? -1) with false by lia.
      apply set_bit_in_range, H1.
Qed.

(** ** [_get_avail_core_in_node] *)

Lemma count_cores_bounds (free : Z → bool) (c local_cores : Z) :
  0 <= count_cores free c local_cores <= Z.max 0 local_cores.
Proof.
  unfold count_cores. split; [lia |].
  pose proof (length_filter (fun i => free (c + i) = true)
                (seqZ' 0 (Z.to_nat local_cores))) as H.
  unfold seqZ' in H. rewrite length_map, length_seq in H. unfold seqZ'. lia.
Qed.

Lemma count_cores_all (free : Z → bool) (c local_cores : Z) :
  (∀ i, 0 <= i < local_cores → free (c + i) = true) →
  count_cores free c local_cores = Z.max 0 local_cores.
Proof.
  intros H. unfold count_cores.
  assert (Hlen : ∀ l : list Z, (∀ i, In i l → free (c + i) = true) →
                   length (filter (fun i => free (c + i) = true) l) = length l).
  { induction l as [| i l IH]; intros Hl; [reflexivity |].
    rewrite filter_cons. destruct (decide (free (c + i) = true)) as [_ | Hn].
    - simpl. f_equal. apply IH. intros j Hj. apply Hl. right. exact Hj.
    - exfalso. apply Hn, Hl. left. reflexivity. }
  rewrite Hlen.
  - unfold seqZ'. rewrite length_map, length_seq. lia.
  - intros i Hi. apply seqZ'_In in Hi. apply H. lia.
Qed.

(** The count of available cores of a node is never above the cores of the
    node, and it is either zero or the minimum asked for at least.  Bits of
    other nodes are not touched.  When the node has fewer available cores
    than the minimum, the answer is zero and the bits of the node are all
    cleared in the in/out bitmap of unavailable cores: a second call finds
    every core of the node available. *)
Theorem get_avail_core_in_node_count (core_bitmap cb' : list bool)
    (node cores_per_node c : Z) :
  _get_avail_core_in_node cores (Some core_bitmap) node cores_per_node
  = (c, Some cb') →
  0 <= c <= node_cores cores node
  ∧ (c = 0 ∨ cores_per_node <= c)
  ∧ bit_size cb' = bit_size core_bitmap
  ∧ (∀ p, ¬ (coff node <= p < coff node + node_cores cores node) →
          bit_test cb' p = bit_test core_bitmap p)
  ∧ (c < cores_per_node →
     (∀ p, coff node <= p < coff node + node_cores cores node →
           bit_test cb' p = false)
     ∧ (_get_avail_core_in_node cores (Some cb') node 0).1
       = node_cores cores node).
Proof.
  unfold _get_avail_core_in_node.
  set (total := node_cores cores node).
  set (avail := count_cores (fun p => negb (bit_test core_bitmap p))
                  (coff node) total).
  pose proof (node_cores_nonneg cores node) as Ht. fold total in Ht.
  pose proof (count_cores_bounds (fun p => negb (bit_test core_bitmap p))
                (coff node) total) as Hb. fold avail in Hb.
  destruct (avail >=? cores_per_node) eqn:E; intros H; inversion H; subst.
  - split; [lia |]. split; [right; lia |]. split; [reflexivity |].
    split; [reflexivity |]. intros Hlt. lia.
  - split; [lia |]. split; [left; reflexivity |].
    split; [unfold bit_size; rewrite length_bit_nclear; reflexivity |].
    split.
    + intros p Hp. rewrite bit_test_nclear.
      destruct ((coff node <=? p) && (p <=? coff node + total - 1)) eqn:Er;
        [bool_lia | reflexivity].
    + intros _.
      assert (Hclear : ∀ p, coff node <= p < coff node + total →
                bit_test (bit_nclear core_bitmap (coff node)
                            (coff node + total - 1)) p = false).
      { intros p Hp. rewrite bit_test_nclear.
        destruct ((coff node <=? p) && (p <=? coff node + total - 1)) eqn:Er;
          [reflexivity | bool_lia]. }
      split; [exact Hclear |].
      rewrite count_cores_all.
      * replace (Z.max 0 total >=? 0) with true by lia. simpl. lia.
      * intros i Hi. rewrite Hclear by lia. reflexivity.
Qed.

End CoreBitmapFiltered.

(** On a node of four cores of which three are not available, two cores
    are asked for. *)
Lemma get_avail_core_in_node_count_witness :
  _get_avail_core_in_node [4]%nat (Some [true; true; false; true]) 0 2
  = (0, Some [false; false; false; false])
  ∧ (_get_avail_core_in_node [4]%nat (Some [false; false; false; false]) 0 0).1
    = 4.
Proof.
  split; [reflexivity |].
  destruct (get_avail_core_in_node_count [4]%nat [true; true; false; true]
              [false; false; false; false] 0 2 0 eq_refl)
    as (_ & _ & _ & _ & H).
  destruct (H ltac:(lia)) as [_ H2]. exact H2.
Defined.

(** ** Whole nodes picked through the topology *)

Section TopologyNodes.

Variable cores : list nat.
Variable tbl : list switch_record.
Variable avail_bitmap : list bool.
Variable node_cnt : Z.

Hypothesis avail_in_table : bit_size avail_bitmap <= Z.of_nat (length cores).

Local Abbreviation inv := (leaf_inv tbl avail_bitmap (length cores) node_cnt).

Lemma use_leaf_node_inv (core_bitmap : option (list bool)) (cpn : Z)
    (loc : nat) (st : leaf_state * bool) (i : Z) :
  level_at tbl loc = 0 →
  inv st.1 ∧ (st.2 = false → 0 < rem_nodes st.1) →
  inv (use_leaf_node cores core_bitmap cpn loc st i).1
  ∧ ((use_leaf_node cores core_bitmap cpn loc st i).2 = false →
     0 < rem_nodes (use_leaf_node cores core_bitmap cpn loc st i).1).
Proof.
  intros Hleaf. destruct st as [s broke]. simpl.
  intros [Hinv Hpos]. pose proof Hinv as (Hsw & Hnodes & Hcnt & Hlen & Hrem).
  unfold use_leaf_node.
  destruct broke.
  { simpl. split; [exact Hinv | exact Hpos]. }
  specialize (Hpos eq_refl).
  destruct (bit_test (switches_bitmap (switch_at (lf_switches s) loc)) i) eqn:Hbit;
    simpl.
  2: { split; [exact Hinv | intros _; exact Hpos]. }
  assert (Hloc : lf_switches s !! loc = Some (switch_at (lf_switches s) loc)).
  { unfold switch_at in *. destruct (lf_switches s !! loc) as [sw |];
      [reflexivity |]. simpl in Hbit. unfold bit_test in Hbit.
    destruct (i <? 0); [discriminate Hbit |].
    rewrite lookup_nil in Hbit. discriminate Hbit. }
  set (sw := switch_at (lf_switches s) loc) in *.
  destruct (Hsw loc sw Hloc) as [Hbits _].
  destruct (Hbits i Hbit) as [Hav Hon].
  set (sw' := mk_switch_state (bit_clear (switches_bitmap sw) i)
                (switches_core_bitmap sw) (switches_cpu_cnt sw)
                (switches_node_cnt sw - 1)).
  assert (Hsw' : ∀ j x, <[loc := sw']> (lf_switches s) !! j = Some x →
             (∀ k, bit_test (switches_bitmap x) k = true →
                   bit_test avail_bitmap k = true
                   ∧ bit_test (switch_nodes tbl j) k = true)
             ∧ (switches_node_cnt x ≠ 0 → level_at tbl j = 0)).
  { intros j x Hx. destruct (decide (j = loc)) as [-> | Hne].
    - rewrite list_lookup_insert_eq in Hx by (apply lookup_lt_Some in Hloc; exact Hloc).
      injection Hx as <-. split; [| intros _; exact Hleaf].
      intros k Hk. unfold sw' in Hk. simpl in Hk.
      apply bit_test_clear_inv in Hk as [Hk _]. apply Hbits, Hk.
    - rewrite list_lookup_insert_ne in Hx by congruence. apply Hsw, Hx. }
  assert (Hinv1 : inv (mk_leaf_state (<[loc := sw']> (lf_switches s))
                         (avail_nodes_bitmap s) (rem_nodes s) (rem_cores s) loc)).
  { split; [exact Hsw' |]. split; [exact Hnodes |]. split; [exact Hcnt |].
    split; [exact Hlen | exact Hrem]. }
  destruct (bit_test (avail_nodes_bitmap s) i) eqn:Hin; simpl.
  { split; [exact Hinv1 | intros _; exact Hpos]. }
  destruct (negb (is_null core_bitmap) && _); simpl.
  { split; [exact Hinv1 | intros _; exact Hpos]. }
  assert (Hrange : 0 <= i < bit_size (avail_nodes_bitmap s)).
  { apply bit_test_in_range in Hav. unfold bit_size in *. lia. }
  split.
  - split; [exact Hsw' |].
    cbn [avail_nodes_bitmap rem_nodes lf_switches rem_cores].
    split; [| split; [| split]].
    + intros k Hk. apply bit_test_set_inv in Hk as [-> | Hk];
        [| apply Hnodes, Hk].
      split; [exact Hav |]. exists loc. split; assumption.
    + rewrite popcount_bit_set by assumption. lia.
    + unfold bit_set. rewrite length_bit_assign. exact Hlen.
    + lia.
  - intros H. apply Z.leb_gt in H. exact H.
Qed.

Lemma use_leaf_nodes_inv (core_bitmap : option (list bool)) (cpn : Z)
    (loc : nat) (l : list Z) (st : leaf_state * bool) :
  level_at tbl loc = 0 →
  inv st.1 ∧ (st.2 = false → 0 < rem_nodes st.1) →
  inv (foldl (use_leaf_node cores core_bitmap cpn loc) st l).1.
Proof.
  intros Hleaf. revert st. induction l as [| i l IH]; intros st H; simpl.
  - apply H.
  - apply IH, use_leaf_node_inv; assumption.
Qed.

Lemma leaf_step_inv (has_core_cnt : bool) (core_bitmap : option (list bool))
    (cpn : Z) (s s' : leaf_state) :
  inv s →
  leaf_step cores has_core_cnt core_bitmap cpn s = inl s'
  ∨ leaf_step cores has_core_cnt core_bitmap cpn s = inr s' →
  inv s'.
Proof.
  intros Hinv H. unfold leaf_step in H.
  destruct (negb (rem_nodes s >? 0)) eqn:Hr.
  { destruct H as [H | H]; inversion H; subst. exact Hinv. }
  pose proof (choose_leaf_nonzero has_core_cnt s) as Hch.
  destruct (choose_leaf has_core_cnt s) as [[bfn loc] bfs].
  set (s0 := mk_leaf_state (lf_switches s) (avail_nodes_bitmap s) (rem_nodes s)
               (rem_cores s) loc) in *.
  assert (Hinv0 : inv s0) by exact Hinv.
  destruct (bfn =? 0) eqn:Hz.
  { destruct H as [H | H]; inversion H; subst. exact Hinv0. }
  destruct H as [H | H]; inversion H; subst. clear H.
  apply Z.eqb_neq in Hz. destruct (Hch Hz) as (sw & Hsw & Hnz).
  destruct Hinv as (Hs1 & _). destruct (Hs1 loc sw Hsw) as [_ Hlv].
  specialize (Hlv Hnz).
  set (l := range_incl _ _).
  pose proof (use_leaf_nodes_inv core_bitmap cpn loc l (s0, false) Hlv) as Hfold.
  set (s1 := (foldl (use_leaf_node cores core_bitmap cpn loc) (s0, false) l).1) in *.
  destruct Hfold as (Hsw1 & Hnodes & Hcnt & Hlen & Hrem).
  { split; [exact Hinv0 |]. intros _. simpl. destruct (rem_nodes s >? 0) eqn:E;
      [lia | discriminate Hr]. }
  split; [| split; [exact Hnodes |]; split; [exact Hcnt |];
             split; [exact Hlen | exact Hrem]].
  intros j x Hx. cbn [lf_switches] in Hx.
  destruct (decide (j = loc)) as [-> | Hne].
  - destruct (lf_switches s1 !! loc) as [y |] eqn:Hy.
    + rewrite list_lookup_insert_eq in Hx by (apply lookup_lt_Some in Hy; exact Hy).
      injection Hx as <-. simpl. split; [| intros _; exact Hlv].
      unfold switch_at. rewrite Hy. simpl. apply (Hsw1 loc y Hy).
    + rewrite list_insert_ge in Hx by (apply lookup_ge_None in Hy; exact Hy).
      congruence.
  - rewrite list_lookup_insert_ne in Hx by congruence. apply Hsw1, Hx.
Qed.

End TopologyNodes.

Section TopologyWholeNodes.

Variable cores : list nat.
Variable make_core_bitmap : list bool → list bool.

(** A reservation of whole nodes through the topology ([core_cnt] null, a
    switch table and a node count): the planner answers, and touches neither
    [avail_bitmap] nor the in/out core bitmap.  A selection it returns has
    one bit for each node of the cluster and exactly [node_cnt] nodes, each
    of them an available node of a leaf switch. *)
Theorem resv_test_topology_whole_nodes (sw0 : switch_record)
    (switches : list switch_record) (first_cores_flag : Z)
    (resv_desc_ptr : resv_desc_msg) (node_cnt : Z) (avail_bitmap : list bool)
    (core_bitmap : option (list bool)) :
  core_cnt resv_desc_ptr = None →
  0 < node_cnt →
  bit_size avail_bitmap <= Z.of_nat (length cores) →
  ∃ r, select_p_resv_test cores make_core_bitmap (Some (sw0 :: switches))
         first_cores_flag resv_desc_ptr node_cnt avail_bitmap core_bitmap
       = Some r
       ∧ avail_after r = avail_bitmap
       ∧ core_after r = core_bitmap
       ∧ ∀ sel, selection r = Some sel →
           bit_size sel = Z.of_nat (length cores)
           ∧ bit_set_count sel = node_cnt
           ∧ ∀ i, bit_test sel i = true →
                  bit_test avail_bitmap i = true
                  ∧ ∃ j sw, (sw0 :: switches) !! j = Some sw
                            ∧ level sw = 0
                            ∧ bit_test (sw_node_bitmap sw) i = true.
Proof.
  intros Hcc Hn Hsize. unfold select_p_resv_test. rewrite Hcc.
  rewrite andb_false_r.
  replace (node_cnt =? 0) with false by lia.
  set (tbl := sw0 :: switches).
  unfold resv_topology. cbn [is_null negb].
  destruct (bit_set_count avail_bitmap <? node_cnt).
  { eexists. split; [reflexivity |]. simpl. split; [reflexivity |].
    split; [reflexivity |]. intros sel H. discriminate H. }
  destruct (resv_core_targets cores None node_cnt) as [[rem0 cpn] aggr] eqn:Ht.
  assert (Hrem0 : rem0 = 0).
  { unfold resv_core_targets in Ht. inversion Ht. reflexivity. }
  subst rem0.
  set (sws0 := map (init_switch cores avail_bitmap core_bitmap) tbl).
  destruct (best_fit_switch tbl sws0 false node_cnt 0 =? -1).
  { eexists. split; [reflexivity |]. simpl. split; [reflexivity |].
    split; [reflexivity |]. intros sel H. discriminate H. }
  set (bfi := best_fit_switch tbl sws0 false node_cnt 0).
  set (sws2 := usable_leafs tbl sws0 bfi).
  set (s0 := mk_leaf_state sws2 (bit_alloc (Z.of_nat (length cores))) node_cnt 0 0).
  destruct (leaf_loop_terminates cores false core_bitmap cpn s0)
    as [lf Hlf].
  cbn [lf_switches s0] in Hlf. rewrite Hlf. cbn [mbind option_bind].
  assert (Hinv : leaf_inv tbl avail_bitmap (length cores) node_cnt lf).
  { apply (iterate_invariant
             (leaf_step cores false core_bitmap cpn)
             (leaf_inv tbl avail_bitmap (length cores) node_cnt)
             (S (length sws2)) s0 lf).
    - intros s1 s2 H1 H2. eapply leaf_step_inv; [exact Hsize | exact H1 |].
      left. exact H2.
    - intros s1 s2 H1 H2. eapply leaf_step_inv; [exact Hsize | exact H1 |].
      right. exact H2.
    - unfold leaf_inv, s0. simpl. split; [| split; [| split; [| split]]].
      + intros j x Hx. unfold sws2, usable_leafs in Hx.
        rewrite list_lookup_imap in Hx. unfold sws0 in Hx.
        rewrite list_lookup_fmap in Hx.
        destruct (tbl !! j) as [swr |] eqn:Hj; [| discriminate Hx].
        simpl in Hx.
        assert (Hbits : ∀ i,
                  bit_test (bit_and (bit_copy (sw_node_bitmap swr)) avail_bitmap) i
                  = true →
                  bit_test avail_bitmap i = true
                  ∧ bit_test (switch_nodes tbl j) i = true).
        { intros i Hi. pose proof (bit_test_in_range _ _ Hi) as Hr.
          unfold bit_and, bit_size in Hr. rewrite length_bit_map2 in Hr.
          unfold bit_and in Hi. rewrite bit_test_map2 in Hi
            by (unfold bit_size; exact Hr).
          apply andb_prop in Hi as [H1 H2]. split; [exact H2 |].
          unfold switch_nodes. rewrite Hj. exact H1. }
        destruct (negb (level_at tbl j =? 0) || _) eqn:E;
          injection Hx as <-; simpl.
        * split; [exact Hbits | intros H; contradiction].
        * split; [exact Hbits |]. intros _.
          apply orb_false_iff in E as [E _]. apply negb_false_iff in E.
          apply Z.eqb_eq in E. exact E.
      + intros i Hi. rewrite bit_test_alloc in Hi. discriminate Hi.
      + pose proof (node_rank_alloc (Z.of_nat (length cores))
                      (Z.of_nat (length cores))) as Hz.
        rewrite node_rank_all in Hz; [unfold bit_set_count in Hz; lia | lia |].
        intros. apply bit_test_alloc.
      + unfold bit_alloc. rewrite length_replicate. lia.
      + lia.
    - exact Hlf. }
  destruct Hinv as (_ & Hnodes & Hcnt & Hlen & Hrem).
  destruct ((rem_nodes lf >? 0) || (rem_cores lf >? 0)) eqn:Hfail.
  { eexists. split; [reflexivity |]. simpl. split; [reflexivity |].
    split; [reflexivity |]. intros sel H. discriminate H. }
  eexists. split; [reflexivity |]. simpl. split; [reflexivity |].
  split; [reflexivity |]. intros sel H. injection H as <-.
  apply orb_false_iff in Hfail as [Hfail _].
  split; [unfold bit_size; lia |].
  split; [unfold bit_set_count; lia |].
  intros i Hi. destruct (Hnodes i Hi) as [Hav (j & Hlv & Hon)].
  split; [exact Hav |].
  unfold switch_nodes, level_at in *.
  destruct (tbl !! j) as [swr |] eqn:Hj.
  - exists j, swr. split; [exact Hj |]. split; assumption.
  - simpl in Hon. unfold bit_test in Hon. destruct (i <? 0); [discriminate Hon |].
    rewrite lookup_nil in Hon. discriminate Hon.
Qed.

End TopologyWholeNodes.

(** Two leaf switches of two nodes each under a top switch; two nodes are
    asked for while node 0 is not available. *)
Lemma resv_test_topology_whole_nodes_witness :
  ∃ r, select_p_resv_test four_nodes (every_core four_nodes)
         (Some [mk_switch_record 0 [true; true; false; false];
                mk_switch_record 0 [false; false; true; true];
                mk_switch_record 1 [true; true; true; true]])
         65536 (mk_resv_desc_msg None 0) 2 [false; true; true; true] None
       = Some r
       ∧ selection r = Some [false; false; true; true].
Proof.
  destruct (resv_test_topology_whole_nodes four_nodes (every_core four_nodes)
              (mk_switch_record 0 [true; true; false; false])
              [mk_switch_record 0 [false; false; true; true];
               mk_switch_record 1 [true; true; true; true]]
              65536 (mk_resv_desc_msg None 0) 2 [false; true; true; true] None
              eq_refl ltac:(lia) ltac:(vm_compute; discriminate))
    as (r & Hr & _).
  exists r. split; [exact Hr |].
  vm_compute in Hr. injection Hr as <-. reflexivity.
Defined.

(** ** What [_rm_job_from_one_node] leaves alone *)

Lemma node_usage_at_set_other (e : engine) (k i : Z) (u : node_use_record) :
  i ≠ k → node_usage_at (set_node_usage_at e k u) i = node_usage_at e i.
Proof.
  intros H. unfold node_usage_at, set_node_usage_at.
  destruct (k <? 0) eqn:Ek; [reflexivity |].
  destruct (i <? 0) eqn:Ei; [reflexivity |]. simpl.
  rewrite list_lookup_insert_ne by lia. reflexivity.
Qed.

(** A write that keeps the node state of the entry keeps every node
    state. *)
Lemma node_state_set_same (e : engine) (k i m : Z) :
  node_state (node_usage_at
                (set_node_usage_at e k
                   (mk_node_use_record m (node_state (node_usage_at e k)))) i)
  = node_state (node_usage_at e i).
Proof.
  destruct (Z.eq_dec i k) as [-> | Hne];
    [| rewrite node_usage_at_set_other by exact Hne; reflexivity].
  unfold node_usage_at, set_node_usage_at.
  destruct (k <? 0) eqn:Ek; [reflexivity |]. simpl.
  destruct (select_node_usage e !! Z.to_nat k) as [u |] eqn:Hu.
  - rewrite list_lookup_insert_eq by (apply lookup_lt_Some in Hu; exact Hu).
    reflexivity.
  - rewrite list_insert_ge by (apply lookup_ge_None in Hu; exact Hu).
    rewrite Hu. reflexivity.
Qed.

Lemma find_node_rank_found (nb : list bool) (node_inx : Z) (inxs : list Z)
    (n k : Z) :
  find_node_rank nb node_inx inxs n = Some k →
  In node_inx inxs ∧ bit_test nb node_inx = true.
Proof.
  revert n. induction inxs as [| i inxs IH]; intros n H; simpl in H.
  - discriminate H.
  - destruct (bit_test nb i) eqn:Hb; simpl in H.
    + destruct (i =? node_inx) eqn:Hi; simpl in H.
      * apply Z.eqb_eq in Hi. subst i. split; [left; reflexivity | exact Hb].
      * destruct (IH _ H) as [H1 H2]. split; [right; exact H1 | exact H2].
    + destruct (IH _ H) as [H1 H2]. split; [right; exact H1 | exact H2].
Qed.

Section RemoveNode.

Variable cores : list nat.

Lemma subtract_memory_frame (e : engine) (job_ptr : job_record) (a : ptr)
    (i n : Z) :
  let e1 := subtract_memory cores e job_ptr a i n in
  select_part_record e1 = select_part_record e
  ∧ (∀ k, node_state (node_usage_at e1 k) = node_state (node_usage_at e k))
  ∧ (∀ k, k ≠ i → node_usage_at e1 k = node_usage_at e k)
  ∧ resrcs e1
    = <[a := extract_job_resources_node cores (deref (resrcs e) (Some a)) n]>
        (resrcs e)
  ∧ (length (errlog e) <= length (errlog e1))%nat.
Proof.
  intros e1. unfold e1, subtract_memory.
  set (job := deref (resrcs e) (Some a)).
  set (u := node_usage_at e i).
  destruct (alloc_memory u <? znth (memory_allocated job) n).
  - set (e0 := log e _).
    set (e2 := set_node_usage_at e0 i (mk_node_use_record 0 (node_state u))).
    split; [change (select_part_record e2 = select_part_record e0);
            apply parts_set_node_usage_at |].
    split; [intros k;
            change (node_state (node_usage_at e2 k)
                    = node_state (node_usage_at e0 k));
            apply (node_state_set_same e0 i k 0) |].
    split; [intros k Hk;
            change (node_usage_at e2 k = node_usage_at e0 k);
            apply node_usage_at_set_other, Hk |].
    split; [cbn [resrcs set_resrcs]; unfold e2;
            rewrite resrcs_set_node_usage_at; reflexivity |].
    cbn [errlog set_resrcs]. unfold e2. rewrite errlog_set_node_usage_at.
    unfold e0. simpl. rewrite length_app. lia.
  - set (e2 := set_node_usage_at e i _).
    split; [change (select_part_record e2 = select_part_record e);
            apply parts_set_node_usage_at |].
    split; [intros k;
            change (node_state (node_usage_at e2 k)
                    = node_state (node_usage_at e k));
            apply (node_state_set_same e i k _) |].
    split; [intros k Hk;
            change (node_usage_at e2 k = node_usage_at e k);
            apply node_usage_at_set_other, Hk |].
    split; [cbn [resrcs set_resrcs]; unfold e2;
            rewrite resrcs_set_node_usage_at; reflexivity |].
    cbn [errlog set_resrcs]. unfold e2. rewrite errlog_set_node_usage_at. lia.
Qed.

Lemma rebuild_after_node_removal_frame (e : engine) (job_ptr : job_record)
    (a : ptr) (node_inx : Z) :
  let r := rebuild_after_node_removal cores e job_ptr a node_inx in
  resrcs r.2 = resrcs e
  ∧ (∀ k, k ≠ node_inx → node_usage_at r.2 k = node_usage_at e k)
  ∧ (∀ k, alloc_memory (node_usage_at r.2 k) = alloc_memory (node_usage_at e k))
  ∧ (r.1 = SLURM_ERROR →
     select_part_record r.2 = select_part_record e
     ∧ select_node_usage r.2 = select_node_usage e
     ∧ (length (errlog e) < length (errlog r.2))%nat).
Proof.
  intros r. unfold r, rebuild_after_node_removal.
  assert (Hlog : ∀ m, (length (errlog e) < length (errlog (log e m)))%nat).
  { intros m. simpl. rewrite length_app. simpl. lia. }
  destruct (job_suspended job_ptr).
  { cbn [fst snd]. repeat split; auto. all: discriminate. }
  destruct (job_part_ptr job_ptr) as [pp |].
  2: { cbn [fst snd]. repeat split; auto. }
  destruct (find _ (select_part_record e)) as [p |].
  2: { cbn [fst snd]. repeat split; auto. }
  destruct (row p) as [rs |].
  2: { cbn [fst snd]. repeat split; auto. all: discriminate. }
  destruct (job_in_rows a rs).
  2: { cbn [fst snd]. repeat split; auto. }
  cbn [fst snd].
  set (e1 := set_parts e _).
  unfold adjust_node_state.
  change (node_usage_at e1 node_inx) with (node_usage_at e node_inx).
  set (u := node_usage_at e node_inx).
  assert (Halloc : ∀ e0 st k,
            node_usage_at e0 = node_usage_at e →
            select_node_usage e0 = select_node_usage e →
            alloc_memory (node_usage_at
                            (set_node_usage_at e0 node_inx
                               (mk_node_use_record (alloc_memory u) st)) k)
            = alloc_memory (node_usage_at e k)).
  { intros e0 st k He0 Hu0. destruct (Z.eq_dec k node_inx) as [-> | Hne];
      [| rewrite node_usage_at_set_other by exact Hne; rewrite He0; reflexivity].
    unfold u, node_usage_at, set_node_usage_at.
    destruct (node_inx <? 0) eqn:Ek; [reflexivity |].
    simpl. rewrite Hu0.
    destruct (select_node_usage e !! Z.to_nat node_inx) as [x |] eqn:Hx.
    - rewrite list_lookup_insert_eq by (apply lookup_lt_Some in Hx; exact Hx).
      reflexivity.
    - rewrite list_insert_ge by (apply lookup_ge_None in Hx; exact Hx).
      rewrite Hx. reflexivity. }
  destruct (node_state u >=? _).
  - split; [rewrite resrcs_set_node_usage_at; reflexivity |].
    split; [intros k Hk; apply (node_usage_at_set_other e1 node_inx k _ Hk) |].
    split; [intros k; apply (Halloc e1); reflexivity |].
    intros H. discriminate H.
  - split; [rewrite resrcs_set_node_usage_at; reflexivity |].
    split; [intros k Hk;
            apply (node_usage_at_set_other (log e1 LogNodeStateMiscount)
                     node_inx k _ Hk) |].
    split; [intros k; apply (Halloc (log e1 LogNodeStateMiscount)); reflexivity |].
    intros H. discriminate H.
Qed.

(** A node leaves a job that holds it: the memory the job was allocated on
    the node is taken off the allocated memory of the node, unless it would
    underflow; the usage of no other node changes; and the only resource
    record that changes is that of the job, from which the node is
    extracted.  This holds whatever the return code is. *)
Theorem rm_job_from_one_node_memory (e e' : engine) (job_ptr : job_record)
    (node_inx : Z) (a : ptr) (n rc : Z) :
  0 <= node_inx < Z.of_nat (length (select_node_usage e)) →
  node_leaves_job e job_ptr node_inx a n →
  _rm_job_from_one_node cores e job_ptr node_inx = (rc, e') →
  let job := deref (resrcs e) (Some a) in
  let want := znth (memory_allocated job) n in
  alloc_memory (node_usage_at e' node_inx)
  = (if alloc_memory (node_usage_at e node_inx) <? want then 0
     else alloc_memory (node_usage_at e node_inx) - want)
  ∧ (∀ k, k ≠ node_inx → node_usage_at e' k = node_usage_at e k)
  ∧ resrcs e' = <[a := extract_job_resources_node cores job n]> (resrcs e).
Proof.
  intros Hi (Hres & Hcb & Hrank & Hcpus) Hrun. cbv zeta.
  unfold _rm_job_from_one_node in Hrun. rewrite Hres in Hrun.
  set (job := deref (resrcs e) (Some a)) in *.
  set (want := znth (memory_allocated job) n).
  destruct (core_bitmap job) as [cb |] eqn:Hc; [| congruence].
  rewrite Hrank in Hrun.
  destruct (znth (default [] (cpus job)) n =? 0) eqn:Hz;
    [apply Z.eqb_eq in Hz; contradiction |].
  pose proof (subtract_memory_frame e job_ptr a node_inx n)
    as (_ & _ & Hoth & Hrs & _).
  cbv zeta in Hoth, Hrs.
  assert (Hmem : alloc_memory
                   (node_usage_at (subtract_memory cores e job_ptr a node_inx n)
                      node_inx)
                 = (if alloc_memory (node_usage_at e node_inx) <? want then 0
                    else alloc_memory (node_usage_at e node_inx) - want)).
  { unfold subtract_memory. fold job. fold want.
    destruct (alloc_memory (node_usage_at e node_inx) <? want).
    - change (node_usage_at (set_resrcs ?x _) node_inx)
        with (node_usage_at x node_inx).
      rewrite node_usage_at_set by (simpl; exact Hi). reflexivity.
    - change (node_usage_at (set_resrcs ?x _) node_inx)
        with (node_usage_at x node_inx).
      rewrite node_usage_at_set by exact Hi. reflexivity. }
  set (e1 := subtract_memory cores e job_ptr a node_inx n) in *.
  pose proof (rebuild_after_node_removal_frame e1 job_ptr a node_inx)
    as (Hr1 & Hr2 & Hr3 & _).
  cbv zeta in Hr1, Hr2, Hr3. rewrite Hrun in Hr1, Hr2, Hr3.
  cbn [fst snd] in Hr1, Hr2, Hr3.
  split; [rewrite Hr3; exact Hmem |].
  split; [intros k Hk; rewrite Hr2 by exact Hk; apply Hoth, Hk |].
  rewrite Hr1. exact Hrs.
Qed.

(** An error return of [_rm_job_from_one_node] is always logged, and the
    partition rows and the node states are then as they were, though the
    memory of the node may have been subtracted already. *)
Theorem rm_job_from_one_node_error (e e' : engine) (job_ptr : job_record)
    (node_inx : Z) :
  _rm_job_from_one_node cores e job_ptr node_inx = (SLURM_ERROR, e') →
  select_part_record e' = select_part_record e
  ∧ (∀ k, node_state (node_usage_at e' k) = node_state (node_usage_at e k))
  ∧ (length (errlog e) < length (errlog e'))%nat.
Proof.
  intros Hrun. unfold _rm_job_from_one_node in Hrun.
  assert (Hlog : ∀ m, (length (errlog e) < length (errlog (log e m)))%nat).
  { intros m. simpl. rewrite length_app. simpl. lia. }
  destruct (job_resrcs job_ptr) as [a |].
  2: { injection Hrun as <-. repeat split; auto. }
  destruct (core_bitmap (deref (resrcs e) (Some a))).
  2: { injection Hrun as <-. repeat split; auto. }
  assert (Hgo : ∀ e1,
            select_part_record e1 = select_part_record e →
            (∀ k, node_state (node_usage_at e1 k) = node_state (node_usage_at e k)) →
            (length (errlog e) <= length (errlog e1))%nat →
            rebuild_after_node_removal cores e1 job_ptr a node_inx
            = (SLURM_ERROR, e') →
            select_part_record e' = select_part_record e
            ∧ (∀ k, node_state (node_usage_at e' k) = node_state (node_usage_at e k))
            ∧ (length (errlog e) < length (errlog e'))%nat).
  { intros e1 Hp Hs Hl Hreb.
    pose proof (rebuild_after_node_removal_frame e1 job_ptr a node_inx)
      as (_ & _ & _ & Herr).
    cbv zeta in Herr. rewrite Hreb in Herr. cbn [fst snd] in Herr.
    destruct (Herr eq_refl) as (H1 & H2 & H3).
    split; [congruence |]. split; [| lia].
    intros k. rewrite <- Hs. unfold node_usage_at. rewrite H2. reflexivity. }
  destruct (find_node_rank _ node_inx _ 0) as [n |].
  - destruct (znth _ n =? 0); [discriminate Hrun |].
    pose proof (subtract_memory_frame e job_ptr a node_inx n)
      as (H1 & H2 & _ & _ & H5).
    apply (Hgo _ H1 H2 H5 Hrun).
  - apply (Hgo e); auto.
Qed.

(** A node that is not one of the nodes of the job: no memory is taken off
    any node and no resource record changes. *)
Theorem rm_job_from_one_node_foreign_node (e e' : engine)
    (job_ptr : job_record) (node_inx : Z) (a : ptr) (rc : Z) :
  job_resrcs job_ptr = Some a →
  bit_test (the_bits (node_bitmap (deref (resrcs e) (Some a)))) node_inx = false →
  _rm_job_from_one_node cores e job_ptr node_inx = (rc, e') →
  resrcs e' = resrcs e
  ∧ ∀ k, alloc_memory (node_usage_at e' k) = alloc_memory (node_usage_at e k).
Proof.
  intros Hres Hbit Hrun. unfold _rm_job_from_one_node in Hrun.
  rewrite Hres in Hrun.
  destruct (core_bitmap (deref (resrcs e) (Some a))).
  2: { injection Hrun as _ <-. split; reflexivity. }
  destruct (find_node_rank _ node_inx _ 0) as [n |] eqn:Hrank.
  { apply find_node_rank_found in Hrank as [_ Hrank]. congruence. }
  pose proof (rebuild_after_node_removal_frame e job_ptr a node_inx)
    as (H1 & _ & H3 & _).
  cbv zeta in H1, H3. rewrite Hrun in H1, H3. split; assumption.
Qed.

End RemoveNode.

(** The first node leaves a job of two nodes that holds 100 units of memory
    on each of them. *)
Lemma rm_job_from_one_node_memory_witness :
  let r := _rm_job_from_one_node four_nodes two_node_engine two_node_job_record 0 in
  r.1 = SLURM_SUCCESS
  ∧ alloc_memory (node_usage_at r.2 0) = 0
  ∧ node_usage_at r.2 1 = node_usage_at two_node_engine 1.
Proof.
  intros r.
  destruct (rm_job_from_one_node_memory four_nodes two_node_engine r.2
              two_node_job_record 0 1%nat 0 r.1) as (H1 & H2 & _).
  - vm_compute. split; congruence.
  - unfold node_leaves_job. repeat split; vm_compute; congruence.
  - reflexivity.
  - split; [reflexivity |]. split; [rewrite H1; reflexivity |].
    apply H2. lia.
Defined.

(** The job has no partition: the memory is subtracted and the call fails. *)
Lemma rm_job_from_one_node_error_witness :
  ∃ e', _rm_job_from_one_node [2%nat] stray_job_engine one_node_job_record 0
        = (SLURM_ERROR, e')
        ∧ select_part_record e' = select_part_record stray_job_engine
        ∧ alloc_memory (node_usage_at e' 0) = 0.
Proof.
  eexists. split; [vm_compute; reflexivity |].
  split; [| vm_compute; reflexivity].
  eapply (rm_job_from_one_node_error [2%nat] stray_job_engine _
            one_node_job_record 0).
  vm_compute. reflexivity.
Defined.

(** Node 3 is asked of a job that runs on nodes 0 and 1. *)
Lemma rm_job_from_one_node_foreign_node_witness :
  let r := _rm_job_from_one_node four_nodes two_node_engine two_node_job_record 3 in
  resrcs r.2 = resrcs two_node_engine.
Proof.
  intros r.
  destruct (rm_job_from_one_node_foreign_node four_nodes two_node_engine r.2
              two_node_job_record 3 1%nat r.1 eq_refl) as [H _].
  - vm_compute. reflexivity.
  - reflexivity.
  - exact H.
Defined.

(** ** The merge of two jobs *)

Lemma sum_cpus_insert (l : list Z) (i : nat) (v : Z) :
  sum_cpus (<[i := v]> l)
  = sum_cpus l - default 0 (l !! i) + default 0 (<[i := v]> l !! i).
Proof.
  unfold sum_cpus. revert i. induction l as [| x l IH]; intros i.
  - simpl. lia.
  - destruct i as [| i]; simpl.
    + lia.
    + rewrite IH. lia.
Qed.

Lemma sum_cpus_zset (l : list Z) (i v : Z) :
  sum_cpus (zset l i v) = sum_cpus l - znth l i + znth (zset l i v) i.
Proof.
  unfold zset, znth. destruct (i <? 0); [lia |]. apply sum_cpus_insert.
Qed.

Lemma znth_zset_other (l : list Z) (i k v : Z) :
  k ≠ i → znth (zset l i v) k = znth l k.
Proof.
  intros H. unfold zset, znth. destruct (k <? 0) eqn:Ek; [reflexivity |].
  destruct (i <? 0) eqn:Ei; [reflexivity |].
  rewrite list_lookup_insert_ne by lia. reflexivity.
Qed.

Lemma zset_zset (l : list Z) (i a b : Z) :
  zset (zset l i a) i b = zset l i b.
Proof.
  unfold zset. destruct (i <? 0); [reflexivity |]. apply list_insert_insert_eq.
Qed.

Lemma u32_add_idemp (a b : Z) : u32 (u32 a + b) = u32 (a + b).
Proof. unfold u32. apply Zplus_mod_idemp_l. Qed.

Lemma fresh_ptr_fresh (m : gmap nat job_resources) : m !! fresh_ptr m = None.
Proof.
  destruct (m !! fresh_ptr m) as [x |] eqn:E; [| reflexivity].
  exfalso. apply elem_of_map_to_list in E.
  assert (Hle : ∀ (l : list (nat * job_resources)) k y,
            (k, y) ∈ l → (k <= foldr Nat.max 0 (map fst l))%nat).
  { induction l as [| [k' y'] l IH]; intros k y Hin.
    - apply elem_of_nil in Hin. contradiction.
    - apply elem_of_cons in Hin as [Heq | Hin]; simpl.
      + injection Heq as -> ->. lia.
      + specialize (IH k y Hin). lia. }
  specialize (Hle _ _ _ E). unfold fresh_ptr in Hle. lia.
Qed.

Section Expand.

Variable cores : list nat.

Lemma bits_copy_fields (nw : job_resources) (no : Z) (fr : job_resources)
    (fo : Z) :
  let r := job_resources_bits_copy cores nw no fr fo in
  cpus r = cpus nw ∧ nhosts r = nhosts nw ∧ node_bitmap r = node_bitmap nw
  ∧ ncpus r = ncpus nw.
Proof.
  unfold job_resources_bits_copy.
  destruct (job_node_slice cores nw no), (job_node_slice cores fr fo).
  simpl. repeat split.
Qed.

Lemma merge_from_fields (fr nw : job_resources) (fo no : Z) :
  let nw1 := (merge_from cores fr nw fo no).2 in
  (∃ v, the_cpus nw1 = zset (the_cpus nw) no v)
  ∧ nhosts nw1 = nhosts nw ∧ node_bitmap nw1 = node_bitmap nw
  ∧ ncpus nw1 = ncpus nw.
Proof.
  unfold merge_from. cbn [snd].
  match goal with
  | |- context [job_resources_bits_copy cores ?a ?b ?c ?d] =>
      destruct (bits_copy_fields a b c d) as (H1 & H2 & H3 & H4)
  end.
  cbv zeta in H1, H2, H3, H4. unfold the_cpus at 1.
  rewrite H1, H2, H3, H4. simpl.
  split; [eexists; reflexivity | repeat split].
Qed.

Lemma merge_to_fields (from_node_used : bool) (fr to nw : job_resources)
    (fo t_o no : Z) :
  let nw1 := merge_to cores from_node_used fr to nw fo t_o no in
  (∃ v, the_cpus nw1 = zset (the_cpus nw) no v)
  ∧ nhosts nw1 = nhosts nw ∧ node_bitmap nw1 = node_bitmap nw
  ∧ ncpus nw1 = ncpus nw.
Proof.
  unfold merge_to.
  match goal with
  | |- context [job_resources_bits_copy cores ?a ?b ?c ?d] =>
      destruct (bits_copy_fields a b c d) as (H1 & H2 & H3 & H4);
      set (nw5 := job_resources_bits_copy cores a b c d) in *
  end.
  cbv zeta in H1, H2, H3, H4. simpl in H1, H2, H3, H4.
  assert (H5 : the_cpus nw5
               = zset (the_cpus nw) no
                   (u16 (znth (the_cpus nw) no + znth (the_cpus to) t_o))).
  { unfold the_cpus at 1. rewrite H1. reflexivity. }
  destruct from_node_used.
  - destruct (negb _).
    + simpl. rewrite H5, zset_zset.
      split; [eexists; reflexivity |]. repeat split; assumption.
    + split; [eexists; exact H5 |]. repeat split; assumption.
  - split; [eexists; exact H5 |]. repeat split; assumption.
Qed.

Lemma expand_step_inv (e : engine) (from_job to_job : job_record)
    (to nw0 : job_resources) (st : expand_state) (i : Z) :
  let count_cpus := negb (det_whole_node (details to_job) =? 1) in
  expand_inv count_cpus nw0 st →
  expand_inv count_cpus nw0 (expand_step cores e from_job to_job to st i).
Proof.
  intros count_cpus (Hsum & Hzero & Hoff & Hn & Hb & Hc).
  unfold expand_step.
  set (in_from := bit_test (the_bits (node_bitmap (x_from st))) i).
  set (in_to := bit_test (the_bits (node_bitmap to)) i).
  set (fu := in_from && bit_test (the_bits (job_node_bitmap from_job)) i).
  set (tu := in_to && bit_test (the_bits (job_node_bitmap to_job)) i).
  set (fo := if in_from then from_node_offset st + 1 else from_node_offset st).
  set (t_o := if in_to then to_node_offset st + 1 else to_node_offset st).
  destruct (negb fu && negb tu) eqn:Hskip.
  { split; [exact Hsum |]. split; [exact Hzero |]. split; [exact Hoff |].
    split; [exact Hn |]. split; [exact Hb | exact Hc]. }
  set (no := new_node_offset st + 1).
  set (p := if fu then merge_from cores (x_from st) (x_new st) fo no
            else (x_from st, x_new st)).
  assert (Hp : (∃ v, the_cpus p.2 = zset (the_cpus (x_new st)) no v
                     ∨ (fu = false ∧ p.2 = x_new st))
               ∧ nhosts p.2 = nhosts (x_new st)
               ∧ node_bitmap p.2 = node_bitmap (x_new st)
               ∧ ncpus p.2 = ncpus (x_new st)).
  { unfold p. destruct fu.
    - destruct (merge_from_fields (x_from st) (x_new st) fo no)
        as ([v Hv] & H2 & H3 & H4).
      split; [exists v; left; exact Hv |]. repeat split; assumption.
    - simpl. split; [exists 0; right; split; reflexivity |]. repeat split. }
  destruct p as [fr1 nw1]. simpl in Hp.
  destruct Hp as ([v0 Hv0] & Hp2 & Hp3 & Hp4).
  set (nw2 := if tu then merge_to cores fu fr1 to nw1 fo t_o no else nw1).
  assert (Hnw2 : (∃ v, the_cpus nw2 = zset (the_cpus (x_new st)) no v)
                 ∧ nhosts nw2 = nhosts (x_new st)
                 ∧ node_bitmap nw2 = node_bitmap (x_new st)
                 ∧ ncpus nw2 = ncpus (x_new st)).
  { unfold nw2. destruct tu.
    - destruct (merge_to_fields fu fr1 to nw1 fo t_o no)
        as ([v Hv] & H2 & H3 & H4).
      split; [| repeat split; congruence].
      destruct Hv0 as [Hv0 | [_ ->]].
      + exists v. rewrite Hv, Hv0. apply zset_zset.
      + exists v. exact Hv.
    - destruct Hv0 as [Hv0 | [Hfu _]].
      + split; [exists v0; exact Hv0 |]. repeat split; assumption.
      + rewrite Hfu in Hskip. discriminate Hskip. }
  destruct Hnw2 as ([v Hv] & Hq2 & Hq3 & Hq4).
  unfold expand_inv. cbn [x_total_cpus x_new new_node_offset].
  split; [| split; [| split; [| split; [| split]]]].
  - intros Hcount. specialize (Hsum Hcount). unfold count_cpus in Hcount.
    apply negb_true_iff in Hcount. rewrite Hcount.
    rewrite Hsum, u32_add_idemp. f_equal.
    rewrite Hv at 2. rewrite sum_cpus_zset.
    rewrite (Hzero no) by (unfold no; lia). rewrite <- Hv. lia.
  - intros k Hk. rewrite Hv. rewrite znth_zset_other by (unfold no in *; lia).
    apply Hzero. unfold no in Hk. lia.
  - unfold no. lia.
  - congruence.
  - congruence.
  - congruence.
Qed.

Lemma expand_steps_inv (e : engine) (from_job to_job : job_record)
    (to nw0 : job_resources) (l : list Z) (st : expand_state) :
  let count_cpus := negb (det_whole_node (details to_job) =? 1) in
  expand_inv count_cpus nw0 st →
  expand_inv count_cpus nw0 (foldl (expand_step cores e from_job to_job to) st l).
Proof.
  intros count_cpus. revert st. induction l as [| i l IH]; intros st H; simpl.
  - exact H.
  - apply IH, expand_step_inv, H.
Qed.

Variable common_rm_job_res : engine → job_record → Z → bool → Z * engine.
Variable common_add_job_to_res : engine → job_record → Z → Z * engine.

(** Two different jobs that both have their resources are merged, by
    common functions that leave the resource records alone.  The call
    succeeds.  The "to" job gets a new resource record: its [ncpus] is the
    sum of those of the two jobs, its node bitmap holds the nodes of either
    record that either job runs on, and [nhosts], like [total_nodes] and
    [node_cnt] of the job, is the number of these nodes.  Unless the job
    takes whole nodes, its [total_cpus] is the sum of the cpus of the new
    record.  The "from" job is left with no cpus and no nodes. *)
Theorem job_expand_merges (e : engine) (from_job to_job : job_record)
    (fa ta : nat) :
  (∀ e1 j a b, resrcs (common_rm_job_res e1 j a b).2 = resrcs e1) →
  (∀ e1 j a, resrcs (common_add_job_to_res e1 j a).2 = resrcs e1) →
  job_id from_job ≠ job_id to_job →
  job_resrcs from_job = Some fa →
  lacks_job_resources (deref (resrcs e) (Some fa)) = false →
  job_resrcs to_job = Some ta →
  lacks_job_resources (deref (resrcs e) (Some ta)) = false →
  ∃ e' from_job' to_job' na,
    _job_expand cores common_rm_job_res common_add_job_to_res e from_job to_job
    = (SLURM_SUCCESS, e', from_job', to_job')
    ∧ job_resrcs to_job' = Some na
    ∧ let new := deref (resrcs e') (Some na) in
      let fr := deref (resrcs e) (Some fa) in
      let to := deref (resrcs e) (Some ta) in
      ncpus new = u32 (ncpus fr + ncpus to)
      ∧ node_bitmap new
        = Some (bit_and
                  (bit_or (the_bits (node_bitmap to)) (the_bits (node_bitmap fr)))
                  (bit_or (the_bits (job_node_bitmap to_job))
                          (the_bits (job_node_bitmap from_job))))
      ∧ nhosts new = bit_set_count (the_bits (node_bitmap new))
      ∧ total_nodes to_job' = nhosts new
      ∧ node_cnt to_job' = nhosts new
      ∧ cpu_cnt to_job' = total_cpus to_job'
      ∧ (det_whole_node (details to_job) ≠ 1 →
         total_cpus to_job' = u32 (sum_cpus (the_cpus new)))
      ∧ job_node_bitmap to_job'
        = Some (bit_or (the_bits (job_node_bitmap to_job))
                       (the_bits (job_node_bitmap from_job)))
      ∧ total_cpus from_job' = 0
      ∧ total_nodes from_job' = 0
      ∧ node_cnt from_job' = 0
      ∧ ncpus (deref (resrcs e') (Some fa)) = 0
      ∧ nhosts (deref (resrcs e') (Some fa)) = 0.
Proof.
  intros Hrm Hadd Hid Hfa Hfl Hta Htl.
  unfold _job_expand.
  replace (job_id from_job =? job_id to_job) with false by lia.
  rewrite Hfa, Hfl, Hta, Htl. unfold expand_merge.
  pose proof (Hrm e from_job 0 true) as Hr1.
  destruct (common_rm_job_res e from_job 0 true) as [rc1 e1]. simpl in Hr1.
  pose proof (Hrm e1 to_job 0 true) as Hr2.
  destruct (common_rm_job_res e1 to_job 0 true) as [rc2 e2]. simpl in Hr2.
  assert (He2 : resrcs e2 = resrcs e) by congruence. clear Hr1 Hr2.
  rewrite He2.
  set (fr := deref (resrcs e) (Some fa)).
  set (to0 := deref (resrcs e) (Some ta)).
  set (to := mk_job_resources (core_bitmap to0) _ (cpus to0) (cpus_used to0)
               (memory_allocated to0) (memory_used to0) (ncpus to0) (nhosts to0)
               (node_bitmap to0) (node_req to0) (whole_node to0)).
  cbn [node_bitmap] in *.
  set (tmp_bitmap := bit_and _ _).
  set (nw := build_job_resources cores _).
  set (st := foldl _ _ _).
  set (na := fresh_ptr (resrcs e)).
  set (store := <[na := x_new st]> _).
  set (e3 := set_resrcs e2 store).
  match goal with
  | |- context [common_add_job_to_res e3 ?j 0] =>
      set (to_job' := j); pose proof (Hadd e3 to_job' 0) as Ha;
      destruct (common_add_job_to_res e3 to_job' 0) as [rc4 e4]
  end.
  simpl in Ha.
  pose proof (expand_steps_inv e2 from_job to_job to nw
                (range_incl
                   (Z.min (bit_ffs (the_bits (node_bitmap fr)))
                      (bit_ffs (the_bits (node_bitmap to))))
                   (Z.max (bit_fls (the_bits (node_bitmap fr)))
                      (bit_fls (the_bits (node_bitmap to)))))
                (mk_expand_state fr nw (-1) (-1) (-1) 0)) as Hinv.
  cbv zeta in Hinv. fold st in Hinv.
  destruct Hinv as (Hsum & _ & _ & Hn & Hb & Hc).
  { unfold expand_inv. cbn [x_total_cpus x_new new_node_offset].
    assert (Hcpus : the_cpus nw
                    = replicate (Z.to_nat (bit_set_count tmp_bitmap)) 0).
    { reflexivity. }
    split; [| split; [| split; [lia | repeat split]]].
    - intros _. rewrite Hcpus.
      generalize (Z.to_nat (bit_set_count tmp_bitmap)) as m.
      induction m as [| m IH]; [reflexivity |]. simpl. exact IH.
    - intros k _. rewrite Hcpus. unfold znth. destruct (k <? 0); [reflexivity |].
      destruct (replicate _ 0 !! Z.to_nat k) as [x |] eqn:E; [| reflexivity].
      apply lookup_replicate in E as [-> _]. reflexivity. }
  assert (Hne : fa ≠ na).
  { intros ->. pose proof (fresh_ptr_fresh (resrcs e)) as Hf. fold na in Hf.
    unfold fr, deref in Hfl. rewrite Hf in Hfl. simpl in Hfl.
    discriminate Hfl. }
  assert (Hnew : deref (resrcs e4) (Some na) = x_new st).
  { rewrite Ha. unfold e3, store. simpl. rewrite lookup_insert_eq. reflexivity. }
  assert (Hfrom : ∃ fr2, deref (resrcs e4) (Some fa) = fr2
                         ∧ ncpus fr2 = 0 ∧ nhosts fr2 = 0).
  { rewrite Ha. unfold e3, store. simpl.
    rewrite lookup_insert_ne by congruence. rewrite lookup_insert_eq.
    eexists. split; [reflexivity |]. simpl. split; reflexivity. }
  destruct Hfrom as (fr2 & Hfr2 & Hfn & Hfh).
  eexists e4, _, to_job', na. split; [reflexivity |].
  split; [reflexivity |]. cbv zeta. rewrite Hnew, Hfr2.
  split; [rewrite Hc; reflexivity |].
  split; [rewrite Hb; reflexivity |].
  split; [rewrite Hn, Hb; reflexivity |].
  split; [reflexivity |]. split; [reflexivity |]. split; [reflexivity |].
  split.
  { intros Hwn. apply Hsum. apply negb_true_iff, Z.eqb_neq, Hwn. }
  split; [reflexivity |].
  split; [reflexivity |]. split; [reflexivity |]. split; [reflexivity |].
  split; assumption.
Qed.

End Expand.

(** The job of node 0 is merged into the job of node 1. *)
Lemma job_expand_merges_witness :
  ∃ e' from_job' to_job' na,
    _job_expand four_nodes (fun e _ _ _ => (0, e)) (fun e _ _ => (0, e))
      expand_engine expand_from_job expand_to_job
    = (SLURM_SUCCESS, e', from_job', to_job')
    ∧ job_resrcs to_job' = Some na
    ∧ the_cpus (deref (resrcs e') (Some na)) = [2; 1]
    ∧ total_cpus to_job' = 3
    ∧ node_cnt to_job' = 2
    ∧ total_cpus from_job' = 0.
Proof.
  destruct (job_expand_merges four_nodes (fun e _ _ _ => (0, e))
              (fun e _ _ => (0, e)) expand_engine expand_from_job expand_to_job
              1%nat 2%nat)
    as (e' & f' & t' & na & Hrun & Hna & H); try reflexivity.
  { vm_compute. congruence. }
  exists e', f', t', na. split; [exact Hrun |]. split; [exact Hna |].
  vm_compute in Hrun. injection Hrun as <- <- <-.
  vm_compute in Hna. injection Hna as <-.
  repeat split; vm_compute; reflexivity.
Defined.

(** ** The jobs of a partition through a repack *)

Lemma resident_jobs_perm (rs rs' : list part_row_data) :
  Permutation rs rs' → Permutation (resident_jobs rs) (resident_jobs rs').
Proof.
  unfold resident_jobs. induction 1 as [| r l l' _ IH | r r' l | l l' l'' _ IH1 _ IH2];
    simpl.
  - reflexivity.
  - apply Permutation_app_head, IH.
  - rewrite !app_assoc. apply Permutation_app_tail, Permutation_app_comm.
  - etransitivity; eassumption.
Qed.

Lemma insert_row_perm (r : part_row_data) (rs : list part_row_data) :
  Permutation (insert_row r rs) (r :: rs).
Proof.
  induction rs as [| r' rs IH]; simpl; [reflexivity |].
  destruct (row_set_count r' <=? row_set_count r)%nat; [reflexivity |].
  etransitivity; [apply perm_skip, IH | apply perm_swap].
Qed.

Lemma common_sort_part_rows_perm (rs : list part_row_data) :
  Permutation (common_sort_part_rows rs) rs.
Proof.
  unfold common_sort_part_rows. induction rs as [| r rs IH]; simpl;
    [reflexivity |].
  etransitivity; [apply insert_row_perm | apply perm_skip, IH].
Qed.

Lemma rows_in_bounds_perm (rs rs' : list part_row_data) :
  Permutation rs rs' → rows_in_bounds rs → rows_in_bounds rs'.
Proof.
  unfold rows_in_bounds. intros Hp H. eapply Permutation_Forall; eassumption.
Qed.

Section KeepJobs.

Variable cores : list nat.
Variable store : gmap nat job_resources.

(** A job added to a row comes last in the jobs of the row. *)
Lemma common_add_job_to_row_jobs (j : nat) (r : part_row_data) :
  (num_jobs r <= length (job_list r))%nat →
  row_jobs (common_add_job_to_row cores store j r) = row_jobs r ++ [Some j]
  ∧ (num_jobs (common_add_job_to_row cores store j r)
     <= length (job_list (common_add_job_to_row cores store j r)))%nat.
Proof.
  intros Hle. unfold common_add_job_to_row, row_jobs, _add_job_to_cores.
  cbn [num_jobs job_list]. unfold array_put.
  destruct (num_jobs r <? length (job_list r))%nat eqn:E.
  - apply Nat.ltb_lt in E. split.
    + destruct (lookup_lt_is_Some_2 (job_list r) (num_jobs r) E) as [x Hx].
      rewrite (take_S_r _ _ (Some j)) by (apply list_lookup_insert_eq; exact E).
      rewrite take_insert_ge by lia. reflexivity.
    + rewrite length_insert. lia.
  - apply Nat.ltb_ge in E.
    replace (num_jobs r - length (job_list r))%nat with 0%nat by lia.
    simpl. split.
    + rewrite take_ge by (rewrite length_app; simpl; lia).
      rewrite take_ge by lia. reflexivity.
    + rewrite length_app. simpl. lia.
Qed.

Lemma place_job_jobs (j : nat) (rs rs' : list part_row_data) :
  rows_in_bounds rs →
  place_job cores store (Some j) rs = Some rs' →
  Permutation (resident_jobs rs') (Some j :: resident_jobs rs)
  ∧ rows_in_bounds rs'.
Proof.
  revert rs'. induction rs as [| r rs IH]; intros rs' Hb H;
    cbn [place_job] in H.
  - discriminate H.
  - apply Forall_cons in Hb as [Hr Hb].
    destruct (_can_job_fit_in_row cores (deref store (Some j)) r =? 0).
    + destruct (place_job cores store (Some j) rs) as [t |]; simpl in H;
        [| discriminate H].
      injection H as <-.
      destruct (IH t Hb eq_refl) as [Hp Hb'].
      split; [| apply Forall_cons; split; assumption].
      unfold resident_jobs in *. simpl.
      etransitivity; [apply Permutation_app_head, Hp |].
      symmetry. apply Permutation_middle.
    + injection H as <-.
      destruct (common_add_job_to_row_jobs j r Hr) as [Hj Hb'].
      split; [| apply Forall_cons; split; assumption].
      unfold resident_jobs. simpl. rewrite Hj, <- app_assoc. simpl.
      symmetry. apply Permutation_middle.
Qed.

Lemma pack_jobs_jobs (ss : list sort_support) (rs : list part_row_data) :
  rows_in_bounds rs →
  (∀ s, In s ss → tmpjobs s ≠ None) →
  Permutation
    (resident_jobs (pack_jobs cores store ss rs).2
     ++ left_over (pack_jobs cores store ss rs).1)
    (resident_jobs rs ++ map tmpjobs ss).
Proof.
  revert rs. induction ss as [| s ss IH]; intros rs Hb Hs; simpl.
  - reflexivity.
  - assert (Hs' : ∀ s', In s' ss → tmpjobs s' ≠ None).
    { intros s' H'. apply Hs. right. exact H'. }
    destruct (tmpjobs s) as [j |] eqn:Hj;
      [| exfalso; apply (Hs s); [left; reflexivity | exact Hj]].
    destruct (place_job cores store (Some j) rs) as [rs1 |] eqn:Hp.
    + destruct (place_job_jobs j rs rs1 Hb Hp) as [Hperm Hb1].
      pose proof (common_sort_part_rows_perm rs1) as Hsort.
      specialize (IH (common_sort_part_rows rs1)
                    (rows_in_bounds_perm _ _ (Permutation_sym Hsort) Hb1) Hs').
      destruct (pack_jobs cores store ss (common_sort_part_rows rs1))
        as [ss2 rs2].
      simpl in *. unfold left_over in *. simpl.
      etransitivity; [exact IH |].
      etransitivity;
        [apply Permutation_app_tail, resident_jobs_perm, Hsort |].
      etransitivity; [apply Permutation_app_tail, Hperm |].
      simpl. apply Permutation_middle.
    + pose proof (common_sort_part_rows_perm rs) as Hsort.
      specialize (IH (common_sort_part_rows rs)
                    (rows_in_bounds_perm _ _ (Permutation_sym Hsort) Hb) Hs').
      destruct (pack_jobs cores store ss (common_sort_part_rows rs))
        as [ss2 rs2].
      simpl in *. unfold left_over in *. simpl. rewrite Hj. simpl.
      etransitivity; [symmetry; apply Permutation_middle |].
      etransitivity; [apply perm_skip, IH |].
      etransitivity;
        [apply perm_skip, Permutation_app_tail, resident_jobs_perm, Hsort |].
      apply Permutation_middle.
Qed.

Lemma left_over_none (ss : list sort_support) :
  has_dangling ss = false → left_over ss = [].
Proof.
  unfold has_dangling, left_over. induction ss as [| s ss IH]; simpl;
    [reflexivity |].
  intros H. apply orb_false_iff in H as [H1 H2]. rewrite H1. apply IH, H2.
Qed.

Lemma gather_jobs_tmpjobs (rs : list part_row_data) :
  map tmpjobs (gather_jobs cores store rs) = resident_jobs rs.
Proof.
  unfold gather_jobs, resident_jobs. induction rs as [| r rs IH]; simpl;
    [reflexivity |].
  rewrite map_app, IH. f_equal. rewrite map_map. simpl. apply map_id.
Qed.

Lemma emptied_rows_jobs (size : Z) (rs : list part_row_data) :
  resident_jobs (map (emptied_row size) rs) = []
  ∧ rows_in_bounds (map (emptied_row size) rs).
Proof.
  unfold resident_jobs, rows_in_bounds. induction rs as [| r rs [IH1 IH2]];
    simpl; [split; [reflexivity | constructor] |].
  split; [exact IH1 |]. constructor; [simpl; lia | exact IH2].
Qed.

Lemma rebuilt_rows_jobs (size : Z) (rs : list part_row_data) :
  resident_jobs (map (rebuild_row cores store size) rs) = resident_jobs rs.
Proof.
  unfold resident_jobs. induction rs as [| r rs IH]; simpl; [reflexivity |].
  rewrite IH. f_equal. unfold row_jobs.
  destruct (rebuild_row_fields cores store size r) as [-> ->]. reflexivity.
Qed.

Lemma cleared_rows_jobs (size : Z) (rs : list part_row_data) :
  resident_jobs (map (clear_row_bitmap size) rs) = resident_jobs rs.
Proof.
  unfold resident_jobs. induction rs as [| r rs IH]; simpl; [reflexivity |].
  rewrite IH. reflexivity.
Qed.

(** A rebuild of the row bitmaps of a partition keeps the number of rows
    and, whether the jobs are repacked or the rows restored, the jobs: the
    jobs of the rows after the call are the jobs of the rows before it, each
    as many times as before, in rows that may differ.  The entries of the
    job lists are taken not to be null. *)
Theorem build_row_bitmaps_keeps_jobs (p : part_res_record)
    (job_ptr : option (option nat)) (rs : list part_row_data) :
  row p = Some rs →
  (∀ r j, In r rs → In j (row_jobs r) → j ≠ None) →
  ∃ rs', row (_build_row_bitmaps cores store p job_ptr) = Some rs'
         ∧ length rs' = length rs
         ∧ Permutation (resident_jobs rs') (resident_jobs rs).
Proof.
  intros Hrow Hnn. unfold _build_row_bitmaps. rewrite Hrow. cbn [row].
  eexists. split; [reflexivity |].
  destruct rs as [| r [| r2 rs]].
  - destruct (total_num_jobs [] =? 0)%nat; split; reflexivity.
  - destruct (num_jobs r =? 0)%nat; [split; reflexivity |].
    destruct job_ptr as [jp |]; [split; reflexivity |].
    split; [reflexivity |].
    rewrite <- (rebuilt_rows_jobs (bit_size (the_bits (first_row_bitmap r))) [r]).
    reflexivity.
  - remember (r :: r2 :: rs) as rows eqn:Hrows. clear Hrows.
    destruct (total_num_jobs rows =? 0)%nat.
    + split; [apply length_map | rewrite cleared_rows_jobs; reflexivity].
    + split; [apply repack_rows_length |].
      unfold repack_rows.
      set (ss := qsort (_compare_support store) (gather_jobs cores store rows)).
      destruct (emptied_rows_jobs (row0_bitmap_size rows) rows) as [He Hb].
      assert (Hss : ∀ s, In s ss → tmpjobs s ≠ None).
      { intros s Hs.
        assert (Hin : In (tmpjobs s) (resident_jobs rows)).
        { rewrite <- gather_jobs_tmpjobs. apply in_map.
          eapply Permutation_in; [apply qsort_perm | exact Hs]. }
        unfold resident_jobs in Hin. apply in_concat in Hin as (l & Hl & Hj).
        apply in_map_iff in Hl as (r0 & <- & Hr0). eapply Hnn; eassumption. }
      pose proof (pack_jobs_jobs ss _ Hb Hss) as Hpack.
      destruct (pack_jobs cores store ss
                  (map (emptied_row (row0_bitmap_size rows)) rows))
        as [ss' rs'].
      cbn [fst snd] in Hpack.
      destruct (has_dangling ss') eqn:Hd.
      * unfold common_dup_row_data. rewrite rebuilt_rows_jobs. reflexivity.
      * rewrite (left_over_none ss' Hd), app_nil_r, He in Hpack. simpl in Hpack.
        etransitivity; [exact Hpack |].
        rewrite <- gather_jobs_tmpjobs. apply Permutation_map.
        apply qsort_perm.
Qed.

End KeepJobs.

(** The four jobs of two full rows are spread over three rows. *)
Lemma build_row_bitmaps_keeps_jobs_witness :
  ∃ rs', row (_build_row_bitmaps [8%nat] pack_store spread_partition None)
         = Some rs'
         ∧ length rs' = 3%nat
         ∧ Permutation (resident_jobs rs')
             [Some 1%nat; Some 4%nat; Some 2%nat; Some 3%nat].
Proof.
  destruct (build_row_bitmaps_keeps_jobs [8%nat] pack_store spread_partition
              None (two_full_rows ++ [spare_row]) eq_refl)
    as (rs' & H1 & H2 & H3).
  - intros r j Hr Hj.
    repeat (destruct Hr as [<- | Hr];
            [vm_compute in Hj; intuition (subst; discriminate) |]).
    destruct Hr.
  - exists rs'. split; [exact H1 |]. split; [exact H2 | exact H3].
Defined.

(** ** The bitmap of all allocated cores *)

Lemma or_rows_spec (size : Z) (rows : list part_row_data)
    (acc : option (list bool)) :
  (∀ r b, In r rows → first_row_bitmap r = Some b → bit_size b = size) →
  (∀ a, acc = Some a → bit_size a = size) →
  match foldl or_row_bitmap acc rows with
  | Some a' =>
      bit_size a' = size
      ∧ ∀ q, bit_test a' q = true
             ↔ (∃ a, acc = Some a ∧ bit_test a q = true)
               ∨ ∃ r b, In r rows ∧ first_row_bitmap r = Some b
                        ∧ bit_test b q = true
  | None => acc = None ∧ ∀ r, In r rows → first_row_bitmap r = None
  end.
Proof.
  revert acc. induction rows as [| r rows IH]; intros acc Hrows Hacc; simpl.
  - destruct acc as [a |].
    + split; [apply Hacc; reflexivity |]. intros q. split.
      * intros H. left. exists a. split; [reflexivity | exact H].
      * intros [(a' & Ha & H) | (r & b & [] & _)]. injection Ha as <-. exact H.
    + split; [reflexivity | intros r []].
  - assert (Hrows' : ∀ r' b, In r' rows → first_row_bitmap r' = Some b →
                             bit_size b = size).
    { intros r' b Hr'. apply Hrows. right. exact Hr'. }
    assert (Hstep : ∀ a', or_row_bitmap acc r = Some a' → bit_size a' = size).
    { intros a' Ha'. unfold or_row_bitmap in Ha'.
      destruct (first_row_bitmap r) as [b |] eqn:Hb; [| apply Hacc, Ha'].
      pose proof (Hrows r b (or_introl eq_refl) Hb) as Hsb.
      destruct acc as [a |].
      - destruct (bit_size a =? bit_size b); injection Ha' as <-.
        + unfold bit_or, bit_size. rewrite length_bit_map2.
          apply (Hacc a eq_refl).
        + apply (Hacc a eq_refl).
      - injection Ha' as <-. exact Hsb. }
    specialize (IH (or_row_bitmap acc r) Hrows' Hstep).
    destruct (foldl or_row_bitmap (or_row_bitmap acc r) rows) as [a' |].
    + destruct IH as [Hsz IH]. split; [exact Hsz |].
      intros q. rewrite IH. clear IH. unfold or_row_bitmap.
      destruct (first_row_bitmap r) as [b |] eqn:Hb.
      * pose proof (Hrows r b (or_introl eq_refl) Hb) as Hsb.
        destruct acc as [a |].
        -- pose proof (Hacc a eq_refl) as Hsa.
           replace (bit_size a =? bit_size b) with true by lia.
           split.
           ++ intros [(x & Hx & Hq) | (r' & b' & Hr' & Hb' & Hq)].
              ** injection Hx as <-.
                 pose proof (bit_test_in_range _ _ Hq) as Hr.
                 unfold bit_or, bit_size in Hr. rewrite length_bit_map2 in Hr.
                 unfold bit_or in Hq.
                 rewrite bit_test_map2 in Hq by (unfold bit_size; exact Hr).
                 apply orb_prop in Hq as [Hq | Hq].
                 --- left. exists a. split; [reflexivity | exact Hq].
                 --- right. exists r, b. split; [left; reflexivity |].
                     split; assumption.
              ** right. exists r', b'. split; [right; exact Hr' |].
                 split; assumption.
           ++ intros [(x & Hx & Hq) | (r' & b' & [<- | Hr'] & Hb' & Hq)].
              ** injection Hx as <-. left. eexists. split; [reflexivity |].
                 unfold bit_or. rewrite bit_test_map2
                   by (apply bit_test_in_range, Hq).
                 rewrite Hq. reflexivity.
              ** rewrite Hb in Hb'. injection Hb' as <-. left.
                 eexists. split; [reflexivity |].
                 unfold bit_or. rewrite bit_test_map2
                   by (apply bit_test_in_range in Hq; lia).
                 rewrite Hq. apply orb_true_r.
              ** right. exists r', b'. split; [exact Hr' |]. split; assumption.
        -- split.
           ++ intros [(x & Hx & Hq) | (r' & b' & Hr' & Hb' & Hq)].
              ** injection Hx as <-. right. exists r, b.
                 split; [left; reflexivity |]. split; assumption.
              ** right. exists r', b'. split; [right; exact Hr' |].
                 split; assumption.
           ++ intros [(x & Hx & _) | (r' & b' & [<- | Hr'] & Hb' & Hq)].
              ** discriminate Hx.
              ** rewrite Hb in Hb'. injection Hb' as <-. left.
                 exists b. split; [reflexivity | exact Hq].
              ** right. exists r', b'. split; [exact Hr' |]. split; assumption.
      * split.
        -- intros [H | (r' & b' & Hr' & Hb' & Hq)]; [left; exact H |].
           right. exists r', b'. split; [right; exact Hr' |]. split; assumption.
        -- intros [H | (r' & b' & [<- | Hr'] & Hb' & Hq)]; [left; exact H | |].
           ++ congruence.
           ++ right. exists r', b'. split; [exact Hr' |]. split; assumption.
    + destruct IH as [Hnone IH]. unfold or_row_bitmap in Hnone.
      destruct (first_row_bitmap r) as [b |] eqn:Hb.
      * destruct acc as [a |]; [destruct (bit_size a =? bit_size b) |];
          discriminate Hnone.
      * split; [exact Hnone |]. intros r' [<- | Hr']; [exact Hb | apply IH, Hr'].
Qed.

(** The bitmap of all allocated cores is the union of the row bitmaps of
    all partitions, the row bitmaps being of one size: a core is set in it
    exactly when it is set in the bitmap of some row.  When it is null, no
    row has a bitmap. *)
Theorem alloc_core_bitmap_union (ps : list part_res_record) (size : Z) :
  (∀ p rs r b, In p ps → row p = Some rs → In r rs →
               first_row_bitmap r = Some b → bit_size b = size) →
  match build_alloc_core_bitmap ps with
  | Some a =>
      bit_size a = size ∧ ∀ q, bit_test a q = true ↔ allocated_in_row ps q
  | None =>
      ∀ p rs r, In p ps → row p = Some rs → In r rs → first_row_bitmap r = None
  end.
Proof.
  intros Hsize. unfold build_alloc_core_bitmap.
  set (f := fun acc p => match row p with
                         | Some rs => foldl or_row_bitmap acc rs
                         | None => acc
                         end).
  assert (Hgen : ∀ qs acc,
    (∀ p, In p qs → In p ps) →
    (∀ a, acc = Some a → bit_size a = size) →
    match foldl f acc qs with
    | Some a' =>
        bit_size a' = size
        ∧ ∀ q, bit_test a' q = true
               ↔ (∃ a, acc = Some a ∧ bit_test a q = true)
                 ∨ allocated_in_row qs q
    | None =>
        acc = None
        ∧ ∀ p rs r, In p qs → row p = Some rs → In r rs →
                    first_row_bitmap r = None
    end).
  { induction qs as [| p qs IH]; intros acc Hin Hacc; simpl.
    - destruct acc as [a |].
      + split; [apply Hacc; reflexivity |]. intros q. split.
        * intros H. left. exists a. split; [reflexivity | exact H].
        * intros [(a' & Ha & H) | (p & rs & r & b & [] & _)].
          injection Ha as <-. exact H.
      + split; [reflexivity | intros p rs r []].
    - assert (Hin' : ∀ p', In p' qs → In p' ps).
      { intros p' Hp'. apply Hin. right. exact Hp'. }
      assert (Hp : match f acc p with
                   | Some a' =>
                       bit_size a' = size
                       ∧ ∀ q, bit_test a' q = true
                              ↔ (∃ a, acc = Some a ∧ bit_test a q = true)
                                ∨ allocated_in_row [p] q
                   | None =>
                       acc = None
                       ∧ ∀ rs r, row p = Some rs → In r rs →
                                 first_row_bitmap r = None
                   end).
      { unfold f. destruct (row p) as [rs |] eqn:Hrow.
        - pose proof (or_rows_spec size rs acc) as Hor.
          destruct (foldl or_row_bitmap acc rs) as [a' |].
          + destruct Hor as [Hsz Hor].
            { intros r b Hr Hb. eapply Hsize; [apply Hin; left | | |];
                try eassumption. reflexivity. }
            { exact Hacc. }
            split; [exact Hsz |]. intros q. rewrite Hor. split.
            * intros [H | (r & b & Hr & Hb & Hq)]; [left; exact H |].
              right. exists p, rs, r, b. split; [left; reflexivity |].
              repeat split; assumption.
            * intros [H | (p' & rs' & r & b & [<- | []] & Hrs & Hr & Hb & Hq)];
                [left; exact H |].
              rewrite Hrow in Hrs. injection Hrs as <-.
              right. exists r, b. repeat split; assumption.
          + destruct Hor as [Hn Hor].
            { intros r b Hr Hb. eapply Hsize; [apply Hin; left | | |];
                try eassumption. reflexivity. }
            { exact Hacc. }
            split; [exact Hn |]. intros rs' r Hrs Hr.
            injection Hrs as <-. apply Hor, Hr.
        - destruct acc as [a |].
          + split; [apply Hacc; reflexivity |]. intros q. split.
            * intros H. left. exists a. split; [reflexivity | exact H].
            * intros [(a' & Ha & H) | (p' & rs & r & b & [<- | []] & Hrs & _)].
              -- injection Ha as <-. exact H.
              -- congruence.
          + split; [reflexivity |]. intros rs r Hrs. congruence. }
      assert (Hacc' : ∀ a, f acc p = Some a → bit_size a = size).
      { intros a Ha. rewrite Ha in Hp. apply Hp. }
      specialize (IH (f acc p) Hin' Hacc').
      destruct (foldl f (f acc p) qs) as [a' |].
      + destruct IH as [Hsz IH]. split; [exact Hsz |].
        intros q. rewrite IH. clear IH.
        destruct (f acc p) as [a1 |].
        * destruct Hp as [_ Hp]. split.
          -- intros [(x & Hx & Hq) | (p' & rs & r & b & Hp' & Hrest)].
             ++ injection Hx as <-. apply Hp in Hq as [Hq | Hq];
                  [left; exact Hq |].
                destruct Hq as (p' & rs & r & b & [<- | []] & Hrest).
                right. exists p, rs, r, b. split; [left; reflexivity | exact Hrest].
             ++ right. exists p', rs, r, b. split; [right; exact Hp' | exact Hrest].
          -- intros [H | (p' & rs & r & b & [<- | Hp'] & Hrest)].
             ++ left. exists a1. split; [reflexivity |]. apply Hp. left. exact H.
             ++ left. exists a1. split; [reflexivity |]. apply Hp. right.
                exists p, rs, r, b. split; [left; reflexivity | exact Hrest].
             ++ right. exists p', rs, r, b. split; [exact Hp' | exact Hrest].
        * destruct Hp as [-> Hp]. split.
          -- intros [(x & Hx & _) | (p' & rs & r & b & Hp' & Hrest)];
               [discriminate Hx |].
             right. exists p', rs, r, b. split; [right; exact Hp' | exact Hrest].
          -- intros [(x & Hx & _) | (p' & rs & r & b & [<- | Hp'] & Hrs & Hr & Hb & Hq)].
             ++ discriminate Hx.
             ++ rewrite (Hp rs r Hrs Hr) in Hb. discriminate Hb.
             ++ right. exists p', rs, r, b. split; [exact Hp' |].
                repeat split; assumption.
      + destruct IH as [Hn IH]. rewrite Hn in Hp. destruct Hp as [-> Hp].
        split; [reflexivity |].
        intros p' rs r [<- | Hp']; [apply Hp | apply IH, Hp']. }
  specialize (Hgen ps None (fun p H => H) ltac:(intros a H; discriminate H)).
  destruct (foldl f None ps) as [a |].
  - destruct Hgen as [Hsz Hgen]. split; [exact Hsz |].
    intros q. rewrite Hgen. split.
    + intros [(x & Hx & _) | H]; [discriminate Hx | exact H].
    + intros H. right. exact H.
  - apply Hgen.
Qed.

Lemma alloc_core_bitmap_union_witness :
  ∃ a, build_alloc_core_bitmap (select_part_record rollup_engine) = Some a
       ∧ bit_size a = 4
       ∧ (bit_test a 2 = true
          ↔ allocated_in_row (select_part_record rollup_engine) 2).
Proof.
  pose proof (alloc_core_bitmap_union (select_part_record rollup_engine) 4) as H.
  destruct (build_alloc_core_bitmap (select_part_record rollup_engine))
    as [a |] eqn:E; [| discriminate E].
  exists a. split; [reflexivity |].
  destruct H as [H1 H2].
  - intros p rs r b [<- | []] Hrs Hr Hb. injection Hrs as <-.
    destruct Hr as [<- | []]. injection Hb as <-. reflexivity.
  - split; [exact H1 | apply H2].
Defined.

(** ** Two rollups in a row *)

Section NodeInfoAgain.

Variable cores : list nat.
Variable fast_schedule : Z.

Lemma set_nodeinfo_twice (e e1 : engine) (bm : option (list bool)) (n : nat)
    (nd : node_record) :
  select_node_record e1 = select_node_record e →
  select_node_usage e1 = select_node_usage e →
  set_nodeinfo cores fast_schedule e1 bm n
    (set_nodeinfo cores fast_schedule e bm n nd)
  = set_nodeinfo cores fast_schedule e bm n nd.
Proof.
  intros H1 H2. unfold set_nodeinfo.
  destruct (nd_select_nodeinfo nd) as [ni |] eqn:Hni.
  - cbn [nd_select_nodeinfo nd_cpus nd_threads config_ptr].
    unfold node_cpus_of, node_threads_of.
    cbn [nd_cpus nd_threads config_ptr]. rewrite H1, H2. reflexivity.
  - rewrite Hni. reflexivity.
Qed.

(** The rollup is called again after it has run, nothing else having
    changed.  The second call answers that no data changed only when its
    time of last node update is before that of the first call, which was
    not zero; in every other case, a call at the same time included, it
    computes everything again.  Either way the node table is left as the
    first call left it, and the rows and the node usage are never touched. *)
Theorem nodeinfo_set_all_again (last_node_update last_node_update' : Z)
    (e e1 : engine) :
  select_p_select_nodeinfo_set_all cores fast_schedule last_node_update e
  = (SLURM_SUCCESS, e1) →
  let r := select_p_select_nodeinfo_set_all cores fast_schedule
             last_node_update' e1 in
  (r.1 = SLURM_NO_CHANGE_IN_DATA
   ↔ last_node_update ≠ 0 ∧ last_node_update' < last_node_update)
  ∧ (r.1 = SLURM_NO_CHANGE_IN_DATA ∨ r.1 = SLURM_SUCCESS)
  ∧ node_record_table r.2 = node_record_table e1
  ∧ select_part_record r.2 = select_part_record e
  ∧ select_node_usage r.2 = select_node_usage e.
Proof.
  intros Hfirst r. unfold select_p_select_nodeinfo_set_all in Hfirst.
  destruct (negb (last_set_all e =? 0) && (last_node_update <? last_set_all e));
    [discriminate Hfirst |].
  injection Hfirst as <-.
  unfold r, select_p_select_nodeinfo_set_all.
  cbn [last_set_all select_part_record node_record_table select_node_usage
       select_node_record resrcs errlog].
  destruct (negb (last_node_update =? 0)
            && (last_node_update' <? last_node_update)) eqn:E.
  - cbn [fst snd node_record_table select_part_record select_node_usage].
    split; [| split; [left; reflexivity | repeat split]].
    split; [intros _ | reflexivity].
    apply andb_prop in E as [E1 E2]. apply negb_true_iff in E1. lia.
  - cbn [fst snd node_record_table select_part_record select_node_usage].
    split; [| split; [right; reflexivity | split; [| split; reflexivity]]].
    + split; [intros H; discriminate H |].
      intros [H1 H2]. apply andb_false_iff in E as [E | E].
      * apply negb_false_iff in E. lia.
      * lia.
    + apply list_eq. intros n. rewrite !list_lookup_imap.
      destruct (node_record_table e !! n) as [nd |]; [| reflexivity].
      simpl. f_equal. apply set_nodeinfo_twice; reflexivity.
Qed.

End NodeInfoAgain.

(** The rollup of two nodes is run twice at time 5. *)
Lemma nodeinfo_set_all_again_witness :
  let e1 := (select_p_select_nodeinfo_set_all four_nodes 1 5 rollup_engine).2 in
  let r := select_p_select_nodeinfo_set_all four_nodes 1 5 e1 in
  r.1 = SLURM_SUCCESS ∧ node_record_table r.2 = node_record_table e1.
Proof.
  intros e1 r.
  destruct (nodeinfo_set_all_again four_nodes 1 5 5 rollup_engine e1 eq_refl)
    as (_ & _ & H & _).
  split; [reflexivity | exact H].
Defined.

(** ** The configuration of a node is updated *)

(** The update of the configuration of a node fails, with a message,
    exactly when the index is not below the node count, and the table is
    then as it was.  Otherwise no other entry than that of the node changes,
    the node the entry points at stays the same, the memory of the entry is
    taken from the node exactly when fast scheduling is off, and is not
    touched otherwise, and the sockets and cores of the entry can only
    change when [select_fast_schedule] is 1. *)
Theorem update_node_config_frame (select_fast_schedule select_node_cnt : Z)
    (select_node_record : list node_res_config) (index : Z) :
  let r := select_p_update_node_config select_fast_schedule select_node_cnt
             select_node_record index in
  let nr := default no_node_res_config (select_node_record !! Z.to_nat index) in
  let nr' := default no_node_res_config (r.1.2 !! Z.to_nat index) in
  length r.1.2 = length select_node_record
  ∧ (r.1.1 = SLURM_ERROR ↔ select_node_cnt <= index)
  ∧ (r.1.1 = SLURM_ERROR → r.1.2 = select_node_record ∧ r.2 ≠ [])
  ∧ (r.1.1 = SLURM_ERROR ∨ r.1.1 = SLURM_SUCCESS)
  ∧ (∀ k, k ≠ Z.to_nat index → r.1.2 !! k = select_node_record !! k)
  ∧ nr_node_ptr nr' = nr_node_ptr nr
  ∧ (select_fast_schedule ≠ 0 →
     nr_real_memory nr' = nr_real_memory nr
     ∧ nr_mem_spec_limit nr' = nr_mem_spec_limit nr)
  ∧ (select_fast_schedule = 0 → 0 <= index < select_node_cnt →
     (Z.to_nat index < length select_node_record)%nat →
     nr_real_memory nr' = hw_real_memory (nr_node_ptr nr)
     ∧ nr_mem_spec_limit nr' = hw_mem_spec_limit (nr_node_ptr nr))
  ∧ (select_fast_schedule ≠ 1 →
     nr_sockets nr' = nr_sockets nr ∧ nr_cores nr' = nr_cores nr).
Proof.
  intros r nr nr'. unfold nr', r, select_p_update_node_config.
  destruct (index >=? select_node_cnt) eqn:Ei.
  { cbn [fst snd]. repeat split; try reflexivity; try lia; try discriminate.
    all: intros; try lia. }
  destruct (index <? 0) eqn:En.
  { cbn [fst snd]. repeat split; try reflexivity; try lia; try discriminate.
    all: intros; try lia. }
  fold nr.
  set (node_ptr := nr_node_ptr nr).
  set (nr1 := if (select_fast_schedule =? 1) && _ && _ && _
              then mk_node_res_config _ _ _ _ _ else nr).
  assert (H1 : nr_node_ptr nr1 = node_ptr
               ∧ nr_real_memory nr1 = nr_real_memory nr
               ∧ nr_mem_spec_limit nr1 = nr_mem_spec_limit nr
               ∧ (select_fast_schedule ≠ 1 →
                  nr_sockets nr1 = nr_sockets nr ∧ nr_cores nr1 = nr_cores nr)).
  { unfold nr1. destruct (select_fast_schedule =? 1) eqn:E1.
    - destruct (_ && _ && _ && _); simpl; repeat split; try reflexivity;
        intros; lia.
    - simpl. repeat split. }
  destruct H1 as (Hp & Hm & Hl & Hg).
  assert (Hlook : ∀ x, default no_node_res_config
                         (<[Z.to_nat index := x]> select_node_record
                          !! Z.to_nat index)
                       = x ∨ ((length select_node_record <= Z.to_nat index)%nat
                              ∧ default no_node_res_config
                                  (<[Z.to_nat index := x]> select_node_record
                                   !! Z.to_nat index) = nr)).
  { intros x.
    destruct (Nat.lt_ge_cases (Z.to_nat index) (length select_node_record))
      as [Hlt | Hge].
    - left. rewrite list_lookup_insert_eq by exact Hlt. reflexivity.
    - right. split; [exact Hge |]. rewrite list_insert_ge by exact Hge.
      reflexivity. }
  destruct (negb (select_fast_schedule =? 0)) eqn:Ef; cbn [fst snd].
  - apply negb_true_iff in Ef.
    split; [apply length_insert |].
    split; [split; [discriminate | lia] |].
    split; [discriminate |]. split; [right; reflexivity |].
    split; [intros k Hk; apply list_lookup_insert_ne; congruence |].
    destruct (Hlook nr1) as [-> | [_ ->]].
    + split; [exact Hp |]. split; [intros _; split; assumption |].
      split; [lia | exact Hg].
    + split; [reflexivity |]. split; [intros _; split; reflexivity |].
      split; [lia |]. intros _. split; reflexivity.
  - apply negb_false_iff in Ef.
    split; [apply length_insert |].
    split; [split; [discriminate | lia] |].
    split; [discriminate |]. split; [right; reflexivity |].
    split; [intros k Hk; apply list_lookup_insert_ne; congruence |].
    match goal with
    | |- context [<[_ := ?x]> select_node_record] =>
        destruct (Hlook x) as [-> | [Hge ->]]
    end.
    + split; [reflexivity |]. split; [lia |].
      split; [intros _ _ _; split; reflexivity |]. exact Hg.
    + split; [reflexivity |]. split; [lia |].
      split; [intros _ _ Hlt; lia |]. intros _. split; reflexivity.
Qed.

Lemma update_node_config_frame_witness :
  let r := select_p_update_node_config 0 2 rebooted_nodes 0 in
  r.1.1 = SLURM_SUCCESS
  ∧ r.1.2 !! 1%nat = rebooted_nodes !! 1%nat
  ∧ nr_real_memory (default no_node_res_config (r.1.2 !! 0%nat)) = 2000
  ∧ nr_sockets (default no_node_res_config (r.1.2 !! 0%nat)) = 2.
Proof.
  intros r.
  pose proof (update_node_config_frame 0 2 rebooted_nodes 0)
    as (_ & _ & _ & _ & Hoth & _ & _ & Hmem & Hgeo).
  split; [reflexivity |]. split; [apply Hoth; discriminate |].
  destruct (Hmem eq_refl ltac:(lia) ltac:(simpl; lia)) as [H1 _].
  destruct (Hgeo ltac:(lia)) as [H2 _].
  split; [exact H1 | exact H2].
Defined.

(** ** The memory of a job is confirmed *)

Lemma seqZ'_snoc (a : Z) (m : nat) :
  seqZ' a (S m) = seqZ' a m ++ [a + Z.of_nat m].
Proof.
  unfold seqZ'. rewrite seq_S, map_app. reflexivity.
Qed.

Lemma znth_zset_eq (l : list Z) (i v : Z) :
  0 <= i < Z.of_nat (length l) → znth (zset l i v) i = v.
Proof.
  intros H. unfold znth, zset. destruct (i <? 0) eqn:E; [lia |].
  rewrite list_lookup_insert_eq by lia. reflexivity.
Qed.

Lemma length_zset (l : list Z) (i v : Z) : length (zset l i v) = length l.
Proof. unfold zset. destruct (i <? 0); [reflexivity | apply length_insert]. Qed.

Section MemConfirm.

Variable snr : list node_res_config.
Variable nb : list bool.
Variable ma0 : list Z.
Variable us0 : list node_use_record.

Hypothesis room_for_nodes : bit_set_count nb <= Z.of_nat (length ma0).
Hypothesis usage_of_nodes : bit_size nb <= Z.of_nat (length us0).

Lemma mem_confirm_step_inv (c : Z)
    (st : list Z * list node_use_record * Z * Z) :
  0 <= c →
  mem_confirm_inv snr nb ma0 us0 c st →
  mem_confirm_inv snr nb ma0 us0 (c + 1) (mem_confirm_step snr nb st c).
Proof.
  intros Hc. destruct st as [[[ma us] lowest] offset].
  unfold mem_confirm_inv, mem_confirm_step.
  intros (Hoff & Hlm & Hlu & Hdone & Hrest & Htail & Hzero & Hlow & Hwit).
  destruct (bit_test nb c) eqn:Hbit; cbn [negb].
  - (* the node [c] is a node of the job *)
    pose proof (node_rank_next_set nb c Hbit) as Hnext.
    pose proof (node_rank_le_count nb (c + 1)) as Hcount.
    pose proof (bit_test_in_range _ _ Hbit) as Hrange.
    assert (Hrk : ∀ i, 0 <= i < c → bit_test nb i = true →
                       node_rank nb i < node_rank nb c).
    { intros i Hi Hb. pose proof (node_rank_next_set nb i Hb).
      pose proof (node_rank_mono nb (i + 1) c ltac:(lia)). lia. }
    assert (Hrank0 : 0 <= node_rank nb c) by (unfold node_rank; lia).
    assert (Hus : usage_at
                    (<[Z.to_nat c :=
                         mk_node_use_record (node_avail_mem snr c)
                           (node_state (usage_at us c))]> us) c
                  = mk_node_use_record (node_avail_mem snr c)
                      (node_state (usage_at us0 c))).
    { unfold usage_at. rewrite list_lookup_insert_eq
        by (unfold bit_size in *; lia).
      simpl. rewrite (Hrest c Hc (or_introl (Z.le_refl c))). reflexivity. }
    split; [lia |]. split; [rewrite length_zset; exact Hlm |].
    split; [rewrite length_insert; exact Hlu |].
    split; [| split; [| split; [| split; [| split]]]].
    + intros i Hi Hb. destruct (Z.eq_dec i c) as [-> | Hne].
      * split; [exact Hus |]. rewrite Hoff. apply znth_zset_eq. lia.
      * destruct (Hdone i ltac:(lia) Hb) as [H1 H2]. split.
        -- unfold usage_at in *. rewrite list_lookup_insert_ne by lia. exact H1.
        -- rewrite znth_zset_other; [exact H2 |].
           specialize (Hrk i ltac:(lia) Hb).
        assert (0 <= node_rank nb i) by (unfold node_rank; lia). lia.
    + intros i Hi0 Hi. rewrite list_lookup_insert_ne.
      * apply Hrest; [exact Hi0 |]. destruct Hi as [Hi | Hi]; [left; lia | right; exact Hi].
      * destruct Hi as [Hi | Hi]; [lia |]. intros Heq.
        assert (i = c) by lia. subst i. congruence.
    + intros k Hk. rewrite znth_zset_other by lia. apply Htail. lia.
    + intros H. lia.
    + intros i Hi Hb.
      destruct (Z.eq_dec i c) as [-> | Hne].
      * destruct ((offset =? 0) || (lowest >? node_avail_mem snr c)) eqn:E;
          [lia |].
        apply orb_false_iff in E as [_ E]. lia.
      * specialize (Hlow i ltac:(lia) Hb).
        destruct ((offset =? 0) || (lowest >? node_avail_mem snr c)) eqn:E;
          [| exact Hlow].
        apply orb_prop in E as [E | E]; [| lia].
        specialize (Hrk i ltac:(lia) Hb).
        assert (0 <= node_rank nb i) by (unfold node_rank; lia). lia.
    + intros _.
      destruct ((offset =? 0) || (lowest >? node_avail_mem snr c)) eqn:E.
      * exists c. split; [lia |]. split; [exact Hbit | reflexivity].
      * apply orb_false_iff in E as [E _].
        destruct Hwit as (i & Hi & Hb & Hl); [lia |].
        exists i. split; [lia |]. split; assumption.
  - (* the node [c] is not a node of the job *)
    pose proof (node_rank_next_unset nb c Hc Hbit) as Hnext.
    split; [lia |]. split; [exact Hlm |]. split; [exact Hlu |].
    split; [| split; [| split; [| split; [| split]]]].
    + intros i Hi Hb. destruct (Z.eq_dec i c) as [-> | Hne]; [congruence |].
      apply Hdone; [lia | exact Hb].
    + intros i Hi0 Hi. apply Hrest; [exact Hi0 |].
      destruct (Z.eq_dec i c) as [-> | Hne]; [right; exact Hbit |].
      destruct Hi as [Hi | Hi]; [left; lia | right; exact Hi].
    + exact Htail.
    + exact Hzero.
    + intros i Hi Hb. destruct (Z.eq_dec i c) as [-> | Hne]; [congruence |].
      apply Hlow; [lia | exact Hb].
    + intros Hpos. destruct (Hwit Hpos) as (i & Hi & Hb & Hl).
      exists i. split; [lia |]. split; assumption.
Qed.

Lemma mem_confirm_walk_inv (first : Z) (m : nat)
    (st : list Z * list node_use_record * Z * Z) :
  0 <= first →
  mem_confirm_inv snr nb ma0 us0 first st →
  mem_confirm_inv snr nb ma0 us0 (first + Z.of_nat m)
    (foldl (mem_confirm_step snr nb) st (seqZ' first m)).
Proof.
  intros Hf H0. induction m as [| m IH].
  - simpl. replace (first + Z.of_nat 0) with first by lia. exact H0.
  - rewrite seqZ'_snoc, foldl_app. simpl.
    replace (first + Z.of_nat (S m)) with (first + Z.of_nat m + 1) by lia.
    apply mem_confirm_step_inv; [lia | exact IH].
Qed.

(** The memory of a job is computed from the nodes ([NODE_MEM_CALC] set,
    fast scheduling off, nothing null, room in the arrays for the nodes of
    the job).  The call succeeds.  On each node of the job, the memory of
    the node that is not set aside becomes both the allocated memory of the
    node and the memory allocated to the job on the node; the other nodes
    and the node states are left alone.  [pn_min_memory] becomes the least
    of these memories, zero for a job without nodes. *)
Theorem job_mem_confirm_sets_memory (NODE_MEM_CALC : Z) (bit_flags pn : Z) :
  Z.land bit_flags NODE_MEM_CALC ≠ 0 →
  let job_ptr :=
    mk_mem_job_record bit_flags (Some pn)
      (Some (mk_mem_job_resources (Some nb) (Some ma0))) in
  ∃ us ma lowest_mem,
    select_p_job_mem_confirm NODE_MEM_CALC 0 snr us0 job_ptr
    = (SLURM_SUCCESS, us,
       mk_mem_job_record bit_flags (Some lowest_mem)
         (Some (mk_mem_job_resources (Some nb) (Some ma))))
    ∧ length us = length us0
    ∧ length ma = length ma0
    ∧ (∀ i, bit_test nb i = true →
            usage_at us i
            = mk_node_use_record (node_avail_mem snr i)
                (node_state (usage_at us0 i))
            ∧ znth ma (node_rank nb i) = node_avail_mem snr i)
    ∧ (∀ i, 0 <= i → bit_test nb i = false →
            us !! Z.to_nat i = us0 !! Z.to_nat i)
    ∧ (∀ k, bit_set_count nb <= k → znth ma k = znth ma0 k)
    ∧ (∀ i, bit_test nb i = true → lowest_mem <= node_avail_mem snr i)
    ∧ (bit_set_count nb = 0 → lowest_mem = 0)
    ∧ (0 < bit_set_count nb →
       ∃ i, bit_test nb i = true ∧ lowest_mem = node_avail_mem snr i).
Proof.
  intros Hflag job_ptr. unfold select_p_job_mem_confirm, job_ptr.
  cbn [mj_bit_flags mj_pn_min_memory mj_job_resrcs mr_node_bitmap
       mr_memory_allocated].
  replace (Z.land bit_flags NODE_MEM_CALC =? 0) with false by lia.
  cbn [orb negb Z.eqb].
  set (first := bit_ffs nb).
  set (last := if first >=? 0 then bit_fls nb else first - 1).
  destruct (Z_lt_le_dec first 0) as [Hneg | Hpos].
  - (* the job has no node *)
    assert (Hnone : ∀ i, bit_test nb i = false).
    { intros i. destruct (bit_test nb i) eqn:E; [| reflexivity].
      apply bit_ffs_least in E. fold first in E. lia. }
    assert (Hcnt : bit_set_count nb = 0).
    { rewrite <- (node_rank_all nb 0) by (intros; auto; lia).
      unfold node_rank. simpl. reflexivity. }
    assert (Hl : range_incl first last = []).
    { unfold range_incl, last. replace (first >=? 0) with false by lia.
      replace (Z.to_nat (first - 1 - first + 1)) with 0%nat by lia.
      reflexivity. }
    rewrite Hl. simpl. exists us0, ma0, 0.
    split; [reflexivity |]. split; [reflexivity |]. split; [reflexivity |].
    split; [intros i Hi; rewrite Hnone in Hi; discriminate Hi |].
    split; [intros; reflexivity |]. split; [intros; reflexivity |].
    split; [intros i Hi; rewrite Hnone in Hi; discriminate Hi |].
    split; [intros; reflexivity |]. intros Hp. lia.
  - (* the nodes from the first to the last are walked *)
    unfold range_incl. set (m := Z.to_nat (last - first + 1)).
    pose proof (mem_confirm_walk_inv first m (ma0, us0, 0, 0) Hpos) as Hinv.
    destruct (foldl (mem_confirm_step snr nb) (ma0, us0, 0, 0) (seqZ' first m))
      as [[[ma us] lowest] offset].
    unfold mem_confirm_inv in Hinv.
    assert (Hbelow : ∀ i, 0 <= i < first → bit_test nb i = false).
    { intros i Hi. destruct (bit_test nb i) eqn:E; [| reflexivity].
      apply bit_ffs_least in E. fold first in E. lia. }
    destruct Hinv as (Hoff & Hlm & Hlu & Hdone & Hrest & Htail & Hzero & Hlow & Hwit).
    { split; [symmetry; apply (node_rank_gap nb 0 first); [lia |];
              intros i Hi; apply Hbelow; lia |].
      split; [reflexivity |]. split; [reflexivity |].
      split; [intros i Hi Hb; rewrite Hbelow in Hb by lia; discriminate Hb |].
      split; [reflexivity |]. split; [reflexivity |]. split; [reflexivity |].
      split; [intros i Hi Hb; rewrite Hbelow in Hb by lia; discriminate Hb |].
      intros H. lia. }
    assert (Hend : ∀ i, bit_test nb i = true → 0 <= i < first + Z.of_nat m).
    { intros i Hb. pose proof (bit_fls_greatest _ _ Hb) as Hg.
      pose proof (bit_ffs_least _ _ Hb) as Hf. fold first in Hf.
      unfold m, last. replace (first >=? 0) with true by lia. lia. }
    assert (Hall : node_rank nb (first + Z.of_nat m) = bit_set_count nb).
    { apply node_rank_all; [lia |]. intros i Hi.
      destruct (bit_test nb i) eqn:E; [| reflexivity].
      apply Hend in E. lia. }
    rewrite Hall in Hoff. subst offset.
    exists us, ma, lowest. split; [reflexivity |].
    split; [exact Hlu |]. split; [exact Hlm |].
    split; [intros i Hb; apply Hdone; [apply Hend, Hb | exact Hb] |].
    split; [intros i Hi Hb; apply Hrest; [exact Hi | right; exact Hb] |].
    split; [exact Htail |].
    split; [intros i Hb; apply Hlow; [apply Hend, Hb | exact Hb] |].
    split; [exact Hzero |].
    intros Hp. destruct (Hwit Hp) as (i & _ & Hb & Hl). exists i.
    split; assumption.
Qed.

End MemConfirm.

(** The job of two nodes gets 900 and 1500 units of memory. *)
Lemma job_mem_confirm_sets_memory_witness :
  ∃ us ma,
    select_p_job_mem_confirm 64 0 rebooted_nodes
      [mk_node_use_record 0 1; mk_node_use_record 0 1] mem_calc_job
    = (SLURM_SUCCESS, us,
       mk_mem_job_record 64 (Some 900)
         (Some (mk_mem_job_resources (Some [true; true]) (Some ma))))
    ∧ ma = [900; 1500].
Proof.
  destruct (job_mem_confirm_sets_memory rebooted_nodes [true; true] [0; 0]
              [mk_node_use_record 0 1; mk_node_use_record 0 1]
              ltac:(vm_compute; discriminate) ltac:(vm_compute; discriminate)
              64 64 0 ltac:(vm_compute; discriminate))
    as (us & ma & low & Hrun & _).
  exists us, ma. vm_compute in Hrun. injection Hrun as <- <- <-.
  split; reflexivity.
Defined.

(** ** A job is ready when its nodes are powered *)

Lemma nodes_powered_spec (nb : list bool) (tbl : list node_power)
    (inxs : list Z) :
  nodes_powered nb tbl inxs = true
  ↔ ∀ i, In i inxs → bit_test nb i = true →
         power_save (default (mk_node_power false false) (tbl !! Z.to_nat i))
         = false
         ∧ power_up (default (mk_node_power false false) (tbl !! Z.to_nat i))
           = false.
Proof.
  induction inxs as [| i inxs IH]; simpl.
  - split; [intros _ i [] | reflexivity].
  - destruct (bit_test nb i) eqn:Hb; simpl.
    + set (nd := default _ (tbl !! Z.to_nat i)).
      destruct (power_save nd || power_up nd) eqn:Hp.
      * split; [discriminate |]. intros H.
        destruct (H i (or_introl eq_refl) Hb) as [H1 H2]. fold nd in H1, H2.
        rewrite H1, H2 in Hp. discriminate Hp.
      * rewrite IH. apply orb_false_iff in Hp as [H1 H2]. split.
        -- intros H k [<- | Hk] Hbk; [split; assumption | apply H; assumption].
        -- intros H k Hk. apply H. right. exact Hk.
    + rewrite IH. split.
      * intros H k [<- | Hk] Hbk; [congruence | apply H; assumption].
      * intros H k Hk. apply H. right. exact Hk.
Qed.

(** The answer is either zero or [READY_NODE_STATE], and it is
    [READY_NODE_STATE] exactly when the job is running or suspended and none
    of its nodes is powered down or powering up; a job without a node
    bitmap, or without nodes, has no such node. *)
Theorem job_ready_when_nodes_powered (READY_NODE_STATE : Z)
    (node_record_table : list node_power) (running suspended : bool)
    (node_bitmap : option (list bool)) :
  READY_NODE_STATE ≠ 0 →
  let r := select_p_job_ready READY_NODE_STATE node_record_table running
             suspended node_bitmap in
  (r = 0 ∨ r = READY_NODE_STATE)
  ∧ (r = READY_NODE_STATE
     ↔ (running = true ∨ suspended = true)
       ∧ ∀ i, bit_test (the_bits node_bitmap) i = true →
              power_save (default (mk_node_power false false)
                            (node_record_table !! Z.to_nat i)) = false
              ∧ power_up (default (mk_node_power false false)
                            (node_record_table !! Z.to_nat i)) = false).
Proof.
  intros Hready r. unfold r, select_p_job_ready.
  destruct (negb running && negb suspended) eqn:Hstate.
  { split; [left; reflexivity |]. split; [intros H; congruence |].
    intros [[-> | ->] _]; simpl in Hstate;
      [discriminate Hstate | rewrite andb_false_r in Hstate; discriminate Hstate]. }
  assert (Hrun : running = true ∨ suspended = true).
  { destruct running; [left; reflexivity |]. destruct suspended;
      [right; reflexivity | discriminate Hstate]. }
  destruct node_bitmap as [nb |]; simpl the_bits.
  2: { split; [right; reflexivity |]. split; [| reflexivity].
       intros _. split; [exact Hrun |]. intros i Hi.
       unfold bit_test in Hi. destruct (i <? 0); [discriminate Hi |].
       rewrite lookup_nil in Hi. discriminate Hi. }
  destruct (bit_ffs nb =? -1) eqn:Hffs.
  { split; [right; reflexivity |]. split; [| reflexivity].
    intros _. split; [exact Hrun |]. intros i Hi.
    apply bit_ffs_least in Hi. lia. }
  destruct (nodes_powered nb node_record_table _) eqn:Hp.
  - split; [right; reflexivity |]. split; [| reflexivity].
    intros _. split; [exact Hrun |]. intros i Hi.
    rewrite nodes_powered_spec in Hp. apply Hp; [| exact Hi].
    apply set_bit_in_range, Hi.
  - split; [left; reflexivity |]. split; [intros H; congruence |].
    intros [_ H]. exfalso.
    assert (Ht : nodes_powered nb node_record_table
                   (range_incl (bit_ffs nb) (bit_fls nb)) = true).
    { apply nodes_powered_spec. intros i _ Hi. apply H, Hi. }
    congruence.
Qed.

(** A running job on nodes 0 and 2, node 2 powering up. *)
Lemma job_ready_when_nodes_powered_witness :
  select_p_job_ready 1
    [mk_node_power false false; mk_node_power true false;
     mk_node_power false true]
    true false (Some [true; false; true]) = 0.
Proof.
  destruct (job_ready_when_nodes_powered 1
              [mk_node_power false false; mk_node_power true false;
               mk_node_power false true]
              true false (Some [true; false; true]) ltac:(lia))
    as [[H | H] _]; [exact H |].
  vm_compute in H. discriminate H.
Defined.

